(** * Kudu write-ahead log and the consensus surface above it

    A shallow embedding of [src/kudu/consensus/log.cc] (the [Log] facade, its
    appender thread and its garbage collection) and of the replica side of
    [UpdateConsensus] as section 4.10 of the specification and the
    integration tests of the replica describe it.

    Conventions.
    - C++ integers are [Z]; the counters modelled here stay far from their
      bounds, so no wrap-around is written out.
    - [Status] keeps the code and the message of [kudu::Status].
    - A [RETURN_NOT_OK] is an early [Fail]; a failed [CHECK] aborts the process
      and is the outcome [Crash].  [DCHECK]s are compiled out of release builds
      and are not modelled.
    - Calls into collaborators whose sources are elsewhere (the file system,
      the thread pool, segment writers, hooks) take their status from a record
      of fault oracles, and every effect is appended to the ghost field
      [trace_] of the log so that the order of effects can be stated. *)

From Stdlib Require Import ZArith List String Bool Lia DecimalString.
Import ListNotations.
Open Scope string_scope.
Open Scope list_scope.
Open Scope Z_scope.

Set Implicit Arguments.

(** ** Status and OpId *)

Inductive StatusCode :=
| kIOError | kServiceUnavailable | kIllegalState | kCorruption | kInvalidArgument.

Inductive Status :=
| OK
| Error (code : StatusCode) (msg : string).

Definition ok (s : Status) : bool :=
  match s with OK => true | Error _ _ => false end.

Module consensus.

Record OpId := MakeOpId { term : Z; index : Z }.

Definition OpIdEquals (a b : OpId) : bool :=
  (term a =? term b) && (index a =? index b).

(** Modelled from the spec: [MinimumOpId()] lives in opid_util.cc, which is
    not among the sources; section 3 gives the sentinel minimum as (0,0). *)
Definition MinimumOpId : OpId := MakeOpId 0 0.

End consensus.
Import consensus.

(** ** Data of the log *)

Inductive LogEntryTypePB := UNKNOWN | REPLICATE | COMMIT | FLUSH_MARKER.

Definition LogEntryTypePB_eqb (a b : LogEntryTypePB) : bool :=
  match a, b with
  | UNKNOWN, UNKNOWN | REPLICATE, REPLICATE
  | COMMIT, COMMIT | FLUSH_MARKER, FLUSH_MARKER => true
  | _, _ => false
  end.

(** One entry of a batch: its type and, for a REPLICATE, the id of the
    replicate message ([entry.replicate().id()]). *)
Record LogEntryPB := {
  entry_type : LogEntryTypePB;
  replicate_id : OpId
}.

(** [ByteSize] is what protobuf computes for the batch; it is kept as a field. *)
Record LogEntryBatchPB := {
  entry : list LogEntryPB;
  ByteSize : Z
}.

Inductive LogEntryState :=
| kEntryInitialized | kEntryReserved | kEntrySerialized | kEntryReady.

(** [callback_] is the one-shot completion callback; [None] is a null
    callback, [Some c] names the callback [c]. *)
Record LogEntryBatch := {
  type_ : LogEntryTypePB;
  entry_batch_pb_ : LogEntryBatchPB;
  total_size_bytes_ : Z;
  count_ : Z;
  state_ : LogEntryState;
  callback_ : option nat;
  failed_to_append_ : bool
}.

Definition first_entry_is_flush_marker (pb : LogEntryBatchPB) : bool :=
  match entry pb with
  | e :: _ => LogEntryTypePB_eqb (entry_type e) FLUSH_MARKER
  | [] => false
  end.

(** [LogEntryBatch::LogEntryBatch]. *)
Definition new_LogEntryBatch (type : LogEntryTypePB) (pb : LogEntryBatchPB)
           (count : Z) : LogEntryBatch :=
  {| type_ := type;
     entry_batch_pb_ := pb;
     total_size_bytes_ :=
       if (count =? 1) && first_entry_is_flush_marker pb then 0 else ByteSize pb;
     count_ := count;
     state_ := kEntryInitialized;
     callback_ := None;
     failed_to_append_ := false |}.

Definition with_state (st : LogEntryState) (b : LogEntryBatch) : LogEntryBatch :=
  {| type_ := type_ b; entry_batch_pb_ := entry_batch_pb_ b;
     total_size_bytes_ := total_size_bytes_ b; count_ := count_ b;
     state_ := st; callback_ := callback_ b;
     failed_to_append_ := failed_to_append_ b |}.

Definition set_callback (c : option nat) (b : LogEntryBatch) : LogEntryBatch :=
  {| type_ := type_ b; entry_batch_pb_ := entry_batch_pb_ b;
     total_size_bytes_ := total_size_bytes_ b; count_ := count_ b;
     state_ := state_ b; callback_ := c;
     failed_to_append_ := failed_to_append_ b |}.

Definition set_failed_to_append (b : LogEntryBatch) : LogEntryBatch :=
  {| type_ := type_ b; entry_batch_pb_ := entry_batch_pb_ b;
     total_size_bytes_ := total_size_bytes_ b; count_ := count_ b;
     state_ := state_ b; callback_ := callback_ b;
     failed_to_append_ := true |}.

(** [LogEntryBatch::MarkReserved]. *)
Definition MarkReserved (b : LogEntryBatch) : LogEntryBatch :=
  with_state kEntryReserved b.

(** Modelled from the spec: [LogEntryBatch::MaxReplicateOpId] is defined in
    log.h, which is not among the sources.  The replicates of a batch are in
    increasing order (section 3, monotonic OpIds), so the maximum replicate
    id of a batch is the id of its last entry. *)
Definition MaxReplicateOpId (b : LogEntryBatch) : OpId :=
  replicate_id (last (entry (entry_batch_pb_ b))
                     {| entry_type := REPLICATE; replicate_id := MinimumOpId |}).

(** The footer of a segment.  The getters of the protobuf return the stored
    value, or the default of the field when it was never set. *)
Record LogSegmentFooterPB := {
  num_entries : Z;
  has_min_replicate_index : bool;
  min_replicate_index : Z;
  has_max_replicate_index : bool;
  max_replicate_index : Z
}.

Record ReadableLogSegment := {
  sequence_number : Z;           (* header().sequence_number() *)
  path : string;
  file_size : Z;
  footer_ : option LogSegmentFooterPB
}.

Definition HasFooter (s : ReadableLogSegment) : bool :=
  match footer_ s with Some _ => true | None => false end.

Definition SegmentSequence := list ReadableLogSegment.

Record RetentionIndexes := {
  for_durability : Z;
  for_peers : Z
}.

(** The two retention flags of log.cc. *)
Record Flags := {
  FLAGS_log_min_segments_to_retain : Z;
  FLAGS_log_max_segments_to_retain : Z
}.

(** ** GetPrefixSizeToGC *)

(** The body of the [for] loop; [rem_segs] and [prefix_size] are the two
    local counters, a [break] returns [prefix_size] as it stands. *)
Fixpoint GetPrefixSizeToGC_loop (flags : Flags) (retention_indexes : RetentionIndexes)
         (segments : SegmentSequence) (rem_segs prefix_size : Z) : Z :=
  match segments with
  | [] => prefix_size
  | segment :: rest =>
      if rem_segs <=? FLAGS_log_min_segments_to_retain flags then prefix_size
      else
        match footer_ segment with
        | None => prefix_size
        | Some footer =>
            let seg_max_idx := max_replicate_index footer in
            if seg_max_idx >=? for_durability retention_indexes then prefix_size
            else if (seg_max_idx >=? for_peers retention_indexes)
                    && (rem_segs <=? FLAGS_log_max_segments_to_retain flags)
            then prefix_size
            else GetPrefixSizeToGC_loop flags retention_indexes rest
                                        (rem_segs - 1) (prefix_size + 1)
        end
  end.

Definition GetPrefixSizeToGC (flags : Flags) (retention_indexes : RetentionIndexes)
           (segments : SegmentSequence) : Z :=
  GetPrefixSizeToGC_loop flags retention_indexes segments
                         (Z.of_nat (List.length segments)) 0.

(** The stopping rule in the words of the specification: [remaining] is the
    number of segments not yet put in the prefix. *)
Definition stops_gc (flags : Flags) (retention : RetentionIndexes)
           (remaining : Z) (seg : ReadableLogSegment) : bool :=
  match footer_ seg with
  | None => true
  | Some footer =>
      (remaining <=? FLAGS_log_min_segments_to_retain flags)
      || (max_replicate_index footer >=? for_durability retention)
      || ((max_replicate_index footer >=? for_peers retention)
          && (remaining <=? FLAGS_log_max_segments_to_retain flags))
  end.

(** ** The state of a [Log] *)

Inductive LogState := kLogInitialized | kLogWriting | kLogClosed.

Inductive SegmentAllocationState :=
| kAllocationNotStarted | kAllocationInProgress | kAllocationFinished.

(** The fields of [LogOptions] and of the constructor that never change. *)
Record LogOptions := {
  async_preallocate_segments : bool;
  force_sync_all_ : bool;
  sync_disabled_ : bool;
  max_segment_size_ : Z;
  (* default of the optional index fields of the footer in log.proto,
     which is not among the sources *)
  footer_index_default : Z
}.

(** The segment being written ([active_segment_], which exists from [Init]
    on).  [synced_offset] is ghost: the part of the file that an fsync has
    covered. *)
Record WritableLogSegment := {
  ws_path : string;
  ws_sequence_number : Z;        (* header().sequence_number() *)
  Size : Z;
  written_offset : Z;
  synced_offset : Z;
  IsClosed : bool;
  ws_footer : option LogSegmentFooterPB
}.

Record LogIndexEntry := {
  op_id : OpId;
  segment_sequence_number : Z;
  offset_in_segment : Z
}.

(** The index: its entries and the bound of the last [GC] call on it. *)
Record LogIndex := {
  index_entries : list LogIndexEntry;
  index_gc_bound : option Z
}.

Record LogReader := {
  segments_ : SegmentSequence;
  last_segment_offset : Z
}.

(** The entry queue ([BlockingQueue<LogEntryBatch*>]): its elements, whether
    it was shut down, and its byte budget. *)
Record BlockingQueue := {
  list_ : list LogEntryBatch;
  shutdown_ : bool;
  size_ : Z;
  max_size_ : Z
}.

(** What the log does, in the order it does it.  The events from
    [EvAppendAttempt] on are those of the appender thread, where [i] is the
    position of a batch in the drained vector: the call of [DoAppend] on the
    batch and the status it came back with, the call of [Sync] for the group
    and its status, the callbacks run, and the batches freed. *)
Inductive Event :=
| EvSetLastEntryOpId (id : OpId)
| EvAsyncAllocateSegment
| EvSync
| EvFsync (upto : Z)
| EvWriteFooterAndClose
| EvSwitchToAllocatedSegment (seqno : Z)
| EvWriteEntryBatch (batch : LogEntryBatch)
| EvUpdateLastSegmentOffset (off : Z)
| EvAddIndexEntry (e : LogIndexEntry)
| EvTrimSegments (seqno : Z)
| EvDeleteFile (p : string)
| EvIndexGC (bound : Z)
| EvAllocationPoolShutdown
| EvAppendAttempt (i : nat)
| EvAppendReturned (i : nat) (s : Status)
| EvSetFailedToAppend (i : nat)
| EvGroupSync
| EvGroupSyncReturned (s : Status)
| EvCallbackRun (i : nat) (callback : nat) (s : Status)
| EvDeleteBatch (i : nat).

(** The members of [Log] that the model follows.  [reader_] and [log_index_]
    are the objects that the two pointers of these names point to;
    [reader_held] and [log_index_held] say whether the pointers are set,
    which they are from [Init] until [Close] resets them, and what the
    record holds for a pointer that was reset is the object it pointed to
    last.  [next_segment_path_] and [next_segment_file_] are the placeholder
    that the allocation task leaves for the next rollover, the file being
    named by its path. *)
Record Log := {
  options_ : LogOptions;
  log_state_ : LogState;
  active_segment_ : WritableLogSegment;
  active_segment_sequence_number_ : Z;
  footer_builder_ : LogSegmentFooterPB;
  reader_ : LogReader;
  log_index_ : LogIndex;
  last_entry_op_id_ : option OpId;
  allocation_state_ : SegmentAllocationState;
  entry_batch_queue_ : BlockingQueue;
  next_segment_path_ : string;
  next_segment_file_ : option string;
  log_index_held : bool;
  reader_held : bool;
  files_ : list string;
  trace_ : list Event
}.

Definition set_log_state (v : LogState) (l : Log) : Log :=
  {| options_ := options_ l;
     log_state_ := v;
     active_segment_ := active_segment_ l;
     active_segment_sequence_number_ := active_segment_sequence_number_ l;
     footer_builder_ := footer_builder_ l;
     reader_ := reader_ l;
     log_index_ := log_index_ l;
     last_entry_op_id_ := last_entry_op_id_ l;
     allocation_state_ := allocation_state_ l;
     entry_batch_queue_ := entry_batch_queue_ l;
     next_segment_path_ := next_segment_path_ l;
     next_segment_file_ := next_segment_file_ l;
     log_index_held := log_index_held l;
     reader_held := reader_held l;
     files_ := files_ l;
     trace_ := trace_ l |}.

Definition set_active_segment (v : WritableLogSegment) (l : Log) : Log :=
  {| options_ := options_ l;
     log_state_ := log_state_ l;
     active_segment_ := v;
     active_segment_sequence_number_ := active_segment_sequence_number_ l;
     footer_builder_ := footer_builder_ l;
     reader_ := reader_ l;
     log_index_ := log_index_ l;
     last_entry_op_id_ := last_entry_op_id_ l;
     allocation_state_ := allocation_state_ l;
     entry_batch_queue_ := entry_batch_queue_ l;
     next_segment_path_ := next_segment_path_ l;
     next_segment_file_ := next_segment_file_ l;
     log_index_held := log_index_held l;
     reader_held := reader_held l;
     files_ := files_ l;
     trace_ := trace_ l |}.

Definition set_active_segment_sequence_number (v : Z) (l : Log) : Log :=
  {| options_ := options_ l;
     log_state_ := log_state_ l;
     active_segment_ := active_segment_ l;
     active_segment_sequence_number_ := v;
     footer_builder_ := footer_builder_ l;
     reader_ := reader_ l;
     log_index_ := log_index_ l;
     last_entry_op_id_ := last_entry_op_id_ l;
     allocation_state_ := allocation_state_ l;
     entry_batch_queue_ := entry_batch_queue_ l;
     next_segment_path_ := next_segment_path_ l;
     next_segment_file_ := next_segment_file_ l;
     log_index_held := log_index_held l;
     reader_held := reader_held l;
     files_ := files_ l;
     trace_ := trace_ l |}.

Definition set_footer_builder (v : LogSegmentFooterPB) (l : Log) : Log :=
  {| options_ := options_ l;
     log_state_ := log_state_ l;
     active_segment_ := active_segment_ l;
     active_segment_sequence_number_ := active_segment_sequence_number_ l;
     footer_builder_ := v;
     reader_ := reader_ l;
     log_index_ := log_index_ l;
     last_entry_op_id_ := last_entry_op_id_ l;
     allocation_state_ := allocation_state_ l;
     entry_batch_queue_ := entry_batch_queue_ l;
     next_segment_path_ := next_segment_path_ l;
     next_segment_file_ := next_segment_file_ l;
     log_index_held := log_index_held l;
     reader_held := reader_held l;
     files_ := files_ l;
     trace_ := trace_ l |}.

Definition set_reader (v : LogReader) (l : Log) : Log :=
  {| options_ := options_ l;
     log_state_ := log_state_ l;
     active_segment_ := active_segment_ l;
     active_segment_sequence_number_ := active_segment_sequence_number_ l;
     footer_builder_ := footer_builder_ l;
     reader_ := v;
     log_index_ := log_index_ l;
     last_entry_op_id_ := last_entry_op_id_ l;
     allocation_state_ := allocation_state_ l;
     entry_batch_queue_ := entry_batch_queue_ l;
     next_segment_path_ := next_segment_path_ l;
     next_segment_file_ := next_segment_file_ l;
     log_index_held := log_index_held l;
     reader_held := reader_held l;
     files_ := files_ l;
     trace_ := trace_ l |}.

Definition set_log_index (v : LogIndex) (l : Log) : Log :=
  {| options_ := options_ l;
     log_state_ := log_state_ l;
     active_segment_ := active_segment_ l;
     active_segment_sequence_number_ := active_segment_sequence_number_ l;
     footer_builder_ := footer_builder_ l;
     reader_ := reader_ l;
     log_index_ := v;
     last_entry_op_id_ := last_entry_op_id_ l;
     allocation_state_ := allocation_state_ l;
     entry_batch_queue_ := entry_batch_queue_ l;
     next_segment_path_ := next_segment_path_ l;
     next_segment_file_ := next_segment_file_ l;
     log_index_held := log_index_held l;
     reader_held := reader_held l;
     files_ := files_ l;
     trace_ := trace_ l |}.

Definition set_last_entry_op_id (v : option OpId) (l : Log) : Log :=
  {| options_ := options_ l;
     log_state_ := log_state_ l;
     active_segment_ := active_segment_ l;
     active_segment_sequence_number_ := active_segment_sequence_number_ l;
     footer_builder_ := footer_builder_ l;
     reader_ := reader_ l;
     log_index_ := log_index_ l;
     last_entry_op_id_ := v;
     allocation_state_ := allocation_state_ l;
     entry_batch_queue_ := entry_batch_queue_ l;
     next_segment_path_ := next_segment_path_ l;
     next_segment_file_ := next_segment_file_ l;
     log_index_held := log_index_held l;
     reader_held := reader_held l;
     files_ := files_ l;
     trace_ := trace_ l |}.

Definition set_allocation_state (v : SegmentAllocationState) (l : Log) : Log :=
  {| options_ := options_ l;
     log_state_ := log_state_ l;
     active_segment_ := active_segment_ l;
     active_segment_sequence_number_ := active_segment_sequence_number_ l;
     footer_builder_ := footer_builder_ l;
     reader_ := reader_ l;
     log_index_ := log_index_ l;
     last_entry_op_id_ := last_entry_op_id_ l;
     allocation_state_ := v;
     entry_batch_queue_ := entry_batch_queue_ l;
     next_segment_path_ := next_segment_path_ l;
     next_segment_file_ := next_segment_file_ l;
     log_index_held := log_index_held l;
     reader_held := reader_held l;
     files_ := files_ l;
     trace_ := trace_ l |}.

Definition set_entry_batch_queue (v : BlockingQueue) (l : Log) : Log :=
  {| options_ := options_ l;
     log_state_ := log_state_ l;
     active_segment_ := active_segment_ l;
     active_segment_sequence_number_ := active_segment_sequence_number_ l;
     footer_builder_ := footer_builder_ l;
     reader_ := reader_ l;
     log_index_ := log_index_ l;
     last_entry_op_id_ := last_entry_op_id_ l;
     allocation_state_ := allocation_state_ l;
     entry_batch_queue_ := v;
     next_segment_path_ := next_segment_path_ l;
     next_segment_file_ := next_segment_file_ l;
     log_index_held := log_index_held l;
     reader_held := reader_held l;
     files_ := files_ l;
     trace_ := trace_ l |}.

Definition set_next_segment_path (v : string) (l : Log) : Log :=
  {| options_ := options_ l;
     log_state_ := log_state_ l;
     active_segment_ := active_segment_ l;
     active_segment_sequence_number_ := active_segment_sequence_number_ l;
     footer_builder_ := footer_builder_ l;
     reader_ := reader_ l;
     log_index_ := log_index_ l;
     last_entry_op_id_ := last_entry_op_id_ l;
     allocation_state_ := allocation_state_ l;
     entry_batch_queue_ := entry_batch_queue_ l;
     next_segment_path_ := v;
     next_segment_file_ := next_segment_file_ l;
     log_index_held := log_index_held l;
     reader_held := reader_held l;
     files_ := files_ l;
     trace_ := trace_ l |}.

Definition set_next_segment_file (v : option string) (l : Log) : Log :=
  {| options_ := options_ l;
     log_state_ := log_state_ l;
     active_segment_ := active_segment_ l;
     active_segment_sequence_number_ := active_segment_sequence_number_ l;
     footer_builder_ := footer_builder_ l;
     reader_ := reader_ l;
     log_index_ := log_index_ l;
     last_entry_op_id_ := last_entry_op_id_ l;
     allocation_state_ := allocation_state_ l;
     entry_batch_queue_ := entry_batch_queue_ l;
     next_segment_path_ := next_segment_path_ l;
     next_segment_file_ := v;
     log_index_held := log_index_held l;
     reader_held := reader_held l;
     files_ := files_ l;
     trace_ := trace_ l |}.

Definition set_log_index_held (v : bool) (l : Log) : Log :=
  {| options_ := options_ l;
     log_state_ := log_state_ l;
     active_segment_ := active_segment_ l;
     active_segment_sequence_number_ := active_segment_sequence_number_ l;
     footer_builder_ := footer_builder_ l;
     reader_ := reader_ l;
     log_index_ := log_index_ l;
     last_entry_op_id_ := last_entry_op_id_ l;
     allocation_state_ := allocation_state_ l;
     entry_batch_queue_ := entry_batch_queue_ l;
     next_segment_path_ := next_segment_path_ l;
     next_segment_file_ := next_segment_file_ l;
     log_index_held := v;
     reader_held := reader_held l;
     files_ := files_ l;
     trace_ := trace_ l |}.

Definition set_reader_held (v : bool) (l : Log) : Log :=
  {| options_ := options_ l;
     log_state_ := log_state_ l;
     active_segment_ := active_segment_ l;
     active_segment_sequence_number_ := active_segment_sequence_number_ l;
     footer_builder_ := footer_builder_ l;
     reader_ := reader_ l;
     log_index_ := log_index_ l;
     last_entry_op_id_ := last_entry_op_id_ l;
     allocation_state_ := allocation_state_ l;
     entry_batch_queue_ := entry_batch_queue_ l;
     next_segment_path_ := next_segment_path_ l;
     next_segment_file_ := next_segment_file_ l;
     log_index_held := log_index_held l;
     reader_held := v;
     files_ := files_ l;
     trace_ := trace_ l |}.

Definition set_files (v : list string) (l : Log) : Log :=
  {| options_ := options_ l;
     log_state_ := log_state_ l;
     active_segment_ := active_segment_ l;
     active_segment_sequence_number_ := active_segment_sequence_number_ l;
     footer_builder_ := footer_builder_ l;
     reader_ := reader_ l;
     log_index_ := log_index_ l;
     last_entry_op_id_ := last_entry_op_id_ l;
     allocation_state_ := allocation_state_ l;
     entry_batch_queue_ := entry_batch_queue_ l;
     next_segment_path_ := next_segment_path_ l;
     next_segment_file_ := next_segment_file_ l;
     log_index_held := log_index_held l;
     reader_held := reader_held l;
     files_ := v;
     trace_ := trace_ l |}.

Definition set_trace (v : list Event) (l : Log) : Log :=
  {| options_ := options_ l;
     log_state_ := log_state_ l;
     active_segment_ := active_segment_ l;
     active_segment_sequence_number_ := active_segment_sequence_number_ l;
     footer_builder_ := footer_builder_ l;
     reader_ := reader_ l;
     log_index_ := log_index_ l;
     last_entry_op_id_ := last_entry_op_id_ l;
     allocation_state_ := allocation_state_ l;
     entry_batch_queue_ := entry_batch_queue_ l;
     next_segment_path_ := next_segment_path_ l;
     next_segment_file_ := next_segment_file_ l;
     log_index_held := log_index_held l;
     reader_held := reader_held l;
     files_ := files_ l;
     trace_ := v |}.

(** ** A state and error monad for the methods of [Log] *)

(** [Ret] is a normal return, [Fail] an early return with a bad status,
    [Crash] a failed [CHECK], and [Block] a call that waits on another thread
    and has not returned. *)
Inductive Outcome (A : Type) :=
| Ret (a : A)
| Fail (s : Status)
| Crash (what : string)
| Block.
Arguments Ret {A} a.
Arguments Fail {A} s.
Arguments Crash {A} what.
Arguments Block {A}.

Definition M (A : Type) := Log -> Outcome A * Log.

Definition ret {A} (a : A) : M A := fun l => (Ret a, l).
Definition fail {A} (s : Status) : M A := fun l => (Fail s, l).
Definition crash {A} (what : string) : M A := fun l => (Crash what, l).

Definition bind {A B} (c : M A) (k : A -> M B) : M B :=
  fun l =>
    match c l with
    | (Ret a, l') => k a l'
    | (Fail s, l') => (Fail s, l')
    | (Crash w, l') => (Crash w, l')
    | (Block, l') => (Block, l')
    end.

Definition block {A} : M A := fun l => (Block, l).

Declare Scope log_scope.
Delimit Scope log_scope with log.
Notation "x <- c ;; k" := (bind c (fun x => k))
  (at level 61, c at next level, right associativity) : log_scope.
Notation "c ;; k" := (bind c (fun _ => k))
  (at level 61, right associativity) : log_scope.
Open Scope log_scope.

Definition gets {A} (f : Log -> A) : M A := fun l => (Ret (f l), l).
Definition modify (f : Log -> Log) : M unit := fun l => (Ret tt, f l).
Definition emit (e : Event) : M unit :=
  modify (fun l => set_trace (trace_ l ++ [e]) l).

Definition RETURN_NOT_OK (s : Status) : M unit :=
  if ok s then ret tt else fail s.

(** [Status::CloneAndPrepend]. *)
Definition CloneAndPrepend (msg : string) (s : Status) : Status :=
  match s with
  | OK => OK
  | Error c m => Error c (msg ++ ": " ++ m)%string
  end.

Definition RETURN_NOT_OK_PREPEND (s : Status) (msg : string) : M unit :=
  RETURN_NOT_OK (CloneAndPrepend msg s).

Definition CHECK (b : bool) (what : string) : M unit :=
  if b then ret tt else crash what.

(** [CHECK_OK]: a bad status aborts the process. *)
Definition CHECK_OK {A} (c : M A) (what : string) : M A :=
  fun l =>
    match c l with
    | (Fail _, l') => (Crash what, l')
    | r => r
    end.

(** The status of a call as a value ([Status s = f();]). *)
Definition status_of (c : M unit) : M Status :=
  fun l =>
    match c l with
    | (Ret _, l') => (Ret OK, l')
    | (Fail s, l') => (Ret s, l')
    | (Crash w, l') => (Crash w, l')
    | (Block, l') => (Block, l')
    end.

Definition LogState_eqb (a b : LogState) : bool :=
  match a, b with
  | kLogInitialized, kLogInitialized | kLogWriting, kLogWriting
  | kLogClosed, kLogClosed => true
  | _, _ => false
  end.

(** ** Garbage collection *)

(** The collaborators of [Log::GC]: the snapshot and the trim of the reader,
    and the deletion of one file. *)
Record GCFaults := {
  GetSegmentsSnapshot : Status;
  TrimSegments_status : Status;
  DeleteFile : string -> Status
}.

Definition GetSegmentsToGCUnlocked (flags : Flags) (f : GCFaults)
           (retention_indexes : RetentionIndexes) : M SegmentSequence :=
  RETURN_NOT_OK (GetSegmentsSnapshot f);;
  segments_to_gc <- gets (fun l => segments_ (reader_ l));;
  ret (firstn (Z.to_nat (GetPrefixSizeToGC flags retention_indexes segments_to_gc))
              segments_to_gc).

(** Modelled from the spec: [LogReader::TrimSegmentsUpToAndIncluding] is in
    log_reader.cc, which is not among the sources; section 4.5 has it trim the
    prefix of segments up to and including a sequence number. *)
Fixpoint trim_up_to_and_including (seqno : Z) (segs : SegmentSequence)
  : SegmentSequence :=
  match segs with
  | [] => []
  | s :: rest =>
      if sequence_number s <=? seqno
      then trim_up_to_and_including seqno rest
      else segs
  end.

Definition TrimSegmentsUpToAndIncluding (f : GCFaults) (seqno : Z) : M unit :=
  RETURN_NOT_OK (TrimSegments_status f);;
  emit (EvTrimSegments seqno);;
  modify (fun l =>
    set_reader {| segments_ := trim_up_to_and_including seqno (segments_ (reader_ l));
                  last_segment_offset := last_segment_offset (reader_ l) |} l).

(** Modelled from the spec: [LogReader::GetMinReplicateIndex] (log_reader.cc)
    is the smallest min_replicate_index across the remaining footered
    segments (section 4.5); [None] when no segment has one. *)
Fixpoint GetMinReplicateIndex (segs : SegmentSequence) : option Z :=
  match segs with
  | [] => None
  | s :: rest =>
      let here :=
        match footer_ s with
        | Some ft =>
            if has_min_replicate_index ft then Some (min_replicate_index ft) else None
        | None => None
        end in
      match here, GetMinReplicateIndex rest with
      | Some a, Some b => Some (Z.min a b)
      | Some a, None => Some a
      | None, r => r
      end
  end.

Fixpoint remove_file (p : string) (fs : list string) : list string :=
  match fs with
  | [] => []
  | q :: rest => if String.eqb p q then remove_file p rest else q :: remove_file p rest
  end.

(** The loop of [Log::GC] that deletes the files; [num_gced] is the caller's
    out-parameter, which keeps the count reached when a deletion fails. *)
Fixpoint delete_segments (f : GCFaults) (segments_to_delete : SegmentSequence)
         (num_gced : Z) (l : Log) : Outcome unit * Z * Log :=
  match segments_to_delete with
  | [] => (Ret tt, num_gced, l)
  | segment :: rest =>
      let l1 := set_trace (trace_ l ++ [EvDeleteFile (path segment)]) l in
      match DeleteFile f (path segment) with
      | OK => delete_segments f rest (num_gced + 1)
                              (set_files (remove_file (path segment) (files_ l1)) l1)
      | Error c m => (Fail (Error c m), num_gced, l1)
      end
  end.

(** [Log::GC].  [num_gced] comes in as the value the caller's variable holds
    and goes out as the value it holds on return. *)
Definition GC (flags : Flags) (f : GCFaults) (retention_indexes : RetentionIndexes)
           (num_gced : Z) (l : Log) : Outcome unit * Z * Log :=
  if negb (for_durability retention_indexes >=? 0)
  then (Crash "CHECK_GE(retention_indexes.for_durability, 0)", num_gced, l)
  else if negb (LogState_eqb kLogWriting (log_state_ l))
  then (Crash "CHECK_EQ(kLogWriting, log_state_)", num_gced, l)
  else
    match GetSegmentsToGCUnlocked flags f retention_indexes l with
    | (Fail s, l1) => (Fail s, num_gced, l1)
    | (Crash w, l1) => (Crash w, num_gced, l1)
    | (Block, l1) => (Block, num_gced, l1)
    | (Ret segments_to_delete, l1) =>
        match rev segments_to_delete with
        | [] => (Ret tt, 0, l1)
        | last_segment :: _ =>
            match TrimSegmentsUpToAndIncluding f (sequence_number last_segment) l1 with
            | (Fail s, l2) => (Fail s, num_gced, l2)
            | (Crash w, l2) => (Crash w, num_gced, l2)
            | (Block, l2) => (Block, num_gced, l2)
            | (Ret _, l2) =>
                match delete_segments f segments_to_delete 0 l2 with
                | (Ret _, n, l3) =>
                    match GetMinReplicateIndex (segments_ (reader_ l3)) with
                    | Some min_remaining_op_idx =>
                        if min_remaining_op_idx >? 0
                        then (Ret tt, n,
                              set_log_index
                                {| index_entries := index_entries (log_index_ l3);
                                   index_gc_bound := Some min_remaining_op_idx |}
                                (set_trace (trace_ l3 ++ [EvIndexGC min_remaining_op_idx]) l3))
                        else (Ret tt, n, l3)
                    | None => (Ret tt, n, l3)
                    end
                | r => r
                end
            end
        end
    end.

(** [Log::GetGCableDataSize]: the sum of the file sizes of the same prefix. *)
Definition GetGCableDataSize (flags : Flags) (f : GCFaults)
           (retention_indexes : RetentionIndexes) (l : Log) : Outcome Z :=
  if negb (for_durability retention_indexes >=? 0)
  then Crash "CHECK_GE(retention_indexes.for_durability, 0)"
  else if negb (LogState_eqb kLogWriting (log_state_ l))
  then Crash "CHECK_EQ(kLogWriting, log_state_)"
  else
    match GetSegmentsToGCUnlocked flags f retention_indexes l with
    | (Ret segments_to_delete, _) =>
        Ret (fold_left (fun total segment => total + file_size segment)
                       segments_to_delete 0)
    | _ => Ret 0
    end.

(** ** Sync, segment allocation and rollover *)

(** Statuses of what [Log::Sync] calls; a hook that is not installed is [OK]. *)
Record SyncFaults := {
  segment_Sync : Status;               (* active_segment_->Sync() *)
  PostSyncIfFsyncEnabled : Status;
  PostSync : Status
}.

Definition mark_synced (l : Log) : Log :=
  let seg := active_segment_ l in
  set_active_segment
    {| ws_path := ws_path seg; ws_sequence_number := ws_sequence_number seg;
       Size := Size seg;
       written_offset := written_offset seg;
       synced_offset := written_offset seg;
       IsClosed := IsClosed seg; ws_footer := ws_footer seg |} l.

(** [Log::Sync]; the injected latency changes no state. *)
Definition Sync (f : SyncFaults) : M unit :=
  emit EvSync;;
  opts <- gets options_;;
  (if force_sync_all_ opts && negb (sync_disabled_ opts)
   then RETURN_NOT_OK (segment_Sync f);;
        off <- gets (fun l => written_offset (active_segment_ l));;
        modify mark_synced;;
        emit (EvFsync off);;
        RETURN_NOT_OK_PREPEND (PostSyncIfFsyncEnabled f)
                              "PostSyncIfFsyncEnabled hook failed"
   else ret tt);;
  RETURN_NOT_OK_PREPEND (PostSync f) "PostSync hook failed".

Definition SegmentAllocationState_eqb (a b : SegmentAllocationState) : bool :=
  match a, b with
  | kAllocationNotStarted, kAllocationNotStarted
  | kAllocationInProgress, kAllocationInProgress
  | kAllocationFinished, kAllocationFinished => true
  | _, _ => false
  end.

(** Statuses and results of what a rollover calls. *)
Record RollFaults := {
  SubmitClosure : Status;              (* allocation_pool_->SubmitClosure *)
  allocation_status : Status;          (* allocation_status_.Get() *)
  roll_sync : SyncFaults;
  WriteFooterAndClose : Status;
  RenameFile_SyncDir : Status;
  WriteHeaderAndOpen : Status;         (* with SchemaToPB *)
  ReplaceLastSegment : Status;         (* with OpenFileForRandom and Init *)
  AppendEmptySegment : Status;         (* with NewRandomAccessFile and Init *)
  new_segment_path : string;
  first_entry_offset : Z
}.

(** [Log::AsyncAllocateSegment]. *)
Definition AsyncAllocateSegment (f : RollFaults) : M unit :=
  st <- gets allocation_state_;;
  CHECK (SegmentAllocationState_eqb st kAllocationNotStarted)
        "CHECK_EQ(allocation_state_, kAllocationNotStarted)";;
  modify (set_allocation_state kAllocationInProgress);;
  emit EvAsyncAllocateSegment;;
  RETURN_NOT_OK (SubmitClosure f).

(** [Log::SegmentAllocationTask], run by the allocation pool, as the thread
    that rolls over sees it: whatever [PreAllocateNewSegment] returns, its
    scoped cleanup marks the allocation finished.  The status of the task
    is [allocation_status] of [RollFaults]; the placeholder file that the
    task leaves is written by [PreAllocateNewSegment], which is modelled in
    full further down. *)
Definition SegmentAllocationTask : M unit :=
  modify (set_allocation_state kAllocationFinished).

(** [Log::CloseCurrentSegment]. *)
Definition CloseCurrentSegment (f : RollFaults) : M unit :=
  emit EvWriteFooterAndClose;;
  RETURN_NOT_OK (WriteFooterAndClose f);;
  modify (fun l =>
    let seg := active_segment_ l in
    set_active_segment
      {| ws_path := ws_path seg; ws_sequence_number := ws_sequence_number seg;
       Size := Size seg;
         written_offset := written_offset seg;
         synced_offset := synced_offset seg;
         IsClosed := true; ws_footer := Some (footer_builder_ l) |} l).

(** [LogReader::ReplaceLastSegment], on the list of segments. *)
Definition replace_last (seg : ReadableLogSegment) (segs : SegmentSequence)
  : SegmentSequence :=
  removelast segs ++ [seg].

(** [Log::ReplaceSegmentInReaderUnlocked]. *)
Definition ReplaceSegmentInReaderUnlocked (f : RollFaults) : M unit :=
  seg <- gets active_segment_;;
  CHECK (IsClosed seg) "CHECK(active_segment_->IsClosed())";;
  RETURN_NOT_OK (ReplaceLastSegment f);;
  modify (fun l =>
    set_reader
      {| segments_ :=
           replace_last {| sequence_number := ws_sequence_number seg;
                           path := ws_path seg;
                           file_size := Size seg; footer_ := ws_footer seg |}
                        (segments_ (reader_ l));
         last_segment_offset := last_segment_offset (reader_ l) |} l).

(** [Log::SwitchToAllocatedSegment]; the old segment's readable twin is
    replaced under [CHECK_OK]. *)
Definition SwitchToAllocatedSegment (f : RollFaults) : M unit :=
  st <- gets allocation_state_;;
  CHECK (SegmentAllocationState_eqb st kAllocationFinished)
        "CHECK_EQ(allocation_state(), kAllocationFinished)";;
  old_seqno <- gets active_segment_sequence_number_;;
  modify (set_active_segment_sequence_number (old_seqno + 1));;
  emit (EvSwitchToAllocatedSegment (old_seqno + 1));;
  RETURN_NOT_OK (RenameFile_SyncDir f);;
  opts <- gets options_;;
  modify (set_footer_builder
            {| num_entries := 0;
               has_min_replicate_index := false;
               min_replicate_index := footer_index_default opts;
               has_max_replicate_index := false;
               max_replicate_index := footer_index_default opts |});;
  RETURN_NOT_OK (WriteHeaderAndOpen f);;
  CHECK_OK (ReplaceSegmentInReaderUnlocked f)
           "CHECK_OK(ReplaceSegmentInReaderUnlocked())";;
  RETURN_NOT_OK (AppendEmptySegment f);;
  modify (fun l =>
    set_reader
      {| segments_ :=
           segments_ (reader_ l) ++
           [{| sequence_number := old_seqno + 1; path := new_segment_path f;
               file_size := first_entry_offset f; footer_ := None |}];
         last_segment_offset := first_entry_offset f |} l);;
  modify (set_active_segment
            {| ws_path := new_segment_path f;
               ws_sequence_number := old_seqno + 1;
               Size := first_entry_offset f;
               written_offset := first_entry_offset f;
               synced_offset := 0;
               IsClosed := false; ws_footer := None |});;
  modify (set_allocation_state kAllocationNotStarted).

(** [Log::RollOver].  [allocation_status_.Get()] returns once the allocation
    task has run, so the allocation is finished from there on. *)
Definition RollOver (f : RollFaults) : M unit :=
  SegmentAllocationTask;;
  RETURN_NOT_OK (allocation_status f);;
  Sync (roll_sync f);;
  CloseCurrentSegment f;;
  SwitchToAllocatedSegment f.

(** ** DoAppend *)

(** Statuses and results of what one [DoAppend] calls.  [inject_io_error]
    says whether [MAYBE_RETURN_FAILURE] fires; [frame_size] is the number of
    bytes [WriteEntryBatch] puts in the file for the batch. *)
Record AppendFaults := {
  inject_io_error : bool;
  roll : RollFaults;
  WriteEntryBatch : Status;
  frame_size : Z;
  PostAppend : Status;
  AddEntry : LogIndexEntry -> Status
}.

(** [Log::UpdateIndexForBatch]. *)
Fixpoint add_index_entries (f : AppendFaults) (entries : list LogEntryPB)
         (start_offset : Z) : M unit :=
  match entries with
  | [] => ret tt
  | entry_pb :: rest =>
      seqno <- gets active_segment_sequence_number_;;
      let index_entry :=
        {| op_id := replicate_id entry_pb;
           segment_sequence_number := seqno;
           offset_in_segment := start_offset |} in
      RETURN_NOT_OK (AddEntry f index_entry);;
      emit (EvAddIndexEntry index_entry);;
      modify (fun l =>
        set_log_index
          {| index_entries := index_entries (log_index_ l) ++ [index_entry];
             index_gc_bound := index_gc_bound (log_index_ l) |} l);;
      add_index_entries f rest start_offset
  end.

Definition UpdateIndexForBatch (f : AppendFaults) (batch : LogEntryBatch)
           (start_offset : Z) : M unit :=
  if negb (LogEntryTypePB_eqb (type_ batch) REPLICATE) then ret tt
  else add_index_entries f (entry (entry_batch_pb_ batch)) start_offset.

(** Modelled from the spec: [UpdateFooterForReplicateEntry] is in
    log_util.cc, which is not among the sources; section 4.7 has the footer
    accumulate the smallest and the largest replicate index. *)
Definition UpdateFooterForReplicateEntry (entry_pb : LogEntryPB)
           (footer : LogSegmentFooterPB) : LogSegmentFooterPB :=
  let idx := index (replicate_id entry_pb) in
  {| num_entries := num_entries footer;
     has_min_replicate_index := true;
     min_replicate_index :=
       if negb (has_min_replicate_index footer) || (idx <? min_replicate_index footer)
       then idx else min_replicate_index footer;
     has_max_replicate_index := true;
     max_replicate_index :=
       if negb (has_max_replicate_index footer) || (idx >? max_replicate_index footer)
       then idx else max_replicate_index footer |}.

(** [Log::UpdateFooterForBatch]. *)
Definition UpdateFooterForBatch (batch : LogEntryBatch) : M unit :=
  modify (fun l =>
    let fb := footer_builder_ l in
    let fb1 :=
      {| num_entries := num_entries fb + count_ batch;
         has_min_replicate_index := has_min_replicate_index fb;
         min_replicate_index := min_replicate_index fb;
         has_max_replicate_index := has_max_replicate_index fb;
         max_replicate_index := max_replicate_index fb |} in
    set_footer_builder
      (if LogEntryTypePB_eqb (type_ batch) REPLICATE
       then fold_left (fun ft e => UpdateFooterForReplicateEntry e ft)
                      (entry (entry_batch_pb_ batch)) fb1
       else fb1) l).

Definition advance_written (n : Z) (l : Log) : Log :=
  let seg := active_segment_ l in
  set_active_segment
    {| ws_path := ws_path seg; ws_sequence_number := ws_sequence_number seg;
       Size := Size seg + n;
       written_offset := written_offset seg + n;
       synced_offset := synced_offset seg;
       IsClosed := IsClosed seg; ws_footer := ws_footer seg |} l.

(** [Log::DoAppend]. *)
Definition DoAppend (f : AppendFaults) (entry_batch : LogEntryBatch) : M unit :=
  if inject_io_error f
  then fail (Error kIOError "Injected IOError in Log::DoAppend()")
  else
    let entry_batch_bytes := total_size_bytes_ entry_batch in
    (* If there is no data to write return OK. *)
    if entry_batch_bytes =? 0 then ret tt
    else
      (* We keep track of the last-written OpId here. *)
      (if LogEntryTypePB_eqb (type_ entry_batch) REPLICATE
       then modify (set_last_entry_op_id (Some (MaxReplicateOpId entry_batch)));;
            emit (EvSetLastEntryOpId (MaxReplicateOpId entry_batch))
       else ret tt);;
      (* if the size of this entry overflows the current segment, get a new one *)
      st <- gets allocation_state_;;
      match st with
      | kAllocationNotStarted =>
          seg <- gets active_segment_;;
          opts <- gets options_;;
          if Size seg + entry_batch_bytes + 4 >? max_segment_size_ opts
          then AsyncAllocateSegment (roll f);;
               if negb (async_preallocate_segments opts)
               then RollOver (roll f)
               else ret tt
          else ret tt
      | kAllocationFinished => RollOver (roll f)
      | kAllocationInProgress => ret tt
      end;;
      start_offset <- gets (fun l => written_offset (active_segment_ l));;
      emit (EvWriteEntryBatch entry_batch);;
      RETURN_NOT_OK (WriteEntryBatch f);;
      modify (advance_written (frame_size f));;
      (* Update the reader on how far it can read the active segment. *)
      off <- gets (fun l => written_offset (active_segment_ l));;
      modify (fun l =>
        set_reader {| segments_ := segments_ (reader_ l);
                      last_segment_offset := off |} l);;
      emit (EvUpdateLastSegmentOffset off);;
      RETURN_NOT_OK_PREPEND (PostAppend f) "PostAppend hook failed";;
      CHECK_OK (UpdateIndexForBatch f entry_batch start_offset)
               "CHECK_OK(UpdateIndexForBatch(*entry_batch, start_offset))";;
      UpdateFooterForBatch entry_batch.

(** [Log::GetLatestEntryOpId]; the result is what is copied to [*op_id]. *)
Definition GetLatestEntryOpId (l : Log) : OpId :=
  match last_entry_op_id_ l with
  | Some id => id
  | None => MinimumOpId
  end.

(** [Log::Append], the synchronous path used by tests and bootstrap. *)
Definition Append (f : AppendFaults) (sf : SyncFaults) (e : LogEntryPB)
           (byte_size : Z) : M unit :=
  let entry_batch :=
    with_state kEntryReady
      (new_LogEntryBatch (entry_type e) {| entry := [e]; ByteSize := byte_size |} 1) in
  DoAppend f entry_batch;;
  Sync sf.

(** ** The entry queue and Reserve *)

(** [Log::kLogShutdownStatus]. *)
Definition kLogShutdownStatus : Status :=
  Error kServiceUnavailable "WAL is shutting down".

(** Modelled from the spec: [BlockingQueue::BlockingPut] is in
    util/blocking_queue.h, which is not among the sources.  Section 4.6: the
    queue is bounded by bytes, a put into a queue over budget blocks, and a
    put into a queue that was shut down is refused (it returns false and
    leaves the queue as it was). *)
Definition BlockingPut (b : LogEntryBatch) : M bool :=
  q <- gets entry_batch_queue_;;
  if shutdown_ q then ret false
  else if max_size_ q <=? size_ q then block
  else
    modify (set_entry_batch_queue
              {| list_ := list_ q ++ [b]; shutdown_ := shutdown_ q;
                 size_ := size_ q + total_size_bytes_ b;
                 max_size_ := max_size_ q |});;
    ret true.

(** Modelled from the spec: [BlockingQueue::BlockingDrainTo] (same header).
    Section 4.7: the drain takes everything that is queued; it blocks on an
    empty open queue, and on a closed queue it returns false together with
    what was left. *)
Definition BlockingDrainTo : M (list LogEntryBatch * bool) :=
  q <- gets entry_batch_queue_;;
  match list_ q with
  | [] => if shutdown_ q then ret ([], false) else block
  | batches =>
      modify (set_entry_batch_queue
                {| list_ := []; shutdown_ := shutdown_ q;
                   size_ := 0; max_size_ := max_size_ q |});;
      ret (batches, negb (shutdown_ q))
  end.

(** [BlockingQueue::Shutdown], called by [AppendThread::Shutdown]. *)
Definition Shutdown : M unit :=
  modify (fun l =>
    let q := entry_batch_queue_ l in
    set_entry_batch_queue
      {| list_ := list_ q; shutdown_ := true;
         size_ := size_ q; max_size_ := max_size_ q |} l).

(** [Log::Reserve].  The result is the batch handed back through
    [*reserved_entry]; on the shutdown path nothing is handed back and the
    [gscoped_ptr] frees the batch. *)
Definition Reserve (type : LogEntryTypePB) (entry_batch : LogEntryBatchPB)
  : M LogEntryBatch :=
  st <- gets log_state_;;
  CHECK (LogState_eqb kLogWriting st) "CHECK_EQ(kLogWriting, log_state_)";;
  let num_ops := Z.of_nat (List.length (entry entry_batch)) in
  let new_entry_batch := MarkReserved (new_LogEntryBatch type entry_batch num_ops) in
  put <- BlockingPut new_entry_batch;;
  if negb put then fail kLogShutdownStatus
  else ret new_entry_batch.

(** ** The appender thread *)

(** The faults of one pass of the appender's loop: those of the [DoAppend] of
    the batch at each position of the drained vector, and those of the
    [Sync] that follows. *)
Record DrainFaults := {
  append_faults : nat -> AppendFaults;
  group_sync : SyncFaults
}.

Definition run_callback (i : nat) (b : LogEntryBatch) (s : Status) : M unit :=
  match callback_ b with
  | Some c => emit (EvCallbackRun i c s)
  | None => ret tt
  end.

(** The first [for] loop of [RunThread]; [i] is the position of the head of
    [entry_batches] in the drained vector.  It returns the batches as the
    loop leaves them and the final [is_all_commits]. *)
Fixpoint append_all (f : DrainFaults) (i : nat) (entry_batches : list LogEntryBatch)
         (is_all_commits : bool) : M (list LogEntryBatch * bool) :=
  match entry_batches with
  | [] => ret ([], is_all_commits)
  | entry_batch :: rest =>
      emit (EvAppendAttempt i);;
      s <- status_of (DoAppend (append_faults f i) entry_batch);;
      emit (EvAppendReturned i s);;
      entry_batch' <-
        (if negb (ok s)
         then emit (EvSetFailedToAppend i);;
              run_callback i entry_batch s;;
              ret (set_failed_to_append entry_batch)
         else ret entry_batch);;
      let is_all_commits' :=
        if is_all_commits && negb (LogEntryTypePB_eqb (type_ entry_batch) COMMIT)
        then false else is_all_commits in
      r <- append_all f (S i) rest is_all_commits';;
      ret (entry_batch' :: fst r, snd r)
  end.

(** The loop that runs when the group sync failed. *)
Fixpoint notify_sync_failure (i : nat) (entry_batches : list LogEntryBatch)
         (s : Status) : M unit :=
  match entry_batches with
  | [] => ret tt
  | entry_batch :: rest =>
      run_callback i entry_batch s;;
      notify_sync_failure (S i) rest s
  end.

(** The loop that runs when the group is synced. *)
Fixpoint notify_success (i : nat) (entry_batches : list LogEntryBatch) : M unit :=
  match entry_batches with
  | [] => ret tt
  | entry_batch :: rest =>
      (if negb (failed_to_append_ entry_batch)
       then run_callback i entry_batch OK
       else ret tt);;
      emit (EvDeleteBatch i);;
      notify_success (S i) rest
  end.

(** What [ElementDeleter] frees when it goes out of scope. *)
Fixpoint delete_batches (i : nat) (entry_batches : list LogEntryBatch) : M unit :=
  match entry_batches with
  | [] => ret tt
  | _ :: rest => emit (EvDeleteBatch i);; delete_batches (S i) rest
  end.

(** One pass of the [while] loop of [Log::AppendThread::RunThread] over the
    vector [entry_batches] that was drained, each batch being ready. *)
Definition RunThread_group (f : DrainFaults) (entry_batches : list LogEntryBatch)
  : M unit :=
  r <- append_all f 0%nat entry_batches true;;
  let batches := fst r in
  let is_all_commits := snd r in
  s <- (if negb is_all_commits
        then emit EvGroupSync;;
             s <- status_of (Sync (group_sync f));;
             emit (EvGroupSyncReturned s);;
             ret s
        else ret OK);;
  if negb (ok s)
  then notify_sync_failure 0%nat batches s;;
       delete_batches 0%nat batches
  else notify_success 0%nat batches.

(** The whole loop, with one record of faults per pass; [fuel] bounds the
    number of passes looked at.  The result is [true] when the thread left
    the loop. *)
Fixpoint RunThread (fuel : nat) (faults : nat -> DrainFaults) (pass : nat) : M bool :=
  match fuel with
  | O => ret false
  | S fuel' =>
      d <- BlockingDrainTo;;
      let shutting_down := negb (snd d) in
      RunThread_group (faults pass) (fst d);;
      if shutting_down then ret true
      else RunThread fuel' faults (S pass)
  end.

(** ** The replica side of UpdateConsensus

    [RaftConsensus::Update] and the replica state it works on are in
    consensus/raft_consensus.cc, which is not among the sources; only its
    integration tests are.  The definitions of this part follow section 4.10
    of the specification, read together with the requests that
    raft_consensus-itest.cc pushes and the answers it asserts:
    - a preceding id matches when the replica holds that op, which need not
      be the last one it received (TestReplaceOperationStuckInPrepareQueue
      replaces 2.4 after the preceding id 2.3);
    - ops at the front of [ops[]] that the replica already holds are skipped
      (TestLMPMismatchOnRestartedReplica sends 2.1 on top of the committed
      index 1, TestReplicaBehaviorViaRPC sends 2.3 again);
    - the commit index only grows, and not beyond the last op of the request
      (TestReplicaBehaviorViaRPC, KUDU-639). *)

Definition Z_to_string (z : Z) : string :=
  DecimalString.NilZero.string_of_int (Z.to_int z).

(** [OpIdToString], as the tests print and compare ids: term.index. *)
Definition OpIdToString (id : OpId) : string :=
  (Z_to_string (term id) ++ "." ++ Z_to_string (index id))%string.

Inductive ConsensusErrorCode :=
| INVALID_TERM | PRECEDING_ENTRY_DIDNT_MATCH | CAS_FAILED | CANNOT_PREPARE.

Record ConsensusRequestPB := {
  caller_term : Z;
  preceding_id : OpId;
  ops : list OpId;
  committed_index : Z
}.

(** [resp.status()]. *)
Record ConsensusStatusPB := {
  last_received : OpId;
  last_received_current_leader : OpId;
  last_committed_idx : Z;
  status_error : option ConsensusErrorCode
}.

(** The response: [resp.error()] is the error of the call itself,
    [resp.status()] the consensus status of the replica. *)
Record ConsensusResponsePB := {
  resp_error : option Status;
  resp_status : ConsensusStatusPB
}.

(** Modelled from the spec: the state of a replica (raft_consensus.cc and
    raft_consensus_state.cc are missing).  [received] holds the ids of the
    operations the replica has, oldest first; [cur_leader_received] is the
    last op received from the leader of the current term, (0,0) if none;
    [wal_committed_idx] is the committed index whose COMMIT record has
    reached the WAL, which is what a restart finds. *)
Record ReplicaState := {
  current_term : Z;
  received : list OpId;
  cur_leader_received : OpId;
  committed_idx : Z;
  wal_committed_idx : Z
}.

(** The replica's last-received OpId. *)
Definition GetLastReceivedOpId (s : ReplicaState) : OpId :=
  last (received s) MinimumOpId.

Definition index_error_text : string :=
  "New operation's index does not follow the previous op's index".
Definition term_error_text : string :=
  "New operation's term is not >= than the previous op's term".

(** The tail of both messages, as the assertions of
    TestReplicaBehaviorViaRPC spell it. *)
Definition current_previous_text (current previous : OpId) : string :=
  (". Current: " ++ OpIdToString current ++ ". Previous: "
     ++ OpIdToString previous)%string.

Definition index_error (previous current : OpId) : Status :=
  Error kInvalidArgument
        (index_error_text ++ current_previous_text current previous)%string.

Definition term_error (previous current : OpId) : Status :=
  Error kInvalidArgument
        (term_error_text ++ current_previous_text current previous)%string.

(** Modelled from the spec: the check of one op against its predecessor
    (section 4.10, step 3): the index must be exactly previous+1 and the
    term at least the previous term.  The specification does not say which
    rule is tested first, and the function is missing: [index_first] is that
    order, and it matters only for an op that breaks both rules. *)
Definition CheckOpInSequence (index_first : bool) (previous current : OpId) : Status :=
  let bad_index := negb (index current =? index previous + 1) in
  let bad_term := term current <? term previous in
  if index_first
  then if bad_index then index_error previous current
       else if bad_term then term_error previous current
       else OK
  else if bad_term then term_error previous current
       else if bad_index then index_error previous current
       else OK.

(** Modelled from the spec: step 3 over the ops that are checked; the first
    op that breaks a rule decides the status. *)
Fixpoint CheckOpsInSequence (index_first : bool) (previous : OpId)
         (operations : list OpId) : Status :=
  match operations with
  | [] => OK
  | current :: rest =>
      match CheckOpInSequence index_first previous current with
      | OK => CheckOpsInSequence index_first current rest
      | e => e
      end
  end.

Definition with_term (t : Z) (s : ReplicaState) : ReplicaState :=
  {| current_term := t; received := received s;
     cur_leader_received := MinimumOpId;
     committed_idx := committed_idx s;
     wal_committed_idx := wal_committed_idx s |}.

Definition with_received (ids : list OpId) (s : ReplicaState) : ReplicaState :=
  {| current_term := current_term s; received := ids;
     cur_leader_received := cur_leader_received s;
     committed_idx := committed_idx s;
     wal_committed_idx := wal_committed_idx s |}.

Definition with_cur_leader_received (id : OpId) (s : ReplicaState) : ReplicaState :=
  {| current_term := current_term s; received := received s;
     cur_leader_received := id;
     committed_idx := committed_idx s;
     wal_committed_idx := wal_committed_idx s |}.

Definition with_committed_idx (c : Z) (s : ReplicaState) : ReplicaState :=
  {| current_term := current_term s; received := received s;
     cur_leader_received := cur_leader_received s;
     committed_idx := c;
     wal_committed_idx := wal_committed_idx s |}.

(** Modelled from the spec: a request of a later term moves the replica to
    that term, in which it has received nothing yet. *)
Definition adopt_term (t : Z) (s : ReplicaState) : ReplicaState :=
  if current_term s <? t then with_term t s else s.

(** Modelled from the spec: the replica holds an op when the op is at or
    below its committed index (what is committed is identified by its index)
    or is one of the ops it has received.  The preceding id of a request
    matches when the replica holds it (step 2, as the tests exercise it). *)
Definition replica_holds (s : ReplicaState) (id : OpId) : bool :=
  (index id <=? committed_idx s) || existsb (OpIdEquals id) (received s).

(** Modelled from the spec: the ops at the front of [ops[]] that the replica
    holds are not taken again.  The result is the predecessor of the first
    op that is left (the last op skipped, or [previous] when none is) and
    the ops that are left. *)
Fixpoint skip_held (s : ReplicaState) (previous : OpId) (operations : list OpId)
  : OpId * list OpId :=
  match operations with
  | [] => (previous, [])
  | current :: rest =>
      if replica_holds s current then skip_held s current rest
      else (previous, operations)
  end.

(** Modelled from the spec: on a mismatch the op the replica holds at the
    index of the preceding id, when its term differs, is divergent; it is
    truncated with what follows it (section 8, scenario 4).  What is at or
    below the committed index stays. *)
Definition truncate_divergent (preceding : OpId) (s : ReplicaState) : list OpId :=
  if existsb (fun o => (index o =? index preceding)
                       && negb (term o =? term preceding)) (received s)
  then filter (fun o => (index o <? index preceding)
                        || (index o <=? committed_idx s)) (received s)
  else received s.

(** Modelled from the spec: steps 4 and 5, when the request brings ops the
    replica does not hold, what it has after their predecessor is dropped
    and the new ops take its place. *)
Definition replace_after (previous : OpId) (operations ids : list OpId) : list OpId :=
  match operations with
  | [] => ids
  | _ :: _ => filter (fun o => index o <=? index previous) ids ++ operations
  end.

Definition respond (s : ReplicaState) (code : option ConsensusErrorCode)
           (err : option Status) : ConsensusResponsePB :=
  {| resp_error := err;
     resp_status :=
       {| last_received := GetLastReceivedOpId s;
          last_received_current_leader := cur_leader_received s;
          last_committed_idx := committed_idx s;
          status_error := code |} |}.

Definition soft_limit_status : Status :=
  Error kServiceUnavailable "Soft memory limit exceeded".

(** Modelled from the spec: step 6.  The commit index moves up to the
    committed index of the request, but not beyond [last_from_leader], the
    last op of the request that the replica now holds, and it never moves
    down. *)
Definition advance_commit (req : ConsensusRequestPB) (last_from_leader : OpId)
           (s : ReplicaState) : ReplicaState :=
  with_committed_idx
    (Z.max (committed_idx s)
           (Z.min (committed_index req) (index last_from_leader))) s.

(** Modelled from the spec: [RaftConsensus::Update] on a replica
    (raft_consensus.cc is missing), steps 1 to 7 of section 4.10 and its
    memory pressure policy, with the match of step 2, the skipping of the
    ops already held and the bound of step 6 as raft_consensus-itest.cc
    exercises them.  [index_first] is the order of the two tests of step 3,
    and [over_memory_limit] says whether admitting the ops would exceed the
    limit. *)
Definition UpdateConsensus (index_first over_memory_limit : bool) (s : ReplicaState)
           (req : ConsensusRequestPB) : ReplicaState * ConsensusResponsePB :=
  (* 1. term check *)
  if caller_term req <? current_term s
  then (s, respond s (Some INVALID_TERM) None)
  else
    let s1 := adopt_term (caller_term req) s in
    (* 2. leader preceding-op match *)
    if negb (replica_holds s1 (preceding_id req))
    then
      let s2 := with_received (truncate_divergent (preceding_id req) s1) s1 in
      (s2, respond s2 (Some PRECEDING_ENTRY_DIDNT_MATCH) None)
    else
      let skipped := skip_held s1 (preceding_id req) (ops req) in
      let previous := fst skipped in
      let operations := snd skipped in
      (* 3. intra-batch monotonicity *)
      match CheckOpsInSequence index_first previous operations with
      | Error c m => (s1, respond s1 None (Some (Error c m)))
      | OK =>
          if over_memory_limit
          then
            let s2 := advance_commit req previous s1 in
            (s2, respond s2 None (Some soft_limit_status))
          else
            (* 4 and 5. replace what follows the predecessor, take the ops *)
            let s2 := with_received
                        (replace_after previous operations (received s1)) s1 in
            let s3 := match operations with
                      | [] => s2
                      | _ :: _ => with_cur_leader_received (last operations previous) s2
                      end in
            (* 6. commit advancement *)
            let s4 := advance_commit req (last operations previous) s3 in
            (* 7. respond with the in-memory status *)
            (s4, respond s4 None None)
      end.

(** Modelled from the spec: the COMMIT records reach the WAL some time after
    the commit index moved. *)
Definition commit_recorded (s : ReplicaState) : ReplicaState :=
  {| current_term := current_term s; received := received s;
     cur_leader_received := cur_leader_received s;
     committed_idx := committed_idx s;
     wal_committed_idx := committed_idx s |}.

(** Modelled from the spec: a restart keeps what is persisted (the term, the
    operations in the WAL and the committed index recorded there) and
    forgets what was received from the current leader. *)
Definition restart (s : ReplicaState) : ReplicaState :=
  {| current_term := current_term s; received := received s;
     cur_leader_received := MinimumOpId;
     committed_idx := wal_committed_idx s;
     wal_committed_idx := wal_committed_idx s |}.

(** A request is accepted when the response carries no error. *)
Definition accepted (resp : ConsensusResponsePB) : bool :=
  match resp_error resp, status_error (resp_status resp) with
  | None, None => true
  | _, _ => false
  end.

(** The replica is in order when its committed index and the indexes of its
    ops are at most the index of its last-received op. *)
Definition in_order (s : ReplicaState) : bool :=
  (committed_idx s <=? index (GetLastReceivedOpId s))
  && forallb (fun o => index o <=? index (GetLastReceivedOpId s)) (received s).

(** * What is observed of a run, and example data *)

(** The events a call added to the trace. *)
Definition new_events (l l' : Log) : list Event :=
  skipn (List.length (trace_ l)) (trace_ l').

Definition is_appender_event (e : Event) : bool :=
  match e with
  | EvAppendAttempt _ | EvAppendReturned _ _ | EvSetFailedToAppend _
  | EvGroupSync | EvGroupSyncReturned _ | EvCallbackRun _ _ _
  | EvDeleteBatch _ => true
  | _ => false
  end.

(** The events of the appender thread among those a call added. *)
Definition appender_events (l l' : Log) : list Event :=
  filter is_appender_event (new_events l l').

(** A computation is [quiet] when it only adds events, none of them an event
    of the appender thread. *)
Definition quiet {A} (c : M A) : Prop :=
  forall l r l', c l = (r, l') ->
    exists evs, trace_ l' = trace_ l ++ evs /\ filter is_appender_event evs = [].

Definition is_commit_batch (b : LogEntryBatch) : bool :=
  LogEntryTypePB_eqb (type_ b) COMMIT.

Definition callback_view (i : nat) (b : LogEntryBatch) (s : Status) : list Event :=
  match callback_ b with
  | Some c => [EvCallbackRun i c s]
  | None => []
  end.

(** The appender's events of the first loop, given the statuses [ss] that
    the calls of [DoAppend] came back with. *)
Fixpoint append_view (i : nat) (bs : list LogEntryBatch) (ss : list Status)
  : list Event :=
  match bs, ss with
  | b :: bs', s :: ss' =>
      EvAppendAttempt i :: EvAppendReturned i s ::
      (if ok s then [] else EvSetFailedToAppend i :: callback_view i b s)
      ++ append_view (S i) bs' ss'
  | _, _ => []
  end.

Fixpoint mark_failed (bs : list LogEntryBatch) (ss : list Status)
  : list LogEntryBatch :=
  match bs, ss with
  | b :: bs', s :: ss' =>
      (if ok s then b else set_failed_to_append b) :: mark_failed bs' ss'
  | _, _ => []
  end.

Fixpoint failure_view (i : nat) (bs : list LogEntryBatch) (s : Status) : list Event :=
  match bs with
  | [] => []
  | b :: bs' => callback_view i b s ++ failure_view (S i) bs' s
  end.

Fixpoint success_view (i : nat) (bs : list LogEntryBatch) : list Event :=
  match bs with
  | [] => []
  | b :: bs' =>
      (if failed_to_append_ b then [] else callback_view i b OK)
      ++ EvDeleteBatch i :: success_view (S i) bs'
  end.

Fixpoint delete_view (i : nat) (bs : list LogEntryBatch) : list Event :=
  match bs with
  | [] => []
  | _ :: bs' => EvDeleteBatch i :: delete_view (S i) bs'
  end.

(** The appender's events of a whole pass: [ss] are the statuses of the
    appends and [sy] the status of the group sync when one is issued. *)
Definition group_view (bs : list LogEntryBatch) (ss : list Status) (sy : Status)
  : list Event :=
  append_view 0 bs ss
  ++ (if forallb is_commit_batch bs then []
      else [EvGroupSync; EvGroupSyncReturned sy])
  ++ (if forallb is_commit_batch bs || ok sy
      then success_view 0 (mark_failed bs ss)
      else failure_view 0 (mark_failed bs ss) sy
           ++ delete_view 0 (mark_failed bs ss)).

(** The events of the two phases of a pass. *)
Definition append_phase (e : Event) : bool :=
  match e with
  | EvAppendAttempt _ | EvAppendReturned _ _ | EvSetFailedToAppend _
  | EvCallbackRun _ _ _ => true
  | _ => false
  end.

Definition notify_phase (e : Event) : bool :=
  match e with
  | EvCallbackRun _ _ _ | EvDeleteBatch _ => true
  | _ => false
  end.

Definition is_group_sync (e : Event) : bool :=
  match e with EvGroupSync => true | _ => false end.

(** The number of times the appender called [Sync] for the group. *)
Definition group_syncs (l l' : Log) : nat :=
  List.length (filter is_group_sync (new_events l l')).

(** The statuses the callback of the batch at position [i] was run with, in
    the order of the runs. *)
Definition callback_runs (i : nat) (evs : list Event) : list Status :=
  flat_map (fun e => match e with
                     | EvCallbackRun j _ s => if Nat.eqb j i then [s] else []
                     | _ => []
                     end) evs.

(** A computation is [stable] for a relation when the log it leaves is
    related to the log it started from, whatever the outcome. *)
Definition stable_for (R : Log -> Log -> Prop) {A} (c : M A) : Prop :=
  forall l r l', c l = (r, l') -> R l l'.

(** Nothing but the first step of [DoAppend] writes [last_entry_op_id_]. *)
Definition same_last_entry_op_id (l l' : Log) : Prop :=
  last_entry_op_id_ l' = last_entry_op_id_ l.

Definition example_options : LogOptions :=
  {| async_preallocate_segments := true; force_sync_all_ := true;
     sync_disabled_ := false; max_segment_size_ := 1000;
     footer_index_default := -1 |}.

Definition example_log : Log :=
  {| options_ := example_options;
     log_state_ := kLogWriting;
     active_segment_ :=
       {| ws_path := "wal-000000001"; ws_sequence_number := 1;
          Size := 100; written_offset := 100; synced_offset := 100;
          IsClosed := false; ws_footer := None |};
     active_segment_sequence_number_ := 1;
     footer_builder_ :=
       {| num_entries := 0; has_min_replicate_index := false;
          min_replicate_index := -1; has_max_replicate_index := false;
          max_replicate_index := -1 |};
     reader_ :=
       {| segments_ := [{| sequence_number := 1; path := "wal-000000001";
                           file_size := 100; footer_ := None |}];
          last_segment_offset := 100 |};
     log_index_ := {| index_entries := []; index_gc_bound := None |};
     last_entry_op_id_ := None;
     allocation_state_ := kAllocationNotStarted;
     entry_batch_queue_ :=
       {| list_ := []; shutdown_ := false; size_ := 0; max_size_ := 4194304 |};
     next_segment_path_ := ".tmp.newsegment000001";
     next_segment_file_ := Some ".tmp.newsegment000001";
     log_index_held := true;
     reader_held := true;
     files_ := ["wal-000000001"];
     trace_ := [] |}.

Definition no_sync_faults : SyncFaults :=
  {| segment_Sync := OK; PostSyncIfFsyncEnabled := OK; PostSync := OK |}.

Definition no_roll_faults : RollFaults :=
  {| SubmitClosure := OK; allocation_status := OK; roll_sync := no_sync_faults;
     WriteFooterAndClose := OK; RenameFile_SyncDir := OK;
     WriteHeaderAndOpen := OK; ReplaceLastSegment := OK;
     AppendEmptySegment := OK;
     new_segment_path := "wal-000000002"; first_entry_offset := 60 |}.

Definition no_append_faults : AppendFaults :=
  {| inject_io_error := false; roll := no_roll_faults; WriteEntryBatch := OK;
     frame_size := 40; PostAppend := OK; AddEntry := fun _ => OK |}.

Definition injected_append_fault : AppendFaults :=
  {| inject_io_error := true; roll := no_roll_faults; WriteEntryBatch := OK;
     frame_size := 40; PostAppend := OK; AddEntry := fun _ => OK |}.

Definition failing_sync : SyncFaults :=
  {| segment_Sync := Error kIOError "fsync failed";
     PostSyncIfFsyncEnabled := OK; PostSync := OK |}.

(** A ready REPLICATE batch with the single op [id] and callback [c]. *)
Definition replicate_batch (id : OpId) (c : nat) : LogEntryBatch :=
  set_callback (Some c)
    (with_state kEntryReady
       (new_LogEntryBatch REPLICATE
          {| entry := [{| entry_type := REPLICATE; replicate_id := id |}];
             ByteSize := 32 |} 1)).

(** A ready COMMIT batch with callback [c]. *)
Definition commit_batch (id : OpId) (c : nat) : LogEntryBatch :=
  set_callback (Some c)
    (with_state kEntryReady
       (new_LogEntryBatch COMMIT
          {| entry := [{| entry_type := COMMIT; replicate_id := id |}];
             ByteSize := 16 |} 1)).

Definition footer_upto (lo hi : Z) : option LogSegmentFooterPB :=
  Some {| num_entries := hi - lo + 1;
          has_min_replicate_index := true; min_replicate_index := lo;
          has_max_replicate_index := true; max_replicate_index := hi |}.

(** The five segments of scenario 3 of section 8: ops 1..50, 51..100,
    101..150, 151..200, and the active segment. *)
Definition scenario_segments : SegmentSequence :=
  [ {| sequence_number := 1; path := "wal-000000001"; file_size := 1000;
       footer_ := footer_upto 1 50 |};
    {| sequence_number := 2; path := "wal-000000002"; file_size := 1000;
       footer_ := footer_upto 51 100 |};
    {| sequence_number := 3; path := "wal-000000003"; file_size := 1000;
       footer_ := footer_upto 101 150 |};
    {| sequence_number := 4; path := "wal-000000004"; file_size := 1000;
       footer_ := footer_upto 151 200 |};
    {| sequence_number := 5; path := "wal-000000005"; file_size := 400;
       footer_ := None |} ].

Definition scenario_flags : Flags :=
  {| FLAGS_log_min_segments_to_retain := 1;
     FLAGS_log_max_segments_to_retain := 10 |}.

(** A group of three batches: a REPLICATE whose append fails by an injected
    error, a COMMIT and a REPLICATE that go through; the sync of the group
    fails. *)
Definition example_group : list LogEntryBatch :=
  [ replicate_batch (MakeOpId 2 7) 10;
    commit_batch (MakeOpId 2 6) 11;
    replicate_batch (MakeOpId 2 8) 12 ].

Definition example_drain_faults : DrainFaults :=
  {| append_faults := fun i => match i with
                               | O => injected_append_fault
                               | _ => no_append_faults
                               end;
     group_sync := failing_sync |}.

Definition example_log_after : Log :=
  snd (RunThread_group example_drain_faults example_group example_log).

Definition injected_status : Status :=
  Error kIOError "Injected IOError in Log::DoAppend()".

Definition fsync_status : Status := Error kIOError "fsync failed".

Definition example_log_appended : Log :=
  snd (DoAppend no_append_faults (replicate_batch (MakeOpId 2 7) 1) example_log).

(** The example log once [AppendThread::Shutdown] has shut its queue down. *)
Definition example_log_shutting_down : Log := snd (Shutdown example_log).

(** The replica as SetupSingleReplicaTest leaves it: in term 1, with the
    op 1.1 of the first leader received and committed. *)
Definition replica_after_setup : ReplicaState :=
  {| current_term := 1; received := [MakeOpId 1 1];
     cur_leader_received := MakeOpId 1 1;
     committed_idx := 1; wal_committed_idx := 1 |}.

(** TestReplicaBehaviorViaRPC: the request with no ops, then the ops 2.2 to
    2.4 with the committed index left at 1. *)
Definition request_no_ops : ConsensusRequestPB :=
  {| caller_term := 2; preceding_id := MakeOpId 1 1; ops := [];
     committed_index := 1 |}.

Definition request_three_ops : ConsensusRequestPB :=
  {| caller_term := 2; preceding_id := MakeOpId 1 1;
     ops := [MakeOpId 2 2; MakeOpId 2 3; MakeOpId 2 4];
     committed_index := 1 |}.

(** The replica once it has taken these two requests. *)
Definition replica_with_three_ops : ReplicaState :=
  {| current_term := 2;
     received := [MakeOpId 1 1; MakeOpId 2 2; MakeOpId 2 3; MakeOpId 2 4];
     cur_leader_received := MakeOpId 2 4;
     committed_idx := 1; wal_committed_idx := 1 |}.

(** The two invalid requests of the test: op 2.6 after 2.4, and ops 3.5 and
    2.6 after 2.4. *)
Definition request_index_gap : ConsensusRequestPB :=
  {| caller_term := 2; preceding_id := MakeOpId 2 4; ops := [MakeOpId 2 6];
     committed_index := 1 |}.

Definition request_term_goes_back : ConsensusRequestPB :=
  {| caller_term := 2; preceding_id := MakeOpId 2 4;
     ops := [MakeOpId 3 5; MakeOpId 2 6]; committed_index := 1 |}.

(** The request of the test for KUDU-639: op 2.3 sent again after 2.2, with
    the committed index 4; and the request that follows it, the ops 2.5 and
    2.6 after 2.4. *)
Definition request_sent_again : ConsensusRequestPB :=
  {| caller_term := 2; preceding_id := MakeOpId 2 2; ops := [MakeOpId 2 3];
     committed_index := 4 |}.

Definition request_more_ops : ConsensusRequestPB :=
  {| caller_term := 2; preceding_id := MakeOpId 2 4;
     ops := [MakeOpId 2 5; MakeOpId 2 6]; committed_index := 4 |}.

(** The end of the test: the replica with the ops 2.5 and 2.6 taken and 2.4
    committed, a new leader that replaces the two ops that are not
    committed, leaving the committed index where it is, and the request with
    no ops that commits them. *)
Definition replica_with_five_ops : ReplicaState :=
  {| current_term := 2;
     received := [MakeOpId 1 1; MakeOpId 2 2; MakeOpId 2 3; MakeOpId 2 4;
                  MakeOpId 2 5; MakeOpId 2 6];
     cur_leader_received := MakeOpId 2 6;
     committed_idx := 4; wal_committed_idx := 1 |}.

Definition request_new_leader (leader_term : Z) : ConsensusRequestPB :=
  {| caller_term := leader_term; preceding_id := MakeOpId 2 4;
     ops := [MakeOpId leader_term 5; MakeOpId leader_term 6];
     committed_index := 4 |}.

Definition request_commit_replaced (leader_term : Z) : ConsensusRequestPB :=
  {| caller_term := leader_term; preceding_id := MakeOpId leader_term 6;
     ops := []; committed_index := 6 |}.

(** TestEarlyCommitDespiteMemoryPressure, with three ops in place of ten
    thousand: the ops 1.2 to 1.4 with the committed index 1, then one more
    op with the committed index 4, which arrives when the replica is over
    its memory limit. *)
Definition request_many_ops : ConsensusRequestPB :=
  {| caller_term := 1; preceding_id := MakeOpId 1 1;
     ops := [MakeOpId 1 2; MakeOpId 1 3; MakeOpId 1 4];
     committed_index := 1 |}.

Definition request_one_more_op : ConsensusRequestPB :=
  {| caller_term := 1; preceding_id := MakeOpId 1 4; ops := [MakeOpId 1 5];
     committed_index := 4 |}.

(** TestReplaceOperationStuckInPrepareQueue (scenario 5 of section 8): the
    ops 2.2 to 2.4 with the committed index 2, the request of term 3 that
    replaces 2.4 by 3.4 and adds 3.5, and the request that commits up to
    index 5. *)
Definition request_upserts : ConsensusRequestPB :=
  {| caller_term := 2; preceding_id := MakeOpId 1 1;
     ops := [MakeOpId 2 2; MakeOpId 2 3; MakeOpId 2 4];
     committed_index := 2 |}.

Definition replica_with_upserts : ReplicaState :=
  {| current_term := 2;
     received := [MakeOpId 1 1; MakeOpId 2 2; MakeOpId 2 3; MakeOpId 2 4];
     cur_leader_received := MakeOpId 2 4;
     committed_idx := 2; wal_committed_idx := 1 |}.

Definition request_replace : ConsensusRequestPB :=
  {| caller_term := 3; preceding_id := MakeOpId 2 3;
     ops := [MakeOpId 3 4; MakeOpId 3 5]; committed_index := 2 |}.

Definition request_commit_all : ConsensusRequestPB :=
  {| caller_term := 3; preceding_id := MakeOpId 3 5; ops := [];
     committed_index := 5 |}.

(** TestLMPMismatchOnRestartedReplica (scenario 4 of section 8): a request
    of term 2 with no ops and no committed index, the ops 2.1 to 2.3 with
    the committed index 2, the COMMIT of 2.2 reaching the WAL, a restart,
    and the op 3.4 pushed after 3.3. *)
Definition request_term_2 : ConsensusRequestPB :=
  {| caller_term := 2; preceding_id := MakeOpId 1 1; ops := [];
     committed_index := 0 |}.

Definition replica_in_term_2 : ReplicaState :=
  {| current_term := 2; received := [MakeOpId 1 1];
     cur_leader_received := MakeOpId 0 0;
     committed_idx := 1; wal_committed_idx := 1 |}.

Definition request_ops_from_2_1 : ConsensusRequestPB :=
  {| caller_term := 2; preceding_id := MakeOpId 1 1;
     ops := [MakeOpId 2 1; MakeOpId 2 2; MakeOpId 2 3];
     committed_index := 2 |}.

Definition replica_before_restart : ReplicaState :=
  {| current_term := 2;
     received := [MakeOpId 1 1; MakeOpId 2 2; MakeOpId 2 3];
     cur_leader_received := MakeOpId 2 3;
     committed_idx := 2; wal_committed_idx := 2 |}.

Definition request_after_restart : ConsensusRequestPB :=
  {| caller_term := 3; preceding_id := MakeOpId 3 3; ops := [MakeOpId 3 4];
     committed_index := 2 |}.

(** * More of log.cc *)

(** ** The flag validator and the size of what GC would free *)

(** [ValidateLogsToRetain], the validator of [log_min_segments_to_retain]. *)
Definition ValidateLogsToRetain (value : Z) : bool := value >=? 1.

(** The bytes of a list of segments. *)
Definition total_file_size (segs : SegmentSequence) : Z :=
  fold_right (fun seg total => file_size seg + total) 0 segs.

(** The paths of the files [GC] asked the environment to delete, in order. *)
Definition deleted_paths (evs : list Event) : list string :=
  flat_map (fun e => match e with EvDeleteFile p => [p] | _ => [] end) evs.

(** A log whose reader holds the five segments of scenario 3. *)
Definition scenario_log : Log :=
  set_reader {| segments_ := scenario_segments; last_segment_offset := 400 |}
             example_log.

Definition no_gc_faults : GCFaults :=
  {| GetSegmentsSnapshot := OK; TrimSegments_status := OK;
     DeleteFile := fun _ => OK |}.

(** The file of the second segment cannot be deleted. *)
Definition second_delete_fails : GCFaults :=
  {| GetSegmentsSnapshot := OK; TrimSegments_status := OK;
     DeleteFile := fun p => if String.eqb p "wal-000000002"
                            then Error kIOError "unlink failed" else OK |}.

(** ** What the appender frees *)

(** The positions of the batches the appender freed, in the order it freed
    them. *)
Definition deleted_batches (evs : list Event) : list nat :=
  flat_map (fun e => match e with EvDeleteBatch i => [i] | _ => [] end) evs.

(** The events that name the batch at position [i] of the drained vector. *)
Definition event_position (e : Event) : option nat :=
  match e with
  | EvAppendAttempt i | EvAppendReturned i _ | EvSetFailedToAppend i
  | EvCallbackRun i _ _ | EvDeleteBatch i => Some i
  | _ => None
  end.

(** The faults of a pass in which the first append fails by an injected
    error and the group sync succeeds, and the log after that pass over
    [example_group]. *)
Definition synced_drain_faults : DrainFaults :=
  {| append_faults := fun i => match i with
                               | O => injected_append_fault
                               | _ => no_append_faults
                               end;
     group_sync := no_sync_faults |}.

Definition example_log_synced : Log :=
  snd (RunThread_group synced_drain_faults example_group example_log).

(** ** What a call leaves as it was *)

(** The part [proj] of the log is the same after a call as before it. *)
Definition unchanged {A} (proj : Log -> A) (l l' : Log) : Prop :=
  proj l' = proj l.

(** A call did nothing but add events. *)
Definition only_adds_events (l l' : Log) : Prop :=
  exists evs, l' = set_trace (trace_ l ++ evs) l.

(** A call added events, none of which satisfies [p]. *)
Definition adds_no (p : Event -> bool) (l l' : Log) : Prop :=
  exists evs, trace_ l' = trace_ l ++ evs /\ filter p evs = [].

(** Whether [Sync] reaches the fsync of the active segment. *)
Definition fsync_enabled (l : Log) : bool :=
  force_sync_all_ (options_ l) && negb (sync_disabled_ (options_ l)).

(** ** AsyncAppend and WaitUntilAllFlushed *)

(** [LogEntryBatch::Serialize].  The buffer it fills is what
    [WriteEntryBatch] writes later; of the batch only the state changes. *)
Definition Serialize (b : LogEntryBatch) : LogEntryBatch :=
  with_state kEntrySerialized b.

(** [LogEntryBatch::MarkReady]. *)
Definition MarkReady (b : LogEntryBatch) : LogEntryBatch :=
  with_state kEntryReady b.

(** [Log::AsyncAppend].  The batch is changed in place; the result is the
    batch as the appender finds it once [WaitForReady] lets it through. *)
Definition AsyncAppend (entry_batch : LogEntryBatch) (callback : nat)
  : M LogEntryBatch :=
  st <- gets log_state_;;
  CHECK (LogState_eqb kLogWriting st) "CHECK_EQ(kLogWriting, log_state_)";;
  ret (MarkReady (set_callback (Some callback) (Serialize entry_batch))).

Definition flush_marker_entry : LogEntryPB :=
  {| entry_type := FLUSH_MARKER; replicate_id := MinimumOpId |}.

(** [Log::WaitUntilAllFlushed] up to its wait: the batch with the single
    FLUSH_MARKER entry is reserved and handed to [AsyncAppend] with the
    callback of the synchronizer.  [byte_size] is the [ByteSize] of the
    batch message.  What the wait returns is the status that callback is
    run with. *)
Definition WaitUntilAllFlushed_enqueue (byte_size : Z) (callback : nat)
  : M LogEntryBatch :=
  reserved_entry_batch <-
    Reserve FLUSH_MARKER {| entry := [flush_marker_entry]; ByteSize := byte_size |};;
  AsyncAppend reserved_entry_batch callback.

Definition is_append_returned (e : Event) : bool :=
  match e with EvAppendReturned _ _ => true | _ => false end.

(** A group of a REPLICATE batch followed by the flush marker of a
    [WaitUntilAllFlushed], and the log after a pass over it. *)
Definition flush_marker_batch : LogEntryBatch :=
  MarkReady (set_callback (Some 7%nat)
    (Serialize (MarkReserved
       (new_LogEntryBatch FLUSH_MARKER
          {| entry := [flush_marker_entry]; ByteSize := 2 |} 1)))).

Definition flush_group : list LogEntryBatch :=
  [ replicate_batch (MakeOpId 2 7) 10; flush_marker_batch ].

Definition no_drain_faults : DrainFaults :=
  {| append_faults := fun _ => no_append_faults; group_sync := no_sync_faults |}.

Definition example_log_flushed : Log :=
  snd (RunThread_group no_drain_faults flush_group example_log).

(** The index entry that [UpdateIndexForBatch] makes for an entry of a batch
    that starts at [start_offset] of the segment [seqno]. *)
Definition index_entry_of (seqno start_offset : Z) (entry_pb : LogEntryPB)
  : LogIndexEntry :=
  {| op_id := replicate_id entry_pb;
     segment_sequence_number := seqno;
     offset_in_segment := start_offset |}.

Definition is_async_allocate (e : Event) : bool :=
  match e with EvAsyncAllocateSegment => true | _ => false end.

(** A log whose active segment is nearly full: the batches of the examples
    do not fit in what is left of it. *)
Definition nearly_full_log : Log :=
  set_active_segment
    {| ws_path := "wal-000000001"; ws_sequence_number := 1;
       Size := 990; written_offset := 990; synced_offset := 990;
       IsClosed := false; ws_footer := None |} example_log.

(** ** The reader and the active segment *)

(** The reader follows the log when its last segment is the twin of the
    active segment (same sequence number and path, no footer yet), every
    segment before it has a footer, and the sequence number of the log is
    that of the active segment. *)
Definition in_step (segs : SegmentSequence) (seqno : Z) (seg : WritableLogSegment)
  : bool :=
  match rev segs with
  | [] => false
  | last_segment :: _ =>
      negb (HasFooter last_segment)
      && forallb HasFooter (removelast segs)
      && (sequence_number last_segment =? seqno)
      && String.eqb (path last_segment) (ws_path seg)
      && (ws_sequence_number seg =? seqno)
  end.

Definition reader_in_step (l : Log) : bool :=
  in_step (segments_ (reader_ l)) (active_segment_sequence_number_ l)
          (active_segment_ l).

(** The readable twin that [ReplaceSegmentInReaderUnlocked] makes of the
    segment that was closed with [footer]. *)
Definition closed_twin (seg : WritableLogSegment) (footer : LogSegmentFooterPB)
  : ReadableLogSegment :=
  {| sequence_number := ws_sequence_number seg; path := ws_path seg;
     file_size := Size seg; footer_ := Some footer |}.

(** The readable segment that [SwitchToAllocatedSegment] appends for the
    segment it has just opened. *)
Definition fresh_twin (f : RollFaults) (seqno : Z) : ReadableLogSegment :=
  {| sequence_number := seqno; path := new_segment_path f;
     file_size := first_entry_offset f; footer_ := None |}.

(** The example log once the allocation task has run. *)
Definition example_log_allocated : Log :=
  set_allocation_state kAllocationFinished example_log.

(** ** PreAllocateNewSegment *)

(** What [Log::PreAllocateNewSegment] calls and reads: the status of
    [NewTempWritableFile] and the path of the file it made, whether
    [MAYBE_RETURN_FAILURE] fires, [options_.preallocate_segments], and the
    statuses of the two calls that follow. *)
Record PreAllocateFaults := {
  NewTempWritableFile : Status;
  placeholder_path : string;
  inject_io_error_on_preallocate : bool;
  preallocate_segments : bool;
  VerifySufficientDiskSpace : Status;
  PreAllocate : Status
}.

(** [MakeScopedCleanup]: [cleanup] runs when [body] is left, by whichever
    [return]; it does not run when the process aborts. *)
Definition MakeScopedCleanup {A} (cleanup : Log -> Log) (body : M A) : M A :=
  fun l =>
    match body l with
    | (Crash w, l') => (Crash w, l')
    | (r, l') => (r, cleanup l')
    end.

(** [Log::CreatePlaceholderSegment], called with [&next_segment_path_] and
    [&next_segment_file_] as it is by [PreAllocateNewSegment]: the
    temporary file that the environment made is left in the two members.  A
    [NewTempWritableFile] that fails is taken to leave [*result_path] as it
    was. *)
Definition CreatePlaceholderSegment (f : PreAllocateFaults) : M unit :=
  RETURN_NOT_OK (NewTempWritableFile f);;
  modify (set_next_segment_path (placeholder_path f));;
  modify (set_next_segment_file (Some (placeholder_path f))).

(** [Log::PreAllocateNewSegment]. *)
Definition PreAllocateNewSegment (f : PreAllocateFaults) : M unit :=
  st <- gets allocation_state_;;
  CHECK (SegmentAllocationState_eqb st kAllocationInProgress)
        "CHECK_EQ(allocation_state(), kAllocationInProgress)";;
  (* We must mark allocation as finished when returning from this method. *)
  MakeScopedCleanup (set_allocation_state kAllocationFinished)
    (CreatePlaceholderSegment f;;
     (if inject_io_error_on_preallocate f
      then fail (Error kIOError "Injected IOError in Log::PreAllocateNewSegment()")
      else ret tt);;
     if preallocate_segments f
     then RETURN_NOT_OK (VerifySufficientDiskSpace f);;
          RETURN_NOT_OK (PreAllocate f)
     else ret tt).

(** The status that [PreAllocateNewSegment] returns: the first bad one, in
    the order of the calls. *)
Definition preallocate_status (f : PreAllocateFaults) : Status :=
  if negb (ok (NewTempWritableFile f)) then NewTempWritableFile f
  else if inject_io_error_on_preallocate f
  then Error kIOError "Injected IOError in Log::PreAllocateNewSegment()"
  else if negb (preallocate_segments f) then OK
  else if negb (ok (VerifySufficientDiskSpace f)) then VerifySufficientDiskSpace f
  else PreAllocate f.

(** The log with the placeholder of [f] in [next_segment_path_] and
    [next_segment_file_]. *)
Definition with_placeholder (f : PreAllocateFaults) (l : Log) : Log :=
  set_next_segment_file (Some (placeholder_path f))
    (set_next_segment_path (placeholder_path f) l).

(** A disk without room for the new segment. *)
Definition disk_full : PreAllocateFaults :=
  {| NewTempWritableFile := OK;
     placeholder_path := ".tmp.newsegment000002";
     inject_io_error_on_preallocate := false;
     preallocate_segments := true;
     VerifySufficientDiskSpace := Error kIOError "Insufficient disk space";
     PreAllocate := OK |}.

(** ** GetReplaySizeMap *)

(** A [std::map<int64_t, int64_t>] as the list of its pairs, in the order of
    the keys. *)
Definition ReplaySizeMap := list (Z * Z).

(** The assignment [m[k] = v]. *)
Fixpoint map_assign (k v : Z) (m : ReplaySizeMap) : ReplaySizeMap :=
  match m with
  | [] => [(k, v)]
  | (k', v') :: rest =>
      if k <? k' then (k, v) :: m
      else if k =? k' then (k, v) :: rest
      else (k', v') :: map_assign k v rest
  end.

(** [m.find(k)]. *)
Fixpoint map_find (k : Z) (m : ReplaySizeMap) : option Z :=
  match m with
  | [] => None
  | (k', v') :: rest => if k =? k' then Some v' else map_find k rest
  end.

(** The keys of the map go up strictly. *)
Fixpoint increasing (m : ReplaySizeMap) : bool :=
  match m with
  | [] => true
  | (k1, _) :: rest =>
      match rest with
      | [] => true
      | (k2, _) :: _ => (k1 <? k2) && increasing rest
      end
  end.

(** The loop of [Log::GetReplaySizeMap] over the segments in reverse, with
    its two variables. *)
Fixpoint GetReplaySizeMap_loop (reversed : SegmentSequence) (cumulative_size : Z)
         (replay_size : ReplaySizeMap) : Z * ReplaySizeMap :=
  match reversed with
  | [] => (cumulative_size, replay_size)
  | segment :: rest =>
      match footer_ segment with
      | None => GetReplaySizeMap_loop rest cumulative_size replay_size
      | Some footer =>
          let cumulative_size' := cumulative_size + file_size segment in
          let max_repl_idx := max_replicate_index footer in
          GetReplaySizeMap_loop rest cumulative_size'
            (map_assign max_repl_idx cumulative_size' replay_size)
      end
  end.

(** [Log::GetReplaySizeMap]; the result is what is left in [*replay_size]. *)
Definition GetReplaySizeMap (f : GCFaults) : M ReplaySizeMap :=
  st <- gets log_state_;;
  CHECK (LogState_eqb kLogWriting st) "CHECK_EQ(kLogWriting, log_state_)";;
  CHECK_OK (RETURN_NOT_OK (GetSegmentsSnapshot f))
           "CHECK_OK(reader_->GetSegmentsSnapshot(&segments))";;
  segments <- gets (fun l => segments_ (reader_ l));;
  ret (snd (GetReplaySizeMap_loop (rev segments) 0 [])).

(** The bytes of the segments of a list that have a footer. *)
Fixpoint footered_size (segs : SegmentSequence) : Z :=
  match segs with
  | [] => 0
  | s :: rest =>
      (if HasFooter s then file_size s else 0) + footered_size rest
  end.

(** The bytes to replay from the first segment with a footer whose largest
    replicate index is [k]: those of that segment and of the segments with a
    footer after it. *)
Fixpoint bytes_to_replay_from (k : Z) (segs : SegmentSequence) : option Z :=
  match segs with
  | [] => None
  | s :: rest =>
      match footer_ s with
      | Some footer =>
          if k =? max_replicate_index footer then Some (footered_size segs)
          else bytes_to_replay_from k rest
      | None => bytes_to_replay_from k rest
      end
  end.

(** ** Close *)

(** What [Log::Close] calls: whether the append thread exists ([thread_]),
    the faults of the pass the appender makes before it exits, the two hooks,
    the [Sync], and the closing and reopening of the segment. *)
Record CloseFaults := {
  thread_ : bool;
  last_pass : DrainFaults;
  PreClose : Status;
  close_sync : SyncFaults;
  close_segment : RollFaults;
  PostClose : Status
}.

(** [Log::AppendThread::Shutdown]: the queue is shut down and, when the
    thread exists, it is joined: the thread drains what is queued, makes its
    last pass and leaves its loop. *)
Definition AppendThread_Shutdown (f : CloseFaults) : M unit :=
  Shutdown;;
  if thread_ f
  then CHECK_OK (exited <- RunThread 1 (fun _ => last_pass f) 0;; ret tt)
                "CHECK_OK(ThreadJoiner(thread_.get()).Join())"
  else ret tt.

(** [Log::Close].  The allocation pool is a collaborator: its shutdown is
    the event [EvAllocationPoolShutdown]; what the pool does with a task
    that is still queued or running when it is shut down is not modelled.
    Once the log is closed the two pointers [log_index_] and [reader_] are
    reset.  The number in the message of the last case is the value of
    [kLogInitialized] in the enum of log.h, taken to be its first; no
    statement below depends on it. *)
Definition Close (f : CloseFaults) : M unit :=
  emit EvAllocationPoolShutdown;;
  AppendThread_Shutdown f;;
  st <- gets log_state_;;
  match st with
  | kLogWriting =>
      RETURN_NOT_OK_PREPEND (PreClose f) "PreClose hook failed";;
      Sync (close_sync f);;
      CloseCurrentSegment (close_segment f);;
      ReplaceSegmentInReaderUnlocked (close_segment f);;
      modify (set_log_state kLogClosed);;
      (* Release FDs held by these objects. *)
      modify (set_log_index_held false);;
      modify (set_reader_held false);;
      RETURN_NOT_OK_PREPEND (PostClose f) "PostClose hook failed"
  | kLogClosed => ret tt
  | kLogInitialized =>
      fail (Error kIllegalState "Log not open. State: 0")
  end.

(** The log once [Close] has shut the allocation pool down. *)
Definition pool_shut_down (l : Log) : Log :=
  set_trace (trace_ l ++ [EvAllocationPoolShutdown]) l.

Definition no_close_faults : CloseFaults :=
  {| thread_ := true; last_pass := no_drain_faults; PreClose := OK;
     close_sync := no_sync_faults; close_segment := no_roll_faults;
     PostClose := OK |}.

(** A [Close] during which the fsync fails. *)
Definition close_sync_fails : CloseFaults :=
  {| thread_ := true; last_pass := no_drain_faults; PreClose := OK;
     close_sync := failing_sync; close_segment := no_roll_faults;
     PostClose := OK |}.

(** The example log with a REPLICATE batch still in its queue. *)
Definition example_log_queued : Log :=
  set_entry_batch_queue
    {| list_ := [replicate_batch (MakeOpId 2 7) 10]; shutdown_ := false;
       size_ := 32; max_size_ := 4194304 |} example_log.

Definition is_write_entry_batch (e : Event) : bool :=
  match e with EvWriteEntryBatch _ => true | _ => false end.

(** A rollover during which the new segment file cannot be renamed. *)
Definition rename_fails : RollFaults :=
  {| SubmitClosure := OK; allocation_status := OK; roll_sync := no_sync_faults;
     WriteFooterAndClose := OK;
     RenameFile_SyncDir := Error kIOError "rename failed";
     WriteHeaderAndOpen := OK; ReplaceLastSegment := OK;
     AppendEmptySegment := OK;
     new_segment_path := "wal-000000002"; first_entry_offset := 60 |}.

(** The writing of a batch that has no bytes. *)
Definition writes_empty_batch (e : Event) : bool :=
  match e with
  | EvWriteEntryBatch b => total_size_bytes_ b =? 0
  | _ => false
  end.

(** * Properties *)

Unset Implicit Arguments.

Lemma OpIdEquals_spec a b : OpIdEquals a b = true <-> a = b.
Proof.
  destruct a as [ta ia], b as [tb ib]; unfold OpIdEquals; simpl.
  rewrite andb_true_iff, !Z.eqb_eq. split.
  - intros [-> ->]; reflexivity.
  - intros H; injection H; auto.
Qed.

Lemma LogEntryTypePB_eqb_spec a b : LogEntryTypePB_eqb a b = true <-> a = b.
Proof. destruct a, b; simpl; split; intros H; try reflexivity; discriminate. Qed.

(** ** The prefix that GC deletes *)

Section PrefixToGC.

Variable flags : Flags.
Variable retention : RetentionIndexes.

(** One turn of the loop goes on exactly when the stopping rule is false. *)
Lemma GetPrefixSizeToGC_loop_step segment rest rem_segs prefix_size :
  GetPrefixSizeToGC_loop flags retention (segment :: rest) rem_segs prefix_size =
  if stops_gc flags retention rem_segs segment then prefix_size
  else GetPrefixSizeToGC_loop flags retention rest (rem_segs - 1) (prefix_size + 1).
Proof.
  simpl. unfold stops_gc.
  destruct (rem_segs <=? FLAGS_log_min_segments_to_retain flags) eqn:Hmin;
    destruct (footer_ segment) as [ft|]; simpl; try reflexivity.
  destruct (max_replicate_index ft >=? for_durability retention); simpl;
    try reflexivity.
Qed.

(** The loop adds to [prefix_size] the length [k] of the longest prefix on
    which the stopping rule is false throughout. *)
Lemma GetPrefixSizeToGC_loop_spec segments :
  forall rem_segs prefix_size,
  exists k : nat,
    GetPrefixSizeToGC_loop flags retention segments rem_segs prefix_size
      = prefix_size + Z.of_nat k
    /\ (k <= List.length segments)%nat
    /\ (forall i seg, (i < k)%nat -> nth_error segments i = Some seg ->
          stops_gc flags retention (rem_segs - Z.of_nat i) seg = false)
    /\ (forall seg, nth_error segments k = Some seg ->
          stops_gc flags retention (rem_segs - Z.of_nat k) seg = true).
Proof.
  induction segments as [|segment rest IH]; intros rem_segs prefix_size.
  - exists 0%nat. simpl. split; [lia | split; [lia | split]].
    + intros i seg Hi; lia.
    + intros seg H; discriminate.
  - rewrite GetPrefixSizeToGC_loop_step.
    destruct (stops_gc flags retention rem_segs segment) eqn:Hstop.
    + exists 0%nat. split; [lia | split; [simpl; lia | split]].
      * intros i seg Hi; lia.
      * intros seg H; simpl in H; injection H as <-.
        now rewrite Z.sub_0_r.
    + destruct (IH (rem_segs - 1) (prefix_size + 1)) as (k & Hk & Hlen & Hbefore & Hat).
      exists (S k). split; [| split; [| split]].
      * rewrite Hk; lia.
      * simpl; lia.
      * intros i seg Hi Hnth. destruct i as [|i].
        -- simpl in Hnth; injection Hnth as <-. now rewrite Z.sub_0_r.
        -- simpl in Hnth.
           replace (rem_segs - Z.of_nat (S i)) with (rem_segs - 1 - Z.of_nat i) by lia.
           apply Hbefore; [lia | assumption].
      * intros seg Hnth. simpl in Hnth.
        replace (rem_segs - Z.of_nat (S k)) with (rem_segs - 1 - Z.of_nat k) by lia.
        now apply Hat.
Qed.

End PrefixToGC.

Lemma GC_nothing_to_delete flags f retention num_gced l :
  0 <= for_durability retention ->
  log_state_ l = kLogWriting ->
  GetSegmentsSnapshot f = OK ->
  GetPrefixSizeToGC flags retention (segments_ (reader_ l)) = 0 ->
  GC flags f retention num_gced l = (Ret tt, 0, l).
Proof.
  intros Hdur Hstate Hsnap Hzero. unfold GC.
  replace (for_durability retention >=? 0) with true
    by (symmetry; apply Z.geb_le; lia).
  rewrite Hstate. simpl.
  unfold GetSegmentsToGCUnlocked, bind, RETURN_NOT_OK, gets, ret.
  rewrite Hsnap. simpl. rewrite Hzero. reflexivity.
Qed.

(** C1.  [GetPrefixSizeToGC] walks the segments from the oldest and returns
    the number [n] of segments before the first one at which the stopping
    rule holds (too few segments would remain, no footer, needed for
    durability, or needed for peers below the ceiling); the segments handed
    to deletion are exactly these first [n]; and when that prefix is empty,
    [GC] returns with [num_gced = 0] and leaves the log as it was. *)
Theorem GetPrefixSizeToGC_deletable_prefix
        (flags : Flags) (retention : RetentionIndexes) (segments : SegmentSequence) :
  exists n : nat,
    GetPrefixSizeToGC flags retention segments = Z.of_nat n
    /\ (n <= List.length segments)%nat
    /\ (forall i seg, (i < n)%nat -> nth_error segments i = Some seg ->
          stops_gc flags retention
                   (Z.of_nat (List.length segments) - Z.of_nat i) seg = false)
    /\ (forall seg, nth_error segments n = Some seg ->
          stops_gc flags retention
                   (Z.of_nat (List.length segments) - Z.of_nat n) seg = true)
    /\ (forall f l, GetSegmentsSnapshot f = OK -> segments_ (reader_ l) = segments ->
          GetSegmentsToGCUnlocked flags f retention l = (Ret (firstn n segments), l))
    /\ (forall f l num_gced,
          n = 0%nat ->
          0 <= for_durability retention -> log_state_ l = kLogWriting ->
          GetSegmentsSnapshot f = OK -> segments_ (reader_ l) = segments ->
          GC flags f retention num_gced l = (Ret tt, 0, l)).
Proof.
  destruct (GetPrefixSizeToGC_loop_spec flags retention segments
              (Z.of_nat (List.length segments)) 0)
    as (n & Hn & Hlen & Hbefore & Hat).
  exists n. unfold GetPrefixSizeToGC. rewrite Hn, Z.add_0_l.
  split; [reflexivity | split; [assumption | split; [assumption | split; [assumption | split]]]].
  - intros f l Hsnap Hsegs.
    unfold GetSegmentsToGCUnlocked, bind, RETURN_NOT_OK, gets, ret.
    rewrite Hsnap. simpl. rewrite Hsegs. unfold GetPrefixSizeToGC.
    rewrite Hn, Z.add_0_l, Nat2Z.id. reflexivity.
  - intros f l num_gced Hzero Hdur Hstate Hsnap Hsegs.
    apply GC_nothing_to_delete; auto.
    rewrite Hsegs. unfold GetPrefixSizeToGC. rewrite Hn. subst n. reflexivity.
Qed.

(** ** Traces *)

Lemma new_events_app l l' evs :
  trace_ l' = trace_ l ++ evs -> new_events l l' = evs.
Proof.
  intros H. unfold new_events. rewrite H.
  rewrite skipn_app, skipn_all, Nat.sub_diag. reflexivity.
Qed.

Lemma quiet_same {A} (c : M A) :
  (forall l r l', c l = (r, l') -> trace_ l' = trace_ l) -> quiet c.
Proof.
  intros H l r l' E. exists []. rewrite app_nil_r. split; [eauto | reflexivity].
Qed.

Lemma quiet_ret {A} (a : A) : quiet (ret a).
Proof. apply quiet_same. unfold ret. intros l r l' E. now inversion E. Qed.

Lemma quiet_fail {A} s : quiet (@fail A s).
Proof. apply quiet_same. unfold fail. intros l r l' E. now inversion E. Qed.

Lemma quiet_crash {A} w : quiet (@crash A w).
Proof. apply quiet_same. unfold crash. intros l r l' E. now inversion E. Qed.

Lemma quiet_block {A} : quiet (@block A).
Proof. apply quiet_same. unfold block. intros l r l' E. now inversion E. Qed.

Lemma quiet_gets {A} (g : Log -> A) : quiet (gets g).
Proof. apply quiet_same. unfold gets. intros l r l' E. now inversion E. Qed.

Lemma quiet_modify (g : Log -> Log) :
  (forall l, trace_ (g l) = trace_ l) -> quiet (modify g).
Proof.
  intros Hg. apply quiet_same. unfold modify. intros l r l' E.
  inversion E; subst. apply Hg.
Qed.

Lemma quiet_emit e : is_appender_event e = false -> quiet (emit e).
Proof.
  intros He l r l' E. unfold emit, modify in E. inversion E; subst.
  exists [e]. simpl. now rewrite He.
Qed.

Lemma quiet_bind {A B} (c : M A) (k : A -> M B) :
  quiet c -> (forall a, quiet (k a)) -> quiet (bind c k).
Proof.
  intros Hc Hk l r l' E. unfold bind in E.
  destruct (c l) as [o l1] eqn:Ec.
  destruct (Hc _ _ _ Ec) as (evs1 & Ht1 & Hq1).
  destruct o as [a|s|w|].
  - destruct (Hk a _ _ _ E) as (evs2 & Ht2 & Hq2).
    exists (evs1 ++ evs2). rewrite Ht2, Ht1, app_assoc, filter_app, Hq1, Hq2.
    split; reflexivity.
  - inversion E; subst. eauto.
  - inversion E; subst. eauto.
  - inversion E; subst. eauto.
Qed.

Lemma quiet_RETURN_NOT_OK s : quiet (RETURN_NOT_OK s).
Proof. unfold RETURN_NOT_OK. destruct (ok s); [apply quiet_ret | apply quiet_fail]. Qed.

Lemma quiet_RETURN_NOT_OK_PREPEND s m : quiet (RETURN_NOT_OK_PREPEND s m).
Proof. apply quiet_RETURN_NOT_OK. Qed.

Lemma quiet_CHECK b w : quiet (CHECK b w).
Proof. unfold CHECK. destruct b; [apply quiet_ret | apply quiet_crash]. Qed.

Lemma quiet_CHECK_OK {A} (c : M A) w : quiet c -> quiet (CHECK_OK c w).
Proof.
  intros Hc l r l' E. unfold CHECK_OK in E.
  destruct (c l) as [o l1] eqn:Ec. specialize (Hc _ _ _ Ec).
  destruct o; inversion E; subst; exact Hc.
Qed.

Lemma quiet_status_of (c : M unit) : quiet c -> quiet (status_of c).
Proof.
  intros Hc l r l' E. unfold status_of in E.
  destruct (c l) as [o l1] eqn:Ec. specialize (Hc _ _ _ Ec).
  destruct o; inversion E; subst; exact Hc.
Qed.

Create HintDb quiet.
#[local] Hint Resolve quiet_ret quiet_fail quiet_crash quiet_block quiet_gets
  quiet_RETURN_NOT_OK quiet_RETURN_NOT_OK_PREPEND quiet_CHECK : quiet.

(** Breaks a computation down to its emits and state updates. *)
Ltac quiet_steps :=
  repeat first
    [ apply quiet_bind; [| intros ?]
    | solve [auto with quiet]
    | apply quiet_modify; intros ?; reflexivity
    | apply quiet_emit; reflexivity
    | apply quiet_CHECK_OK
    | apply quiet_status_of
    | match goal with
      | |- quiet (if ?b then _ else _) => destruct b
      | |- quiet (match ?x with _ => _ end) => destruct x
      end ].

Lemma quiet_Sync f : quiet (Sync f).
Proof. unfold Sync. quiet_steps. Qed.

Lemma quiet_RollOver f : quiet (RollOver f).
Proof.
  unfold RollOver, SegmentAllocationTask, CloseCurrentSegment,
    SwitchToAllocatedSegment, ReplaceSegmentInReaderUnlocked.
  quiet_steps; try apply quiet_Sync.
Qed.

Lemma quiet_add_index_entries f entries start_offset :
  quiet (add_index_entries f entries start_offset).
Proof.
  induction entries as [|e rest IH]; simpl.
  - apply quiet_ret.
  - quiet_steps.
Qed.

Lemma quiet_DoAppend f entry_batch : quiet (DoAppend f entry_batch).
Proof.
  unfold DoAppend, AsyncAllocateSegment, UpdateIndexForBatch, UpdateFooterForBatch.
  quiet_steps;
    try first [ apply quiet_RollOver | apply quiet_add_index_entries ].
Qed.

(** ** One pass of the appender, seen from outside *)

Lemma bind_Ret_inv {A B} (c : M A) (k : A -> M B) l r l' :
  bind c k l = (Ret r, l') ->
  exists a l1, c l = (Ret a, l1) /\ k a l1 = (Ret r, l').
Proof.
  unfold bind. destruct (c l) as [[a|s|w|] l1]; intros E; try discriminate.
  eauto.
Qed.

Lemma emit_run e l : emit e l = (Ret tt, set_trace (trace_ l ++ [e]) l).
Proof. reflexivity. Qed.

Lemma run_callback_run i b s l :
  exists l', run_callback i b s l = (Ret tt, l')
             /\ trace_ l' = trace_ l ++ callback_view i b s.
Proof.
  unfold run_callback, callback_view. destruct (callback_ b) as [c|].
  - rewrite emit_run. eexists; split; reflexivity.
  - exists l. unfold ret. now rewrite app_nil_r.
Qed.

Lemma failure_run bs : forall i s l,
  exists l', notify_sync_failure i bs s l = (Ret tt, l')
             /\ trace_ l' = trace_ l ++ failure_view i bs s.
Proof.
  induction bs as [|b bs IH]; intros i s l; simpl.
  - exists l. unfold ret. now rewrite app_nil_r.
  - destruct (run_callback_run i b s l) as (l1 & E1 & T1).
    destruct (IH (S i) s l1) as (l2 & E2 & T2).
    exists l2. unfold bind at 1. rewrite E1, E2. split; [reflexivity|].
    now rewrite T2, T1, app_assoc.
Qed.

Lemma success_run bs : forall i l,
  exists l', notify_success i bs l = (Ret tt, l')
             /\ trace_ l' = trace_ l ++ success_view i bs.
Proof.
  induction bs as [|b bs IH]; intros i l; simpl.
  - exists l. unfold ret. now rewrite app_nil_r.
  - destruct (failed_to_append_ b); simpl.
    + destruct (IH (S i) (set_trace (trace_ l ++ [EvDeleteBatch i]) l))
        as (l2 & E2 & T2).
      exists l2. unfold bind, ret. rewrite emit_run. unfold bind in E2.
      rewrite E2. split; [reflexivity|].
      rewrite T2. simpl. now rewrite <- app_assoc.
    + destruct (run_callback_run i b OK l) as (l1 & E1 & T1).
      destruct (IH (S i) (set_trace (trace_ l1 ++ [EvDeleteBatch i]) l1))
        as (l2 & E2 & T2).
      exists l2. unfold bind. rewrite E1, emit_run, E2. split; [reflexivity|].
      rewrite T2. simpl. rewrite T1. now rewrite <- !app_assoc.
Qed.

Lemma delete_run bs : forall i l,
  exists l', delete_batches i bs l = (Ret tt, l')
             /\ trace_ l' = trace_ l ++ delete_view i bs.
Proof.
  induction bs as [|b bs IH]; intros i l; simpl.
  - exists l. unfold ret. now rewrite app_nil_r.
  - destruct (IH (S i) (set_trace (trace_ l ++ [EvDeleteBatch i]) l))
      as (l2 & E2 & T2).
    exists l2. unfold bind. rewrite emit_run, E2. split; [reflexivity|].
    rewrite T2. simpl. now rewrite <- app_assoc.
Qed.

Lemma appender_only_callback i b s :
  filter is_appender_event (callback_view i b s) = callback_view i b s.
Proof. unfold callback_view. now destruct (callback_ b). Qed.

Lemma appender_only_failure bs : forall i s,
  filter is_appender_event (failure_view i bs s) = failure_view i bs s.
Proof.
  induction bs as [|b bs IH]; intros i s; simpl; [reflexivity|].
  now rewrite filter_app, appender_only_callback, IH.
Qed.

Lemma appender_only_success bs : forall i,
  filter is_appender_event (success_view i bs) = success_view i bs.
Proof.
  induction bs as [|b bs IH]; intros i; simpl; [reflexivity|].
  rewrite filter_app. simpl. rewrite IH.
  destruct (failed_to_append_ b); [reflexivity|].
  now rewrite appender_only_callback.
Qed.

Lemma appender_only_delete bs : forall i,
  filter is_appender_event (delete_view i bs) = delete_view i bs.
Proof.
  induction bs as [|b bs IH]; intros i; simpl; [reflexivity|]. now rewrite IH.
Qed.

Lemma append_all_view f bs : forall i all l r l',
  append_all f i bs all l = (Ret r, l') ->
  exists ss evs,
    List.length ss = List.length bs
    /\ trace_ l' = trace_ l ++ evs
    /\ filter is_appender_event evs = append_view i bs ss
    /\ fst r = mark_failed bs ss
    /\ snd r = all && forallb is_commit_batch bs.
Proof.
  induction bs as [|b bs IH]; intros i all l r l' E.
  - simpl in E. unfold ret in E. inversion E; subst.
    exists [], []. simpl. rewrite app_nil_r, andb_true_r. auto.
  - simpl in E.
    apply bind_Ret_inv in E. destruct E as (u1 & l1 & E1 & E).
    rewrite emit_run in E1. inversion E1; subst u1 l1; clear E1.
    apply bind_Ret_inv in E. destruct E as (s & l2 & E2 & E).
    destruct (quiet_status_of _ (quiet_DoAppend (append_faults f i) b) _ _ _ E2)
      as (evs2 & T2 & Q2).
    apply bind_Ret_inv in E. destruct E as (u3 & l3 & E3 & E).
    rewrite emit_run in E3. inversion E3; subst u3 l3; clear E3.
    apply bind_Ret_inv in E. destruct E as (b' & l4 & E4 & E).
    apply bind_Ret_inv in E. destruct E as (r' & l5 & E5 & E).
    unfold ret in E. inversion E; subst r l'; clear E.
    destruct (IH _ _ _ _ _ E5) as (ss & evs5 & Hlen & T5 & Q5 & Hfst & Hsnd).
    assert (H4 : b' = (if ok s then b else set_failed_to_append b)
                 /\ trace_ l4 = trace_ l2 ++ [EvAppendReturned i s]
                      ++ (if ok s then []
                          else EvSetFailedToAppend i :: callback_view i b s)).
    { destruct (ok s); simpl in E4.
      - unfold ret in E4. inversion E4; subst. simpl. auto.
      - apply bind_Ret_inv in E4. destruct E4 as (u & la & Ea & E4).
        apply bind_Ret_inv in E4. destruct E4 as (u' & lb & Eb & E4).
        destruct (run_callback_run i b s la) as (lc & Ec & Tc).
        rewrite Ec in Eb. inversion Eb; subst u' lb; clear Eb.
        rewrite emit_run in Ea. inversion Ea; subst u la; clear Ea.
        unfold ret in E4. inversion E4; subst. split; [reflexivity|].
        rewrite Tc. simpl. now rewrite <- !app_assoc. }
    destruct H4 as [Hb' T4].
    exists (s :: ss),
      ([EvAppendAttempt i] ++ evs2 ++ [EvAppendReturned i s]
        ++ (if ok s then [] else EvSetFailedToAppend i :: callback_view i b s)
        ++ evs5).
    simpl. split; [now rewrite Hlen|]. split.
    { rewrite T5, T4, T2. simpl.
      repeat (rewrite <- app_assoc; simpl). reflexivity. }
    split.
    { repeat (rewrite filter_app; simpl). rewrite Q2, Q5. simpl.
      destruct (ok s); simpl; [reflexivity|].
      now rewrite appender_only_callback. }
    split.
    { now rewrite Hfst, Hb'. }
    rewrite Hsnd. unfold is_commit_batch.
    destruct all, (LogEntryTypePB_eqb (type_ b) COMMIT); reflexivity.
Qed.

(** What a completed pass of the appender added to the trace, seen through
    the appender's events, and the batches as its first loop left them. *)
Lemma RunThread_group_view_batches f bs l l' :
  RunThread_group f bs l = (Ret tt, l') ->
  exists ss sy r l1,
    List.length ss = List.length bs
    /\ appender_events l l' = group_view bs ss sy
    /\ append_all f 0 bs true l = (Ret r, l1)
    /\ fst r = mark_failed bs ss.
Proof.
  intros E. unfold RunThread_group in E.
  apply bind_Ret_inv in E. destruct E as (r & l1 & E1 & E).
  destruct (append_all_view _ _ _ _ _ _ _ E1) as (ss & evs1 & Hlen & T1 & Q1 & Hfst & Hsnd).
  simpl in Hsnd. rewrite Hfst, Hsnd in E. clear Hsnd.
  apply bind_Ret_inv in E. destruct E as (s & l2 & E2 & E).
  unfold appender_events, group_view.
  destruct (forallb is_commit_batch bs) eqn:Hall; simpl in E2, E |- *.
  - unfold ret in E2. inversion E2; subst s l2; clear E2. simpl in E.
    destruct (success_run (mark_failed bs ss) 0 l1) as (l3 & E3 & T3).
    rewrite E3 in E. inversion E; subst l'.
    exists ss, OK, r, l1. split; [assumption|]. split; [|now split].
    rewrite (@new_events_app l l3 (evs1 ++ success_view 0 (mark_failed bs ss))).
    + now rewrite filter_app, Q1, appender_only_success.
    + now rewrite T3, T1, app_assoc.
  - apply bind_Ret_inv in E2. destruct E2 as (u & la & Ea & E2).
    rewrite emit_run in Ea. inversion Ea; subst u la; clear Ea.
    apply bind_Ret_inv in E2. destruct E2 as (sy & lb & Eb & E2).
    destruct (quiet_status_of _ (quiet_Sync (group_sync f)) _ _ _ Eb) as (evsb & Tb & Qb).
    apply bind_Ret_inv in E2. destruct E2 as (u & lc & Ec & E2).
    rewrite emit_run in Ec. inversion Ec; subst u lc; clear Ec.
    unfold ret in E2. inversion E2; subst s l2; clear E2.
    exists ss, sy, r, l1. split; [assumption|]. split; [|now split].
    destruct (ok sy) eqn:Hsy; simpl in E.
    + destruct (success_run (mark_failed bs ss) 0
                  (set_trace (trace_ lb ++ [EvGroupSyncReturned sy]) lb))
        as (l3 & E3 & T3).
      rewrite E3 in E. inversion E; subst l'.
      rewrite (@new_events_app l l3
                 (evs1 ++ [EvGroupSync] ++ evsb ++ [EvGroupSyncReturned sy]
                       ++ success_view 0 (mark_failed bs ss))).
      * rewrite !filter_app, Q1, Qb, appender_only_success. reflexivity.
      * rewrite T3. simpl. rewrite Tb. simpl. rewrite T1.
        rewrite <- !app_assoc. reflexivity.
    + apply bind_Ret_inv in E. destruct E as (u & l3 & E3 & E).
      destruct (failure_run (mark_failed bs ss) 0 sy
                  (set_trace (trace_ lb ++ [EvGroupSyncReturned sy]) lb))
        as (l3' & E3' & T3).
      rewrite E3' in E3. inversion E3; subst u l3'; clear E3.
      destruct (delete_run (mark_failed bs ss) 0 l3) as (l4 & E4 & T4).
      rewrite E4 in E. inversion E; subst l'.
      rewrite (@new_events_app l l4
                 (evs1 ++ [EvGroupSync] ++ evsb ++ [EvGroupSyncReturned sy]
                       ++ failure_view 0 (mark_failed bs ss) sy
                       ++ delete_view 0 (mark_failed bs ss))).
      * rewrite !filter_app, Q1, Qb, appender_only_failure, appender_only_delete.
        reflexivity.
      * rewrite T4, T3. simpl. rewrite Tb. simpl. rewrite T1.
        rewrite <- !app_assoc. reflexivity.
Qed.

(** What a completed pass of the appender added to the trace, seen through
    the appender's events. *)
Lemma RunThread_group_view f bs l l' :
  RunThread_group f bs l = (Ret tt, l') ->
  exists ss sy,
    List.length ss = List.length bs
    /\ appender_events l l' = group_view bs ss sy.
Proof.
  intros E.
  destruct (RunThread_group_view_batches _ _ _ _ E) as (ss & sy & _ & _ & H & H' & _).
  eauto.
Qed.

Lemma callback_view_phase i b s e :
  In e (callback_view i b s) -> exists c, e = EvCallbackRun i c s /\ callback_ b = Some c.
Proof.
  unfold callback_view. destruct (callback_ b) as [c|]; simpl; [|tauto].
  intros [<-|[]]. eauto.
Qed.

Lemma append_view_phase bs : forall i ss e,
  In e (append_view i bs ss) -> append_phase e = true.
Proof.
  induction bs as [|b bs IH]; intros i [|s ss] e; simpl; try tauto.
  intros [<-|[<-|H]]; try reflexivity.
  apply in_app_or in H. destruct H as [H|H]; [|eauto].
  destruct (ok s); simpl in H; [tauto|].
  destruct H as [<-|H]; [reflexivity|].
  apply callback_view_phase in H. destruct H as (c & -> & _). reflexivity.
Qed.

Lemma failure_view_phase bs : forall i s e,
  In e (failure_view i bs s) -> notify_phase e = true.
Proof.
  induction bs as [|b bs IH]; intros i s e; simpl; [tauto|].
  intros H. apply in_app_or in H. destruct H as [H|H]; [|eauto].
  apply callback_view_phase in H. destruct H as (c & -> & _). reflexivity.
Qed.

Lemma success_view_phase bs : forall i e,
  In e (success_view i bs) -> notify_phase e = true.
Proof.
  induction bs as [|b bs IH]; intros i e; simpl; [tauto|].
  intros H. apply in_app_or in H. destruct H as [H|[<-|H]]; [|reflexivity|eauto].
  destruct (failed_to_append_ b); [destruct H|].
  apply callback_view_phase in H. destruct H as (c & -> & _). reflexivity.
Qed.

Lemma delete_view_phase bs : forall i e,
  In e (delete_view i bs) -> notify_phase e = true.
Proof.
  induction bs as [|b bs IH]; intros i e; simpl; [tauto|].
  intros [<-|H]; [reflexivity|eauto].
Qed.

(** The third part of [group_view] holds events of the notify phase only. *)
Lemma notify_part_phase bs ss sy e :
  In e (if forallb is_commit_batch bs || ok sy
        then success_view 0 (mark_failed bs ss)
        else failure_view 0 (mark_failed bs ss) sy
             ++ delete_view 0 (mark_failed bs ss)) ->
  notify_phase e = true.
Proof.
  destruct (forallb is_commit_batch bs || ok sy).
  - apply success_view_phase.
  - intros H. apply in_app_or in H.
    destruct H; [eapply failure_view_phase | eapply delete_view_phase]; eauto.
Qed.

Lemma filter_none {A} (p : A -> bool) (l : list A) :
  (forall x, In x l -> p x = false) -> filter p l = [].
Proof.
  induction l as [|x l IH]; simpl; intros H; [reflexivity|].
  rewrite (H x) by auto. apply IH. auto.
Qed.

Lemma filter_filter_sub {A} (p q : A -> bool) (l : list A) :
  (forall x, p x = true -> q x = true) -> filter p (filter q l) = filter p l.
Proof.
  intros Hpq. induction l as [|x l IH]; simpl; [reflexivity|].
  destruct (q x) eqn:Hq; simpl.
  - now rewrite IH.
  - destruct (p x) eqn:Hp; [|exact IH].
    apply Hpq in Hp. congruence.
Qed.

Lemma group_syncs_count f bs l l' :
  RunThread_group f bs l = (Ret tt, l') ->
  group_syncs l l' = if forallb is_commit_batch bs then 0%nat else 1%nat.
Proof.
  intros E. destruct (RunThread_group_view _ _ _ _ E) as (ss & sy & _ & Hview).
  unfold group_syncs.
  rewrite <- (filter_filter_sub is_group_sync is_appender_event)
    by (intros []; simpl; congruence).
  fold (appender_events l l'). rewrite Hview. unfold group_view.
  rewrite !filter_app.
  rewrite (filter_none is_group_sync (append_view 0 bs ss)).
  2:{ intros e He. apply append_view_phase in He. destruct e; simpl in *; congruence. }
  rewrite (filter_none is_group_sync
             (if forallb is_commit_batch bs || ok sy then _ else _)).
  2:{ intros e He. apply notify_part_phase in He. destruct e; simpl in *; congruence. }
  destruct (forallb is_commit_batch bs); reflexivity.
Qed.

(** C3.  In a pass that the appender completes, it calls [Sync] for the
    drained group exactly once when some batch of the group is not a COMMIT
    batch, and not at all when every batch is a COMMIT batch.  (The [Sync]
    that a rollover inside [DoAppend] does on the segment it closes is the
    event [EvSync] and is not counted here.) *)
Theorem one_group_sync_unless_all_commits
        (f : DrainFaults) (bs : list LogEntryBatch) (l l' : Log) :
  RunThread_group f bs l = (Ret tt, l') ->
  (group_syncs l l' = 1%nat <-> exists b, In b bs /\ type_ b <> COMMIT)
  /\ (group_syncs l l' = 1%nat \/ group_syncs l l' = 0%nat)
  /\ ((forall b, In b bs -> type_ b = COMMIT) -> group_syncs l l' = 0%nat).
Proof.
  intros E. rewrite (group_syncs_count _ _ _ _ E).
  destruct (forallb is_commit_batch bs) eqn:Hall.
  - rewrite forallb_forall in Hall.
    split; [|split; auto].
    split; [discriminate|].
    intros (b & Hin & Hne). apply Hall in Hin.
    apply LogEntryTypePB_eqb_spec in Hin. contradiction.
  - split; [|split; auto].
    + split; [|reflexivity]. intros _.
      assert (Hex : existsb (fun b => negb (is_commit_batch b)) bs = true).
      { clear -Hall. induction bs as [|b bs IH]; simpl in *; [discriminate|].
        destruct (is_commit_batch b); simpl in *; auto. }
      apply existsb_exists in Hex. destruct Hex as (b & Hin & Hb).
      exists b. split; [assumption|]. intros Hc.
      unfold is_commit_batch in Hb. rewrite Hc in Hb. discriminate.
    + intros Hcommits. exfalso.
      assert (forallb is_commit_batch bs = true); [|congruence].
      apply forallb_forall. intros b Hin. apply LogEntryTypePB_eqb_spec. auto.
Qed.

(** ** Failures inside a pass *)

Lemma append_view_returned bs : forall k ss i s,
  In (EvAppendReturned i s) (append_view k bs ss) ->
  (k <= i)%nat /\ nth_error ss (i - k) = Some s /\ (i - k < List.length bs)%nat.
Proof.
  induction bs as [|b bs IH]; intros k [|s0 ss] i s; simpl; try tauto.
  intros [H|[H|H]]; try discriminate.
  - injection H as <- <-. rewrite Nat.sub_diag. simpl. repeat split; lia.
  - apply in_app_or in H. destruct H as [H|H].
    + destruct (ok s0); simpl in H; [tauto|].
      destruct H as [H|H]; [discriminate|].
      apply callback_view_phase in H. destruct H as (c & H & _). discriminate.
    + apply IH in H. destruct H as (Hk & Hnth & Hlen).
      replace (i - k)%nat with (S (i - S k)) by lia. simpl.
      repeat split; [lia | assumption | lia].
Qed.

Lemma append_view_split bs : forall k ss n b s,
  nth_error bs n = Some b -> nth_error ss n = Some s ->
  append_view k bs ss =
  append_view k (firstn n bs) (firstn n ss)
  ++ EvAppendAttempt (k + n) :: EvAppendReturned (k + n) s
     :: (if ok s then [] else EvSetFailedToAppend (k + n) :: callback_view (k + n) b s)
     ++ append_view (S (k + n)) (skipn (S n) bs) (skipn (S n) ss).
Proof.
  induction bs as [|b0 bs IH]; intros k [|s0 ss] [|n] b s Hb Hs;
    simpl in Hb, Hs; try discriminate.
  - injection Hb as ->. injection Hs as ->. simpl. now rewrite Nat.add_0_r.
  - simpl. rewrite (IH (S k) ss n b s Hb Hs).
    replace (S k + n)%nat with (k + S n)%nat by lia.
    rewrite <- !app_assoc. reflexivity.
Qed.

Lemma append_view_attempts bs : forall k ss j,
  List.length ss = List.length bs ->
  (k <= j < k + List.length bs)%nat ->
  In (EvAppendAttempt j) (append_view k bs ss).
Proof.
  induction bs as [|b bs IH]; intros k [|s ss] j Hlen Hj; simpl in *; try lia.
  destruct (Nat.eq_dec j k) as [->|Hne]; [now left|].
  right; right. apply in_or_app. right. apply IH; lia.
Qed.

Lemma group_view_returned bs ss sy i s :
  In (EvAppendReturned i s) (group_view bs ss sy) ->
  nth_error ss i = Some s /\ (i < List.length bs)%nat.
Proof.
  unfold group_view. intros H.
  apply in_app_or in H. destruct H as [H|H].
  - apply append_view_returned in H. rewrite Nat.sub_0_r in H. tauto.
  - apply in_app_or in H. destruct H as [H|H].
    + destruct (forallb is_commit_batch bs); simpl in H; [tauto|].
      destruct H as [H|[H|[]]]; discriminate.
    + apply notify_part_phase in H. discriminate.
Qed.

Lemma mark_failed_nth_eq bs : forall ss i b s,
  nth_error bs i = Some b -> nth_error ss i = Some s ->
  nth_error (mark_failed bs ss) i = Some (if ok s then b else set_failed_to_append b).
Proof.
  induction bs as [|b0 bs IH]; intros [|s0 ss] [|i] b s Hb Hs; simpl in *;
    try discriminate.
  - now injection Hb as ->; injection Hs as ->.
  - apply IH; assumption.
Qed.

Lemma append_view_callback bs : forall k ss i c s,
  In (EvCallbackRun i c s) (append_view k bs ss) -> ok s = false.
Proof.
  induction bs as [|b bs IH]; intros k [|s0 ss] i c s; simpl; try tauto.
  intros [H|[H|H]]; try discriminate.
  apply in_app_or in H. destruct H as [H|H]; [|exact (IH _ _ _ _ _ H)].
  destruct (ok s0) eqn:Hs0; simpl in H; [tauto|].
  destruct H as [H|H]; [discriminate|].
  apply callback_view_phase in H. destruct H as (c' & H & _).
  injection H as _ _ <-. exact Hs0.
Qed.

Lemma failure_view_callback bs : forall k sy i c s,
  In (EvCallbackRun i c s) (failure_view k bs sy) -> s = sy.
Proof.
  induction bs as [|b bs IH]; intros k sy i c s; simpl; [tauto|].
  intros H. apply in_app_or in H. destruct H as [H|H]; [|exact (IH _ _ _ _ _ H)].
  apply callback_view_phase in H. destruct H as (c' & H & _).
  now injection H as _ _ <-.
Qed.

Lemma success_view_callback bs : forall k i c s,
  In (EvCallbackRun i c s) (success_view k bs) ->
  (k <= i)%nat
  /\ exists b, nth_error bs (i - k) = Some b /\ failed_to_append_ b = false
               /\ callback_ b = Some c /\ s = OK.
Proof.
  induction bs as [|b bs IH]; intros k i c s; simpl; [tauto|].
  intros H. apply in_app_or in H. destruct H as [H|[H|H]]; [|discriminate|].
  - destruct (failed_to_append_ b) eqn:Hf; [destruct H|].
    apply callback_view_phase in H. destruct H as (c' & H & Hc).
    injection H as <- <- <-. split; [lia|].
    rewrite Nat.sub_diag. exists b. auto.
  - apply IH in H. destruct H as (Hk & b' & Hb' & H).
    split; [lia|]. exists b'. split; [|exact H].
    replace (i - k)%nat with (S (i - S k)) by lia. exact Hb'.
Qed.

(** C8.  In a pass that the appender completes, when the [DoAppend] of the
    batch at position [i] comes back with a bad status [s], the appender
    marks that batch failed and runs its callback (when it has one) with
    [s], and then goes on to call [DoAppend] on every later batch of the
    drained group.  The batch as the first loop leaves it has
    [failed_to_append_] set, and the pass never runs its callback with an OK
    status. *)
Theorem failed_append_does_not_stop_the_pass
        (f : DrainFaults) (bs : list LogEntryBatch) (l l' : Log)
        (i : nat) (b : LogEntryBatch) (s : Status) :
  RunThread_group f bs l = (Ret tt, l') ->
  nth_error bs i = Some b ->
  In (EvAppendReturned i s) (appender_events l l') ->
  ok s = false ->
  (exists before after,
      appender_events l l' =
        before ++ EvAppendReturned i s :: EvSetFailedToAppend i
               :: callback_view i b s ++ after
      /\ forall j, (i < j < List.length bs)%nat -> In (EvAppendAttempt j) after)
  /\ (exists r l1 b',
        append_all f 0 bs true l = (Ret r, l1)
        /\ nth_error (fst r) i = Some b'
        /\ failed_to_append_ b' = true
        /\ type_ b' = type_ b /\ entry_batch_pb_ b' = entry_batch_pb_ b
        /\ callback_ b' = callback_ b)
  /\ (forall c s', In (EvCallbackRun i c s') (appender_events l l') ->
                   ok s' = false).
Proof.
  intros E Hb Hret Hs.
  destruct (RunThread_group_view_batches _ _ _ _ E)
    as (ss & sy & r & l1 & Hlen & Hview & Happend & Hfst).
  rewrite Hview in *. clear Hview E.
  destruct (group_view_returned _ _ _ _ _ Hret) as [Hnth Hi].
  pose proof (mark_failed_nth_eq bs ss i b s Hb Hnth) as Hmark.
  rewrite Hs in Hmark.
  split; [|split].
  - unfold group_view.
    rewrite (append_view_split bs 0 ss i b s Hb Hnth). cbn [Nat.add]. rewrite Hs.
    exists (append_view 0 (firstn i bs) (firstn i ss) ++ [EvAppendAttempt i]).
    eexists. split.
    + rewrite <- !app_assoc. cbn [app]. rewrite <- !app_assoc. reflexivity.
    + intros j Hj. apply in_or_app. left.
      apply append_view_attempts.
      * rewrite !length_skipn. lia.
      * rewrite length_skipn. lia.
  - exists r, l1, (set_failed_to_append b).
    split; [exact Happend|]. split; [now rewrite Hfst|]. repeat split.
  - intros c s' Hrun. unfold group_view in Hrun.
    apply in_app_or in Hrun. destruct Hrun as [Hrun|Hrun].
    { exact (append_view_callback _ _ _ _ _ _ Hrun). }
    apply in_app_or in Hrun. destruct Hrun as [Hrun|Hrun].
    { destruct (forallb is_commit_batch bs); simpl in Hrun; [tauto|].
      destruct Hrun as [Hrun|[Hrun|[]]]; discriminate. }
    destruct (forallb is_commit_batch bs || ok sy) eqn:Hsy.
    + exfalso. apply success_view_callback in Hrun.
      destruct Hrun as (_ & b' & Hb' & Hf & _).
      rewrite Nat.sub_0_r, Hmark in Hb'. injection Hb' as <-. discriminate.
    + apply orb_false_iff in Hsy. destruct Hsy as [_ Hsy].
      apply in_app_or in Hrun. destruct Hrun as [Hrun|Hrun].
      * apply failure_view_callback in Hrun. now subst.
      * exfalso. clear -Hrun. revert Hrun. generalize 0%nat.
        generalize (mark_failed bs ss). intros xs.
        induction xs as [|x xs IH]; intros k; simpl; [tauto|].
        intros [H|H]; [discriminate | exact (IH _ H)].
Qed.

Lemma callback_runs_app i evs1 evs2 :
  callback_runs i (evs1 ++ evs2) = callback_runs i evs1 ++ callback_runs i evs2.
Proof. apply flat_map_app. Qed.

Lemma callback_runs_callback_view i j b s :
  callback_runs i (callback_view j b s) =
  if Nat.eqb j i then match callback_ b with Some _ => [s] | None => [] end else [].
Proof.
  unfold callback_view. destruct (callback_ b); simpl.
  - destruct (Nat.eqb j i); reflexivity.
  - destruct (Nat.eqb j i); reflexivity.
Qed.

(** The first loop runs the callback of the batch at [i] once, with the
    status of its append, when that status is bad, and not otherwise. *)
Lemma callback_runs_append_view bs : forall k ss i b s,
  (k <= i)%nat ->
  nth_error bs (i - k) = Some b -> nth_error ss (i - k) = Some s ->
  callback_runs i (append_view k bs ss) =
  if ok s then [] else match callback_ b with Some _ => [s] | None => [] end.
Proof.
  induction bs as [|b0 bs IH]; intros k [|s0 ss] i b s Hk Hb Hs;
    try (destruct (i - k)%nat; discriminate).
  simpl. destruct (Nat.eq_dec i k) as [->|Hne].
  - rewrite Nat.sub_diag in Hb, Hs. simpl in Hb, Hs.
    injection Hb as ->. injection Hs as ->.
    rewrite callback_runs_app.
    assert (Hrest : forall bs' ss' m, (k < m)%nat ->
              callback_runs k (append_view m bs' ss') = []).
    { clear. induction bs' as [|b' bs' IH']; intros [|s' ss'] m Hm; simpl;
        try reflexivity.
      rewrite callback_runs_app, IH' by lia.
      destruct (ok s'); simpl; [reflexivity|].
      rewrite callback_runs_callback_view.
      replace (Nat.eqb m k) with false by (symmetry; apply Nat.eqb_neq; lia).
      reflexivity. }
    rewrite Hrest by lia. rewrite app_nil_r.
    destruct (ok s); simpl; [reflexivity|].
    rewrite callback_runs_callback_view, Nat.eqb_refl. reflexivity.
  - replace (i - k)%nat with (S (i - S k)) in Hb, Hs by lia. simpl in Hb, Hs.
    rewrite callback_runs_app, (IH (S k) ss i b s) by (auto; lia).
    destruct (ok s0); simpl; [reflexivity|].
    rewrite callback_runs_callback_view.
    replace (Nat.eqb k i) with false by (symmetry; apply Nat.eqb_neq; lia).
    reflexivity.
Qed.

Lemma callback_runs_failure_view bs : forall k i b s,
  (k <= i)%nat -> nth_error bs (i - k) = Some b ->
  callback_runs i (failure_view k bs s) =
  match callback_ b with Some _ => [s] | None => [] end.
Proof.
  induction bs as [|b0 bs IH]; intros k i b s Hk Hb;
    try (destruct (i - k)%nat; discriminate).
  simpl. rewrite callback_runs_app, callback_runs_callback_view.
  destruct (Nat.eq_dec i k) as [->|Hne].
  - rewrite Nat.sub_diag in Hb. simpl in Hb. injection Hb as ->.
    rewrite Nat.eqb_refl.
    assert (Hrest : forall bs' m, (k < m)%nat ->
              callback_runs k (failure_view m bs' s) = []).
    { clear. induction bs' as [|b' bs' IH']; intros m Hm; simpl; [reflexivity|].
      rewrite callback_runs_app, IH', callback_runs_callback_view by lia.
      replace (Nat.eqb m k) with false by (symmetry; apply Nat.eqb_neq; lia).
      reflexivity. }
    rewrite Hrest by lia. now rewrite app_nil_r.
  - replace (i - k)%nat with (S (i - S k)) in Hb by lia. simpl in Hb.
    rewrite (IH (S k) i b s) by (auto; lia).
    replace (Nat.eqb k i) with false by (symmetry; apply Nat.eqb_neq; lia).
    reflexivity.
Qed.

Lemma callback_runs_delete_view bs : forall k i,
  callback_runs i (delete_view k bs) = [].
Proof. induction bs as [|b bs IH]; intros k i; simpl; auto. Qed.

Lemma failure_view_runs bs : forall k i b c s,
  nth_error bs i = Some b -> callback_ b = Some c ->
  In (EvCallbackRun (k + i) c s) (failure_view k bs s).
Proof.
  induction bs as [|b0 bs IH]; intros k [|i] b c s Hb Hc; simpl in Hb;
    try discriminate; simpl; apply in_or_app.
  - injection Hb as ->. left. unfold callback_view. rewrite Hc, Nat.add_0_r.
    now left.
  - right. replace (k + S i)%nat with (S k + i)%nat by lia. eapply IH; eauto.
Qed.

Lemma mark_failed_nth bs : forall ss i b,
  List.length ss = List.length bs -> nth_error bs i = Some b ->
  exists b', nth_error (mark_failed bs ss) i = Some b' /\ callback_ b' = callback_ b.
Proof.
  induction bs as [|b0 bs IH]; intros [|s ss] [|i] b Hlen Hb; simpl in *;
    try discriminate.
  - injection Hb as ->. eexists; split; [reflexivity|]. now destruct (ok s).
  - apply IH; auto.
Qed.

(** C9.  In a pass that the appender completes, when the [Sync] for the
    group comes back with a bad status [sy], the callback of every batch of
    the group is run with [sy]; for a batch whose [DoAppend] had failed with
    [e], the callback had already been run with [e], so it is run twice:
    first with [e], then with [sy]. *)
Theorem failed_sync_runs_every_callback
        (f : DrainFaults) (bs : list LogEntryBatch) (l l' : Log) (sy : Status) :
  RunThread_group f bs l = (Ret tt, l') ->
  In (EvGroupSyncReturned sy) (appender_events l l') ->
  ok sy = false ->
  (forall i b c, nth_error bs i = Some b -> callback_ b = Some c ->
     In (EvCallbackRun i c sy) (appender_events l l'))
  /\ (forall i b c e, nth_error bs i = Some b -> callback_ b = Some c ->
        In (EvAppendReturned i e) (appender_events l l') -> ok e = false ->
        callback_runs i (appender_events l l') = [e; sy]).
Proof.
  intros E Hsync Hsy.
  destruct (RunThread_group_view _ _ _ _ E) as (ss & sy' & Hlen & Hview).
  rewrite Hview in *. clear Hview E.
  assert (Hshape : forallb is_commit_batch bs = false /\ sy' = sy).
  { unfold group_view in Hsync.
    apply in_app_or in Hsync. destruct Hsync as [H|H].
    { apply append_view_phase in H. discriminate. }
    apply in_app_or in H. destruct H as [H|H].
    - destruct (forallb is_commit_batch bs); simpl in H; [tauto|].
      destruct H as [H|[H|[]]]; [discriminate|]. injection H as ->. auto.
    - apply notify_part_phase in H. discriminate. }
  destruct Hshape as [Hall ->].
  unfold group_view. rewrite Hall, Hsy. simpl.
  split.
  - intros i b c Hb Hc.
    destruct (mark_failed_nth bs ss i b Hlen Hb) as (b' & Hb' & Hcb).
    apply in_or_app. right. right. right. apply in_or_app. left.
    apply (failure_view_runs (mark_failed bs ss) 0 i b' c sy); congruence.
  - intros i b c e Hb Hc Hret He.
    assert (Hnth : nth_error ss i = Some e).
    { apply (group_view_returned bs ss sy). unfold group_view.
      rewrite Hall, Hsy. exact Hret. }
    destruct (mark_failed_nth bs ss i b Hlen Hb) as (b' & Hb' & Hcb).
    rewrite callback_runs_app.
    rewrite (callback_runs_append_view bs 0 ss i b e)
      by (rewrite ?Nat.sub_0_r; auto; lia).
    rewrite He, Hc. simpl.
    rewrite callback_runs_app.
    rewrite (callback_runs_failure_view (mark_failed bs ss) 0 i b' sy)
      by (rewrite ?Nat.sub_0_r; auto; lia).
    rewrite callback_runs_delete_view, Hcb, Hc. reflexivity.
Qed.

(** ** Relations that every step of a computation respects *)

Section Stable.

Variable R : Log -> Log -> Prop.
Hypothesis R_refl : forall l, R l l.
Hypothesis R_trans : forall l1 l2 l3, R l1 l2 -> R l2 l3 -> R l1 l3.

Local Abbreviation stable := (stable_for R).

Lemma stable_same {A} (c : M A) :
  (forall l r l', c l = (r, l') -> l' = l) -> stable c.
Proof. intros H l r l' E. rewrite (H _ _ _ E). apply R_refl. Qed.

Lemma stable_ret {A} (a : A) : stable (ret a).
Proof. apply stable_same. unfold ret. intros l r l' E. now inversion E. Qed.

Lemma stable_fail {A} s : stable (@fail A s).
Proof. apply stable_same. unfold fail. intros l r l' E. now inversion E. Qed.

Lemma stable_crash {A} w : stable (@crash A w).
Proof. apply stable_same. unfold crash. intros l r l' E. now inversion E. Qed.

Lemma stable_gets {A} (g : Log -> A) : stable (gets g).
Proof. apply stable_same. unfold gets. intros l r l' E. now inversion E. Qed.

Lemma stable_modify (g : Log -> Log) : (forall l, R l (g l)) -> stable (modify g).
Proof. intros Hg l r l' E. unfold modify in E. inversion E; subst. apply Hg. Qed.

Lemma stable_bind {A B} (c : M A) (k : A -> M B) :
  stable c -> (forall a, stable (k a)) -> stable (bind c k).
Proof.
  intros Hc Hk l r l' E. unfold bind in E.
  destruct (c l) as [o l1] eqn:Ec. specialize (Hc _ _ _ Ec).
  destruct o as [a|s|w|].
  - eapply R_trans; [exact Hc|]. eapply Hk; eauto.
  - inversion E; subst; assumption.
  - inversion E; subst; assumption.
  - inversion E; subst; assumption.
Qed.

Lemma stable_RETURN_NOT_OK s : stable (RETURN_NOT_OK s).
Proof.
  unfold RETURN_NOT_OK. destruct (ok s); [apply stable_ret | apply stable_fail].
Qed.

Lemma stable_RETURN_NOT_OK_PREPEND s m : stable (RETURN_NOT_OK_PREPEND s m).
Proof. apply stable_RETURN_NOT_OK. Qed.

Lemma stable_CHECK b w : stable (CHECK b w).
Proof. unfold CHECK. destruct b; [apply stable_ret | apply stable_crash]. Qed.

Lemma stable_CHECK_OK {A} (c : M A) w : stable c -> stable (CHECK_OK c w).
Proof.
  intros Hc l r l' E. unfold CHECK_OK in E.
  destruct (c l) as [o l1] eqn:Ec. specialize (Hc _ _ _ Ec).
  destruct o; inversion E; subst; exact Hc.
Qed.

End Stable.

(** Breaks a computation down to its state updates, which are left to the
    tactic [upd]. *)
Ltac stable_steps upd :=
  repeat first
    [ apply stable_bind; [solve [assumption] | | intros ?]
    | apply stable_ret; assumption
    | apply stable_fail; assumption
    | apply stable_crash; assumption
    | apply stable_gets; assumption
    | apply stable_RETURN_NOT_OK; assumption
    | apply stable_RETURN_NOT_OK_PREPEND; assumption
    | apply stable_CHECK; assumption
    | apply stable_CHECK_OK
    | apply stable_modify; intros ?; upd
    | match goal with
      | |- stable_for _ (if ?b then _ else _) => destruct b
      | |- stable_for _ (match ?x with _ => _ end) => destruct x
      end ].

Lemma same_last_refl l : same_last_entry_op_id l l.
Proof. reflexivity. Qed.

Lemma same_last_trans l1 l2 l3 :
  same_last_entry_op_id l1 l2 -> same_last_entry_op_id l2 l3 ->
  same_last_entry_op_id l1 l3.
Proof. unfold same_last_entry_op_id. congruence. Qed.

Lemma emit_same_last e : stable_for same_last_entry_op_id (emit e).
Proof. unfold emit. apply stable_modify. intros l. reflexivity. Qed.

Ltac same_last_steps :=
  pose proof same_last_refl as Hrefl_; pose proof same_last_trans as Htrans_;
  repeat first
    [ apply emit_same_last
    | progress (stable_steps ltac:(reflexivity)) ].

Lemma Sync_same_last f : stable_for same_last_entry_op_id (Sync f).
Proof. unfold Sync. same_last_steps. Qed.

Lemma RollOver_same_last f : stable_for same_last_entry_op_id (RollOver f).
Proof.
  unfold RollOver, SegmentAllocationTask, CloseCurrentSegment,
    SwitchToAllocatedSegment, ReplaceSegmentInReaderUnlocked.
  same_last_steps; try apply Sync_same_last.
Qed.

Lemma add_index_entries_same_last f entries start_offset :
  stable_for same_last_entry_op_id (add_index_entries f entries start_offset).
Proof.
  induction entries as [|e rest IH]; simpl.
  - apply stable_ret. apply same_last_refl.
  - same_last_steps; try exact IH.
Qed.

(** ** DoAppend and the last entry OpId *)

Lemma bind_run {A B} (c : M A) (k : A -> M B) l a l1 :
  c l = (Ret a, l1) -> bind c k l = k a l1.
Proof. intros E. unfold bind. now rewrite E. Qed.

Lemma new_events_refl l : new_events l l = [].
Proof. unfold new_events. apply skipn_all. Qed.

(** C6.  When [DoAppend] processes a REPLICATE batch, it sets
    [last_entry_op_id_] to the maximum replicate OpId of the batch before it
    writes the bytes of the batch, and nothing in [DoAppend] undoes it: from
    the call of [WriteEntryBatch] on, and after a [DoAppend] that returns OK
    for a batch that has bytes, [GetLatestEntryOpId] gives that OpId, whether
    or not an fsync has covered the bytes.  There is a run after which it
    gives an OpId whose bytes are written and not synced. *)
Theorem DoAppend_sets_last_entry_op_id_before_the_write
        (f : AppendFaults) (b : LogEntryBatch) (l l' : Log) (r : Outcome unit) :
  type_ b = REPLICATE ->
  DoAppend f b l = (r, l') ->
  (forall before after,
      new_events l l' = before ++ EvWriteEntryBatch b :: after ->
      In (EvSetLastEntryOpId (MaxReplicateOpId b)) before)
  /\ (In (EvWriteEntryBatch b) (new_events l l') ->
      GetLatestEntryOpId l' = MaxReplicateOpId b)
  /\ (r = Ret tt -> total_size_bytes_ b <> 0 ->
      GetLatestEntryOpId l' = MaxReplicateOpId b)
  /\ (exists l0 f0 b0 l1,
        type_ b0 = REPLICATE
        /\ DoAppend f0 b0 l0 = (Ret tt, l1)
        /\ GetLatestEntryOpId l1 = MaxReplicateOpId b0
        /\ In (EvWriteEntryBatch b0) (new_events l0 l1)
        /\ synced_offset (active_segment_ l1) < written_offset (active_segment_ l1)).
Proof.
  intros Htype E.
  assert (Hex : exists l0 f0 b0 l1,
        type_ b0 = REPLICATE
        /\ DoAppend f0 b0 l0 = (Ret tt, l1)
        /\ GetLatestEntryOpId l1 = MaxReplicateOpId b0
        /\ In (EvWriteEntryBatch b0) (new_events l0 l1)
        /\ synced_offset (active_segment_ l1) < written_offset (active_segment_ l1)).
  { exists example_log, no_append_faults, (replicate_batch (MakeOpId 2 7) 1).
    eexists. split; [reflexivity|]. split; [vm_compute; reflexivity|].
    split; [reflexivity|]. split; [vm_compute; tauto | vm_compute; reflexivity]. }
  unfold DoAppend in E.
  destruct (inject_io_error f) eqn:Hinj.
  { unfold fail in E. inversion E; subst r l'. rewrite new_events_refl.
    repeat split; auto.
    - intros [|x before] after H; discriminate.
    - intros [].
    - discriminate. }
  destruct (total_size_bytes_ b =? 0) eqn:Hbytes.
  { unfold ret in E. inversion E; subst r l'. rewrite new_events_refl.
    apply Z.eqb_eq in Hbytes.
    repeat split; auto.
    - intros [|x before] after H; discriminate.
    - intros [].
    - intros _ Hne. contradiction. }
  rewrite Htype in E. change (LogEntryTypePB_eqb REPLICATE REPLICATE) with true in E.
  cbv iota in E.
  match type of E with
  | bind _ ?k _ = _ => set (K := k) in E
  end.
  rewrite (bind_run _ K l tt
             (set_trace (trace_ l ++ [EvSetLastEntryOpId (MaxReplicateOpId b)])
                        (set_last_entry_op_id (Some (MaxReplicateOpId b)) l))
             eq_refl) in E.
  assert (Hq : quiet (K tt)).
  { unfold K, AsyncAllocateSegment, UpdateIndexForBatch, UpdateFooterForBatch.
    quiet_steps; try first [ apply quiet_RollOver | apply quiet_add_index_entries ]. }
  assert (Hs : stable_for same_last_entry_op_id (K tt)).
  { unfold K, AsyncAllocateSegment, UpdateIndexForBatch, UpdateFooterForBatch.
    same_last_steps;
      try first [ apply RollOver_same_last | apply add_index_entries_same_last ]. }
  destruct (Hq _ _ _ E) as (evs & Ht & _). simpl in Ht.
  specialize (Hs _ _ _ E). unfold same_last_entry_op_id in Hs. simpl in Hs.
  assert (Hnew : new_events l l' = EvSetLastEntryOpId (MaxReplicateOpId b) :: evs).
  { apply new_events_app. rewrite Ht, <- app_assoc. reflexivity. }
  assert (Hlast : GetLatestEntryOpId l' = MaxReplicateOpId b).
  { unfold GetLatestEntryOpId. now rewrite Hs. }
  rewrite Hnew. repeat split; auto.
  intros [|x before] after H.
  - discriminate.
  - injection H as <- _. now left.
Qed.

(** ** Reserve and GetLatestEntryOpId *)

(** C7.  A [Reserve] on a log that is being shut down (the log is still in
    the writing state and its entry queue was shut down) returns
    ServiceUnavailable with the message "WAL is shutting down"; nothing is
    handed back to the caller and the log, its queue included, is as it was. *)
Theorem Reserve_while_shutting_down
        (type : LogEntryTypePB) (entry_batch : LogEntryBatchPB) (l : Log) :
  log_state_ l = kLogWriting ->
  shutdown_ (entry_batch_queue_ l) = true ->
  Reserve type entry_batch l
    = (Fail (Error kServiceUnavailable "WAL is shutting down"), l).
Proof.
  intros Hstate Hshut.
  unfold Reserve, bind, gets, CHECK, BlockingPut. rewrite Hstate. simpl.
  unfold bind, gets. rewrite Hshut. reflexivity.
Qed.

(** C10.  While no REPLICATE batch has gone through [DoAppend], so that
    [last_entry_op_id_] is not initialized, [GetLatestEntryOpId] gives the
    minimum OpId (0,0). *)
Theorem GetLatestEntryOpId_of_an_empty_log (l : Log) :
  last_entry_op_id_ l = None ->
  GetLatestEntryOpId l = MakeOpId 0 0.
Proof. intros H. unfold GetLatestEntryOpId. now rewrite H. Qed.

(** ** UpdateConsensus *)

Lemma last_cons_nonempty {A} (x : A) (l : list A) d :
  l <> [] -> last (x :: l) d = last l d.
Proof. destruct l; [congruence | reflexivity]. Qed.

Lemma last_In {A} (l : list A) d : l <> [] -> In (last l d) l.
Proof.
  induction l as [|x l IH]; [congruence|]. intros _.
  destruct l as [|y l]; [now left|].
  right. apply IH. discriminate.
Qed.

Lemma last_app_nonempty {A} (l1 l2 : list A) d :
  l2 <> [] -> last (l1 ++ l2) d = last l2 d.
Proof.
  intros H. destruct (exists_last H) as (l & x & ->).
  now rewrite app_assoc, !last_last.
Qed.

Lemma last_default_irrelevant {A} (l : list A) d1 d2 :
  l <> [] -> last l d1 = last l d2.
Proof.
  induction l as [|x l IH]; [congruence|]. intros _.
  destruct l as [|y l]; [reflexivity|]. apply IH. discriminate.
Qed.

(** The last element of [x :: l] is the last of [l], or [x]. *)
Lemma last_cons {A} (x : A) (l : list A) d : last (x :: l) d = last l x.
Proof.
  destruct l as [|y l]; [reflexivity|].
  rewrite last_cons_nonempty by discriminate.
  apply last_default_irrelevant. discriminate.
Qed.

Lemma OpIdEquals_false a b : a <> b -> OpIdEquals a b = false.
Proof.
  intros H. destruct (OpIdEquals a b) eqn:E; [|reflexivity].
  apply OpIdEquals_spec in E. contradiction.
Qed.

(** *** What a change of term keeps *)

Lemma received_adopt_term t s : received (adopt_term t s) = received s.
Proof. unfold adopt_term. now destruct (current_term s <? t). Qed.

Lemma committed_idx_adopt_term t s : committed_idx (adopt_term t s) = committed_idx s.
Proof. unfold adopt_term. now destruct (current_term s <? t). Qed.

Lemma GetLastReceivedOpId_adopt_term t s :
  GetLastReceivedOpId (adopt_term t s) = GetLastReceivedOpId s.
Proof. unfold adopt_term. now destruct (current_term s <? t). Qed.

Lemma replica_holds_adopt_term t s id :
  replica_holds (adopt_term t s) id = replica_holds s id.
Proof. unfold adopt_term. now destruct (current_term s <? t). Qed.

Lemma skip_held_adopt_term t s previous operations :
  skip_held (adopt_term t s) previous operations = skip_held s previous operations.
Proof.
  revert previous. induction operations as [|o l IH]; intros previous;
    [reflexivity|].
  simpl. rewrite replica_holds_adopt_term, IH. reflexivity.
Qed.


Lemma in_order_adopt_term t s : in_order (adopt_term t s) = in_order s.
Proof. unfold adopt_term. now destruct (current_term s <? t). Qed.


(** *** The ops the replica holds *)

Lemma replica_holds_spec s id :
  replica_holds s id = true <-> index id <= committed_idx s \/ In id (received s).
Proof.
  unfold replica_holds. rewrite orb_true_iff, Z.leb_le, existsb_exists.
  split; (intros [H|H]; [now left | right]).
  - destruct H as (x & Hin & Heq). apply OpIdEquals_spec in Heq. now subst.
  - exists id. split; [exact H | now apply OpIdEquals_spec].
Qed.

Lemma replica_holds_false s id :
  replica_holds s id = false -> committed_idx s < index id /\ ~ In id (received s).
Proof.
  intros H. split.
  - destruct (Z.lt_ge_cases (committed_idx s) (index id)) as [Hlt|Hge]; [exact Hlt|].
    assert (Ht : replica_holds s id = true) by (apply replica_holds_spec; now left).
    congruence.
  - intros Hin.
    assert (Ht : replica_holds s id = true) by (apply replica_holds_spec; now right).
    congruence.
Qed.

Lemma in_order_spec s :
  in_order s = true <->
  committed_idx s <= index (GetLastReceivedOpId s)
  /\ forall o, In o (received s) -> index o <= index (GetLastReceivedOpId s).
Proof.
  unfold in_order. rewrite andb_true_iff, Z.leb_le, forallb_forall.
  split; intros [H1 H2]; (split; [exact H1|]); intros o Ho;
    specialize (H2 o Ho); now apply Z.leb_le.
Qed.

(** An op that a replica in order holds is not beyond its last-received op. *)
Lemma replica_holds_index s id :
  in_order s = true -> replica_holds s id = true ->
  index id <= index (GetLastReceivedOpId s).
Proof.
  intros Hord Hheld. apply in_order_spec in Hord. destruct Hord as [Hc Hall].
  apply replica_holds_spec in Hheld. destruct Hheld as [H|H]; [lia | now apply Hall].
Qed.

(** The ops skipped are a prefix of [ops[]] made of ops the replica holds,
    and the predecessor returned is the last of them. *)
Lemma skip_held_split s previous operations :
  exists skipped,
    operations = skipped ++ snd (skip_held s previous operations)
    /\ forallb (replica_holds s) skipped = true
    /\ fst (skip_held s previous operations) = last skipped previous.
Proof.
  revert previous. induction operations as [|o l IH]; intros previous.
  - exists []. repeat split.
  - simpl. destruct (replica_holds s o) eqn:Ho.
    + destruct (IH o) as (skipped & Hl & Hall & Hp).
      exists (o :: skipped). split; [simpl; now rewrite <- Hl|].
      split; [simpl; now rewrite Ho|].
      rewrite Hp. symmetry. apply last_cons.
    + exists []. repeat split.
Qed.

(** The first op that is left is one the replica does not hold. *)
Lemma skip_held_first s previous operations o rest :
  snd (skip_held s previous operations) = o :: rest -> replica_holds s o = false.
Proof.
  revert previous. induction operations as [|x l IH]; intros previous;
    [discriminate|].
  simpl. destruct (replica_holds s x) eqn:Hx.
  - apply IH.
  - simpl. intros H. injection H as -> _. exact Hx.
Qed.

(** The predecessor returned is an op the replica holds, if [previous] is. *)
Lemma skip_held_previous s previous operations :
  replica_holds s previous = true ->
  replica_holds s (fst (skip_held s previous operations)) = true.
Proof.
  revert previous. induction operations as [|x l IH]; intros previous Hp;
    [exact Hp|].
  simpl. destruct (replica_holds s x) eqn:Hx; [now apply IH | exact Hp].
Qed.

(** The last op that is left, or the last skipped when none is left, is the
    last op of the request, or its preceding id when it has no ops. *)
Lemma skip_held_last s previous operations :
  last (snd (skip_held s previous operations)) (fst (skip_held s previous operations))
  = last operations previous.
Proof.
  revert previous. induction operations as [|x l IH]; intros previous;
    [reflexivity|].
  rewrite last_cons. cbn [skip_held]. destruct (replica_holds s x); [apply IH|].
  cbn [fst snd]. apply last_cons.
Qed.

(** *** Order of the ops of a request *)

Lemma CheckOpInSequence_OK index_first previous current :
  CheckOpInSequence index_first previous current = OK
  <-> index current = index previous + 1 /\ term previous <= term current.
Proof.
  unfold CheckOpInSequence, index_error, term_error.
  destruct (index current =? index previous + 1) eqn:Hi;
    destruct (term current <? term previous) eqn:Ht;
    [apply Z.eqb_eq in Hi | apply Z.eqb_eq in Hi
     | apply Z.eqb_neq in Hi | apply Z.eqb_neq in Hi];
    [apply Z.ltb_lt in Ht | apply Z.ltb_ge in Ht
     | apply Z.ltb_lt in Ht | apply Z.ltb_ge in Ht];
    destruct index_first; simpl; split;
      first [discriminate | intros [? ?]; lia | intros _; lia | reflexivity].
Qed.

(** The status of the check for an op that breaks a rule. *)
Lemma CheckOpInSequence_bad index_first previous current :
  index current <> index previous + 1 \/ term current < term previous ->
  (term previous <= term current ->
   CheckOpInSequence index_first previous current = index_error previous current)
  /\ (index current = index previous + 1 ->
      CheckOpInSequence index_first previous current = term_error previous current)
  /\ (index current <> index previous + 1 -> term current < term previous ->
      CheckOpInSequence index_first previous current
      = if index_first then index_error previous current
        else term_error previous current).
Proof.
  intros Hbad. unfold CheckOpInSequence.
  destruct (index current =? index previous + 1) eqn:Hi;
    destruct (term current <? term previous) eqn:Ht;
    [apply Z.eqb_eq in Hi | apply Z.eqb_eq in Hi
     | apply Z.eqb_neq in Hi | apply Z.eqb_neq in Hi];
    [apply Z.ltb_lt in Ht | apply Z.ltb_ge in Ht
     | apply Z.ltb_lt in Ht | apply Z.ltb_ge in Ht];
    destruct index_first; simpl; repeat split; intros; try reflexivity; lia.
Qed.

Lemma CheckOpsInSequence_app index_first previous l1 l2 :
  CheckOpsInSequence index_first previous (l1 ++ l2) =
  match CheckOpsInSequence index_first previous l1 with
  | OK => CheckOpsInSequence index_first (last l1 previous) l2
  | e => e
  end.
Proof.
  revert previous. induction l1 as [|x l1 IH]; intros previous; [reflexivity|].
  cbn [app CheckOpsInSequence].
  destruct (CheckOpInSequence index_first previous x); [|reflexivity].
  rewrite IH, last_cons. reflexivity.
Qed.

(** Ops in sequence have increasing indexes, the last one the largest. *)
Lemma CheckOpsInSequence_indexes index_first previous operations :
  CheckOpsInSequence index_first previous operations = OK ->
  index previous <= index (last operations previous)
  /\ forall o, In o operations ->
               index previous < index o <= index (last operations previous).
Proof.
  revert previous. induction operations as [|x l IH]; intros previous E.
  - simpl. split; [lia | intros o []].
  - simpl in E.
    destruct (CheckOpInSequence index_first previous x) eqn:Ex; [|discriminate].
    apply CheckOpInSequence_OK in Ex. destruct Ex as [Hi _].
    destruct (IH x E) as [Hle Hall]. rewrite last_cons.
    split; [lia|]. intros o [<-|Ho]; [lia|].
    specialize (Hall o Ho). lia.
Qed.

(** Whether the ops are in sequence does not depend on the rule tested
    first. *)
Lemma CheckOpsInSequence_OK_order b b' previous operations :
  CheckOpsInSequence b previous operations = OK ->
  CheckOpsInSequence b' previous operations = OK.
Proof.
  revert previous. induction operations as [|x l IH]; intros previous E;
    [reflexivity|].
  simpl in *.
  destruct (CheckOpInSequence b previous x) eqn:Ex; [|discriminate].
  apply CheckOpInSequence_OK in Ex.
  apply (CheckOpInSequence_OK b') in Ex. rewrite Ex. now apply IH.
Qed.

(** *** The three answers of UpdateConsensus to a request whose term is not
    stale *)


(** A request that passed steps 1 and 2 and whose ops, once those the
    replica holds are skipped, are out of sequence is rejected with the
    status of the check, and the replica keeps its state. *)
Lemma UpdateConsensus_out_of_sequence index_first over_memory_limit s req c m :
  current_term s <= caller_term req ->
  replica_holds s (preceding_id req) = true ->
  CheckOpsInSequence index_first
    (fst (skip_held s (preceding_id req) (ops req)))
    (snd (skip_held s (preceding_id req) (ops req))) = Error c m ->
  UpdateConsensus index_first over_memory_limit s req
  = (adopt_term (caller_term req) s,
     respond (adopt_term (caller_term req) s) None (Some (Error c m))).
Proof.
  intros Hterm Hlmp Hcheck. unfold UpdateConsensus.
  replace (caller_term req <? current_term s) with false
    by (symmetry; apply Z.ltb_ge; lia).
  rewrite replica_holds_adopt_term, Hlmp, skip_held_adopt_term. simpl.
  rewrite Hcheck. reflexivity.
Qed.

(** The state an accepted request leaves. *)
Lemma UpdateConsensus_accepted index_first over_memory_limit s s' req resp :
  UpdateConsensus index_first over_memory_limit s req = (s', resp) ->
  accepted resp = true ->
  let s1 := adopt_term (caller_term req) s in
  let previous := fst (skip_held s (preceding_id req) (ops req)) in
  let operations := snd (skip_held s (preceding_id req) (ops req)) in
  current_term s <= caller_term req
  /\ replica_holds s (preceding_id req) = true
  /\ CheckOpsInSequence index_first previous operations = OK
  /\ current_term s' = current_term s1
  /\ received s' = replace_after previous operations (received s)
  /\ cur_leader_received s'
     = match operations with
       | [] => cur_leader_received s1
       | _ :: _ => last operations previous
       end
  /\ committed_idx s'
     = Z.max (committed_idx s)
             (Z.min (committed_index req) (index (last operations previous)))
  /\ resp = respond s' None None.
Proof.
  unfold UpdateConsensus. intros E Hacc.
  destruct (caller_term req <? current_term s) eqn:Hterm.
  { inversion E; subst. discriminate. }
  apply Z.ltb_ge in Hterm.
  rewrite replica_holds_adopt_term, skip_held_adopt_term in E.
  destruct (replica_holds s (preceding_id req)) eqn:Hlmp; simpl in E.
  2:{ inversion E; subst. discriminate. }
  destruct (CheckOpsInSequence index_first
              (fst (skip_held s (preceding_id req) (ops req)))
              (snd (skip_held s (preceding_id req) (ops req)))) eqn:Hseq.
  2:{ inversion E; subst. discriminate. }
  destruct over_memory_limit.
  { inversion E; subst. discriminate. }
  inversion E; subst s' resp; clear E. simpl.
  rewrite received_adopt_term.
  destruct (snd (skip_held s (preceding_id req) (ops req))); simpl;
    rewrite ?committed_idx_adopt_term; repeat split; lia.
Qed.

(** C2.  When a replica in order accepts an UpdateConsensus request, its
    committed index afterwards is the larger of its committed index before
    and the minimum of the committed index of the request and the index of
    the last op of the request (of its preceding id when it has no op).  It
    does not exceed the index of the last received operation, it does not
    move down, and a committed index in the request above the last op the
    leader sent commits up to that op only.  The replica stays in order. *)
Theorem commit_index_follows_the_last_op_sent
        (index_first over_memory_limit : bool) (s s' : ReplicaState)
        (req : ConsensusRequestPB) (resp : ConsensusResponsePB) :
  in_order s = true ->
  UpdateConsensus index_first over_memory_limit s req = (s', resp) ->
  accepted resp = true ->
  let last_sent := last (ops req) (preceding_id req) in
  committed_idx s'
    = Z.max (committed_idx s) (Z.min (committed_index req) (index last_sent))
  /\ committed_idx s' <= index (GetLastReceivedOpId s')
  /\ index last_sent <= index (GetLastReceivedOpId s')
  /\ committed_idx s <= committed_idx s'
  /\ (committed_idx s <= index last_sent < committed_index req ->
      committed_idx s' = index last_sent)
  /\ last_committed_idx (resp_status resp) = committed_idx s'
  /\ in_order s' = true.
Proof.
  intros Hord E Hacc last_sent.
  destruct (UpdateConsensus_accepted _ _ _ _ _ _ E Hacc)
    as (_ & Hlmp & Hseq & _ & Hrec & _ & Hc & Hresp).
  pose proof (skip_held_last s (preceding_id req) (ops req)) as Hlast.
  pose proof (skip_held_previous s (preceding_id req) (ops req) Hlmp) as Hprev.
  fold last_sent in Hlast.
  set (previous := fst (skip_held s (preceding_id req) (ops req))) in *.
  set (operations := snd (skip_held s (preceding_id req) (ops req))) in *.
  rewrite Hlast in Hc.
  assert (Hbound : index last_sent <= index (GetLastReceivedOpId s')
                   /\ committed_idx s <= index (GetLastReceivedOpId s')
                   /\ forall o, In o (received s') ->
                                index o <= index (GetLastReceivedOpId s')).
  { unfold GetLastReceivedOpId. rewrite Hrec.
    destruct operations as [|o rest] eqn:Hops.
    - simpl in Hlast. simpl replace_after.
      fold (GetLastReceivedOpId s).
      apply in_order_spec in Hord as Hord'. destruct Hord' as [Hcs Hall].
      split; [|split; [exact Hcs | exact Hall]].
      rewrite <- Hlast. now apply replica_holds_index.
    - unfold replace_after.
      rewrite last_app_nonempty by discriminate.
      rewrite (last_default_irrelevant (o :: rest) MinimumOpId previous)
        by discriminate.
      rewrite Hlast.
      destruct (CheckOpsInSequence_indexes _ _ _ Hseq) as [Hle Hall].
      rewrite Hlast in Hle, Hall.
      assert (Ho : committed_idx s < index o).
      { apply replica_holds_false.
        apply (skip_held_first s (preceding_id req) (ops req) o rest).
        exact Hops. }
      pose proof (Hall o (or_introl eq_refl)) as Hfirst.
      split; [lia|]. split; [lia|].
      intros x Hx. apply in_app_or in Hx. destruct Hx as [Hx|Hx].
      + apply filter_In in Hx. destruct Hx as [_ Hx]. apply Z.leb_le in Hx. lia.
      + specialize (Hall x Hx). lia. }
  destruct Hbound as (Hls & Hcs & Hall).
  split; [exact Hc|]. split; [lia|]. split; [exact Hls|]. split; [lia|].
  split; [lia|]. split; [now rewrite Hresp|].
  apply in_order_spec. split; [lia | exact Hall].
Qed.



(** C5.  Take a request that reached the check of its ops: its term is not
    stale and the replica holds its preceding id.  The ops at the front of
    [ops[]] that the replica holds are skipped; the predecessor of the first
    op that is left is the last op skipped, or the preceding id when none
    is.  Let [current] be the first op left that breaks a rule against its
    predecessor [previous]: its index is not that of [previous] plus one, or
    its term is smaller.  Then the request is rejected, the replica takes
    none of its ops, and the message is "New operation's index does not
    follow the previous op's index" when the index is the rule broken, "New
    operation's term is not >= than the previous op's term" when the term
    is, each followed by the two ids; an op that breaks both rules gets one
    of the two messages. *)
Theorem first_op_out_of_sequence_is_rejected
        (index_first over_memory_limit : bool) (s : ReplicaState)
        (req : ConsensusRequestPB)
        (in_sequence rest : list OpId) (current previous : OpId) :
  current_term s <= caller_term req ->
  replica_holds s (preceding_id req) = true ->
  snd (skip_held s (preceding_id req) (ops req)) = in_sequence ++ current :: rest ->
  CheckOpsInSequence index_first
    (fst (skip_held s (preceding_id req) (ops req))) in_sequence = OK ->
  previous = last in_sequence (fst (skip_held s (preceding_id req) (ops req))) ->
  index current <> index previous + 1 \/ term current < term previous ->
  let r := UpdateConsensus index_first over_memory_limit s req in
  accepted (snd r) = false
  /\ status_error (resp_status (snd r)) = None
  /\ received (fst r) = received s
  /\ committed_idx (fst r) = committed_idx s
  /\ (resp_error (snd r) = Some (index_error previous current)
      /\ index current <> index previous + 1
      \/ resp_error (snd r) = Some (term_error previous current)
         /\ term current < term previous)
  /\ (term previous <= term current ->
      resp_error (snd r)
      = Some (Error kInvalidArgument
                (index_error_text ++ current_previous_text current previous)%string))
  /\ (index current = index previous + 1 ->
      resp_error (snd r)
      = Some (Error kInvalidArgument
                (term_error_text ++ current_previous_text current previous)%string))
  /\ (index current <> index previous + 1 -> term current < term previous ->
      resp_error (snd r)
      = Some (if index_first then index_error previous current
              else term_error previous current)).
Proof.
  intros Hterm Hlmp Hops Hgood Hprev Hbad r.
  destruct (CheckOpInSequence_bad index_first previous current Hbad)
    as (Hindex & Hterm' & Hboth).
  assert (Hcheck : CheckOpsInSequence index_first
                     (fst (skip_held s (preceding_id req) (ops req)))
                     (snd (skip_held s (preceding_id req) (ops req)))
                   = CheckOpInSequence index_first previous current).
  { rewrite Hops, CheckOpsInSequence_app, Hgood, <- Hprev. simpl.
    destruct (CheckOpInSequence index_first previous current) eqn:Ec;
      [|reflexivity].
    apply CheckOpInSequence_OK in Ec. lia. }
  assert (Hr : forall c m,
             CheckOpInSequence index_first previous current = Error c m ->
             r = (adopt_term (caller_term req) s,
                  respond (adopt_term (caller_term req) s) None (Some (Error c m)))).
  { intros c m Ec. rewrite Ec in Hcheck.
    apply (UpdateConsensus_out_of_sequence index_first over_memory_limit s req c m
             Hterm Hlmp Hcheck). }
  assert (Hcases : CheckOpInSequence index_first previous current
                   = index_error previous current
                     /\ index current <> index previous + 1
                   \/ CheckOpInSequence index_first previous current
                      = term_error previous current
                      /\ term current < term previous).
  { destruct (Z.eq_dec (index current) (index previous + 1)) as [Hi|Hi].
    - right. split; [now apply Hterm' | lia].
    - destruct (Z.lt_ge_cases (term current) (term previous)) as [Ht|Ht].
      + rewrite (Hboth Hi Ht). destruct index_first; [left | right]; now split.
      + left. split; [apply Hindex; lia | exact Hi]. }
  assert (Hgen : exists c m,
             CheckOpInSequence index_first previous current = Error c m).
  { destruct Hcases as [[-> _]|[-> _]]; eexists; eexists; reflexivity. }
  destruct Hgen as (c & m & Ec). rewrite (Hr c m Ec). simpl.
  rewrite received_adopt_term, committed_idx_adopt_term.
  split; [reflexivity|]. split; [reflexivity|]. split; [reflexivity|].
  split; [reflexivity|]. rewrite <- Ec. split; [|split; [|split]].
  - destruct Hcases as [[-> Hi]|[-> Ht]]; [left | right]; now split.
  - intros Ht. now rewrite (Hindex Ht).
  - intros Hi. now rewrite (Hterm' Hi).
  - intros Hi Ht. now rewrite (Hboth Hi Ht).
Qed.

(** Conversely, when every op that is left is in sequence the request is
    not rejected for its ops. *)
Lemma ops_in_sequence_are_taken index_first s req :
  current_term s <= caller_term req ->
  replica_holds s (preceding_id req) = true ->
  CheckOpsInSequence index_first
    (fst (skip_held s (preceding_id req) (ops req)))
    (snd (skip_held s (preceding_id req) (ops req))) = OK ->
  accepted (snd (UpdateConsensus index_first false s req)) = true
  /\ resp_error (snd (UpdateConsensus index_first true s req))
     = Some soft_limit_status.
Proof.
  intros Hterm Hlmp Hseq. unfold UpdateConsensus.
  replace (caller_term req <? current_term s) with false
    by (symmetry; apply Z.ltb_ge; lia).
  rewrite replica_holds_adopt_term, Hlmp, skip_held_adopt_term. simpl.
  rewrite Hseq. split; reflexivity.
Qed.

(** ** The theorems at concrete inputs *)

(** With retention {for_durability = 100, for_peers = 51} the first segment
    goes and the second, which peers need, stays. *)
Example GetPrefixSizeToGC_scenario_peers_51 :
  GetPrefixSizeToGC scenario_flags {| for_durability := 100; for_peers := 51 |}
                    scenario_segments = 1.
Proof. reflexivity. Qed.

(** With retention {for_durability = 100, for_peers = 50}, as scenario 3
    gives it, the prefix is empty: the first segment holds op 50, which is
    not below [for_peers]. *)
Example GetPrefixSizeToGC_scenario_peers_50 :
  GetPrefixSizeToGC scenario_flags {| for_durability := 100; for_peers := 50 |}
                    scenario_segments = 0.
Proof. reflexivity. Qed.

(** Above the ceiling of segments to retain, peers no longer hold a segment
    back; durability still does. *)
Example GetPrefixSizeToGC_above_the_ceiling :
  GetPrefixSizeToGC {| FLAGS_log_min_segments_to_retain := 1;
                       FLAGS_log_max_segments_to_retain := 3 |}
                    {| for_durability := 100; for_peers := 10 |}
                    scenario_segments = 1.
Proof. reflexivity. Qed.

Lemma GetPrefixSizeToGC_deletable_prefix_witness :
  exists n : nat,
    GetPrefixSizeToGC scenario_flags {| for_durability := 100; for_peers := 51 |}
                      scenario_segments = Z.of_nat n
    /\ (n <= List.length scenario_segments)%nat.
Proof.
  destruct (GetPrefixSizeToGC_deletable_prefix
              scenario_flags {| for_durability := 100; for_peers := 51 |}
              scenario_segments) as (n & H1 & H2 & _).
  exists n. split; assumption.
Defined.

(** The appender's events of that pass. *)
Example example_group_events :
  appender_events example_log example_log_after =
  [ EvAppendAttempt 0; EvAppendReturned 0 injected_status;
    EvSetFailedToAppend 0; EvCallbackRun 0 10 injected_status;
    EvAppendAttempt 1; EvAppendReturned 1 OK;
    EvAppendAttempt 2; EvAppendReturned 2 OK;
    EvGroupSync; EvGroupSyncReturned fsync_status;
    EvCallbackRun 0 10 fsync_status; EvCallbackRun 1 11 fsync_status;
    EvCallbackRun 2 12 fsync_status;
    EvDeleteBatch 0; EvDeleteBatch 1; EvDeleteBatch 2 ].
Proof. vm_compute. reflexivity. Qed.

Lemma example_group_completes :
  RunThread_group example_drain_faults example_group example_log
  = (Ret tt, example_log_after).
Proof. vm_compute. reflexivity. Defined.

Lemma one_group_sync_unless_all_commits_witness :
  RunThread_group example_drain_faults example_group example_log
  = (Ret tt, example_log_after)
  /\ (group_syncs example_log example_log_after = 1%nat
      <-> exists b, In b example_group /\ type_ b <> COMMIT).
Proof.
  split; [exact example_group_completes|].
  apply (one_group_sync_unless_all_commits
           example_drain_faults example_group example_log example_log_after
           example_group_completes).
Defined.

Lemma failed_append_does_not_stop_the_pass_witness :
  (exists before after,
      appender_events example_log example_log_after =
        before ++ EvAppendReturned 0 injected_status :: EvSetFailedToAppend 0
               :: callback_view 0 (replicate_batch (MakeOpId 2 7) 10) injected_status
               ++ after
      /\ forall j, (0 < j < List.length example_group)%nat ->
                   In (EvAppendAttempt j) after)
  /\ (exists r l1 b',
        append_all example_drain_faults 0 example_group true example_log = (Ret r, l1)
        /\ nth_error (fst r) 0 = Some b'
        /\ failed_to_append_ b' = true
        /\ type_ b' = type_ (replicate_batch (MakeOpId 2 7) 10)
        /\ entry_batch_pb_ b' = entry_batch_pb_ (replicate_batch (MakeOpId 2 7) 10)
        /\ callback_ b' = callback_ (replicate_batch (MakeOpId 2 7) 10))
  /\ (forall c s', In (EvCallbackRun 0 c s')
                      (appender_events example_log example_log_after) ->
                   ok s' = false).
Proof.
  apply (failed_append_does_not_stop_the_pass
           example_drain_faults example_group example_log example_log_after
           0 (replicate_batch (MakeOpId 2 7) 10) injected_status).
  - exact example_group_completes.
  - reflexivity.
  - vm_compute. right. left. reflexivity.
  - reflexivity.
Defined.

Lemma failed_sync_runs_every_callback_witness :
  (forall i b c, nth_error example_group i = Some b -> callback_ b = Some c ->
     In (EvCallbackRun i c fsync_status)
        (appender_events example_log example_log_after))
  /\ (forall i b c e, nth_error example_group i = Some b -> callback_ b = Some c ->
        In (EvAppendReturned i e) (appender_events example_log example_log_after) ->
        ok e = false ->
        callback_runs i (appender_events example_log example_log_after)
        = [e; fsync_status]).
Proof.
  apply (failed_sync_runs_every_callback
           example_drain_faults example_group example_log example_log_after
           fsync_status).
  - exact example_group_completes.
  - vm_compute. do 9 right. left. reflexivity.
  - reflexivity.
Defined.

Example callback_of_failed_batch_runs_twice :
  callback_runs 0 (appender_events example_log example_log_after)
  = [injected_status; fsync_status].
Proof. vm_compute. reflexivity. Qed.

Lemma DoAppend_sets_last_entry_op_id_before_the_write_witness :
  GetLatestEntryOpId example_log_appended = MakeOpId 2 7
  /\ synced_offset (active_segment_ example_log_appended)
     < written_offset (active_segment_ example_log_appended).
Proof.
  destruct (DoAppend_sets_last_entry_op_id_before_the_write
              no_append_faults (replicate_batch (MakeOpId 2 7) 1)
              example_log example_log_appended (Ret tt)
              eq_refl eq_refl) as (_ & _ & Hlast & _).
  split.
  - apply Hlast; [reflexivity | simpl; lia].
  - vm_compute. reflexivity.
Defined.

Lemma Reserve_while_shutting_down_witness :
  Reserve COMMIT {| entry := [{| entry_type := COMMIT;
                                 replicate_id := MakeOpId 2 7 |}];
                    ByteSize := 16 |}
          example_log_shutting_down
  = (Fail (Error kServiceUnavailable "WAL is shutting down"),
     example_log_shutting_down).
Proof.
  apply Reserve_while_shutting_down; reflexivity.
Defined.

(** On an open queue the same call reserves the batch. *)
Example Reserve_on_open_queue :
  exists b l', Reserve COMMIT {| entry := [{| entry_type := COMMIT;
                                              replicate_id := MakeOpId 2 7 |}];
                                 ByteSize := 16 |} example_log = (Ret b, l')
               /\ list_ (entry_batch_queue_ l') = [b]
               /\ state_ b = kEntryReserved.
Proof. eexists; eexists. split; [vm_compute; reflexivity|]. split; reflexivity. Qed.

Lemma GetLatestEntryOpId_of_an_empty_log_witness :
  GetLatestEntryOpId example_log = MakeOpId 0 0.
Proof. apply GetLatestEntryOpId_of_an_empty_log. reflexivity. Defined.

(** *** The replica of the integration tests

    The three tests of raft_consensus-itest.cc that push requests to a
    single replica, request by request: the model answers each request as
    the test asserts, whichever rule of the sequence check is tested
    first. *)

(** TestReplicaBehaviorViaRPC: the first two requests are accepted and
    commit nothing new; the next two are rejected with the messages of the
    test and change nothing; op 2.3 sent again with the committed index 4
    commits 2.2 and 2.3 only and the replica keeps 2.4; the ops 2.5 and 2.6
    are then taken after 2.4, and 2.4 gets committed. *)
Example TestReplicaBehaviorViaRPC_requests (index_first : bool) :
  let push := UpdateConsensus index_first false in
  push replica_after_setup request_no_ops
  = (replica_in_term_2, respond replica_in_term_2 None None)
  /\ push replica_in_term_2 request_three_ops
     = (replica_with_three_ops, respond replica_with_three_ops None None)
  /\ fst (push replica_with_three_ops request_index_gap) = replica_with_three_ops
  /\ resp_error (snd (push replica_with_three_ops request_index_gap))
     = Some (Error kInvalidArgument
               "New operation's index does not follow the previous op's index. Current: 2.6. Previous: 2.4")
  /\ fst (push replica_with_three_ops request_term_goes_back) = replica_with_three_ops
  /\ resp_error (snd (push replica_with_three_ops request_term_goes_back))
     = Some (Error kInvalidArgument
               "New operation's term is not >= than the previous op's term. Current: 2.6. Previous: 3.5")
  /\ accepted (snd (push replica_with_three_ops request_sent_again)) = true
  /\ committed_idx (fst (push replica_with_three_ops request_sent_again)) = 3
  /\ received (fst (push replica_with_three_ops request_sent_again))
     = received replica_with_three_ops
  /\ accepted (snd (push (fst (push replica_with_three_ops request_sent_again))
                         request_more_ops)) = true
  /\ resp_status (snd (push (fst (push replica_with_three_ops request_sent_again))
                            request_more_ops))
     = {| last_received := MakeOpId 2 6;
          last_received_current_leader := MakeOpId 2 6;
          last_committed_idx := 4;
          status_error := None |}.
Proof. destruct index_first; vm_compute; repeat split. Qed.

(** The end of TestReplicaBehaviorViaRPC: each new leader replaces the ops
    5 and 6 of the leader before it, nothing more getting committed, and the
    last request commits up to index 6. *)
Example TestReplicaBehaviorViaRPC_new_leaders (index_first : bool) :
  let push := UpdateConsensus index_first false in
  fst (push (fst (push replica_with_three_ops request_sent_again)) request_more_ops)
  = replica_with_five_ops
  /\ accepted (snd (push replica_with_five_ops (request_new_leader 3))) = true
  /\ received (fst (push replica_with_five_ops (request_new_leader 3)))
     = [MakeOpId 1 1; MakeOpId 2 2; MakeOpId 2 3; MakeOpId 2 4;
        MakeOpId 3 5; MakeOpId 3 6]
  /\ committed_idx (fst (push replica_with_five_ops (request_new_leader 3))) = 4
  /\ accepted (snd (push (fst (push replica_with_five_ops (request_new_leader 3)))
                         (request_new_leader 4))) = true
  /\ received (fst (push (fst (push replica_with_five_ops (request_new_leader 3)))
                         (request_new_leader 4)))
     = [MakeOpId 1 1; MakeOpId 2 2; MakeOpId 2 3; MakeOpId 2 4;
        MakeOpId 4 5; MakeOpId 4 6]
  /\ accepted (snd (push (fst (push (fst (push replica_with_five_ops
                                               (request_new_leader 3)))
                                    (request_new_leader 4)))
                         (request_commit_replaced 4))) = true
  /\ committed_idx (fst (push (fst (push (fst (push replica_with_five_ops
                                                    (request_new_leader 3)))
                                         (request_new_leader 4)))
                              (request_commit_replaced 4))) = 6.
Proof. destruct index_first; vm_compute; repeat split. Qed.

(** TestEarlyCommitDespiteMemoryPressure: the first request is accepted and
    commits nothing new; the second is rejected for the memory limit, takes
    no op, and still commits the ops of the first. *)
Example TestEarlyCommitDespiteMemoryPressure_requests (index_first : bool) :
  let first := UpdateConsensus index_first false replica_after_setup
                               request_many_ops in
  let second := UpdateConsensus index_first true (fst first) request_one_more_op in
  accepted (snd first) = true
  /\ index (last_received (resp_status (snd first))) = 4
  /\ last_committed_idx (resp_status (snd first)) = 1
  /\ resp_error (snd second)
     = Some (Error kServiceUnavailable "Soft memory limit exceeded")
  /\ received (fst second) = received (fst first)
  /\ committed_idx (fst second) = 4.
Proof. destruct index_first; vm_compute; repeat split. Qed.

(** TestReplaceOperationStuckInPrepareQueue (scenario 5 of section 8): the
    request of term 3 whose preceding id is 2.3 is accepted on the replica
    that holds 2.2 to 2.4; 3.4 replaces 2.4 and 3.5 follows; the last
    request commits up to index 5. *)
Example TestReplaceOperationStuckInPrepareQueue_requests (index_first : bool) :
  let push := UpdateConsensus index_first false in
  push replica_after_setup request_upserts
  = (replica_with_upserts, respond replica_with_upserts None None)
  /\ accepted (snd (push replica_with_upserts request_replace)) = true
  /\ received (fst (push replica_with_upserts request_replace))
     = [MakeOpId 1 1; MakeOpId 2 2; MakeOpId 2 3; MakeOpId 3 4; MakeOpId 3 5]
  /\ committed_idx (fst (push replica_with_upserts request_replace)) = 2
  /\ accepted (snd (push (fst (push replica_with_upserts request_replace))
                         request_commit_all)) = true
  /\ committed_idx (fst (push (fst (push replica_with_upserts request_replace))
                              request_commit_all)) = 5.
Proof. destruct index_first; vm_compute; repeat split. Qed.

(** TestLMPMismatchOnRestartedReplica (scenario 4 of section 8): the two
    requests of term 2 are accepted, the second one committing through 2.2;
    once the COMMIT of 2.2 is in the WAL and the replica has restarted, the
    op 3.4 pushed after 3.3 gets the mismatch response of the test. *)
Example TestLMPMismatchOnRestartedReplica_requests (index_first : bool) :
  let push := UpdateConsensus index_first false in
  push replica_after_setup request_term_2
  = (replica_in_term_2, respond replica_in_term_2 None None)
  /\ accepted (snd (push replica_in_term_2 request_ops_from_2_1)) = true
  /\ commit_recorded (fst (push replica_in_term_2 request_ops_from_2_1))
     = replica_before_restart
  /\ resp_error (snd (push (restart replica_before_restart) request_after_restart))
     = None
  /\ resp_status (snd (push (restart replica_before_restart) request_after_restart))
     = {| last_received := MakeOpId 2 2;
          last_received_current_leader := MakeOpId 0 0;
          last_committed_idx := 2;
          status_error := Some PRECEDING_ENTRY_DIDNT_MATCH |}.
Proof. destruct index_first; vm_compute; repeat split. Qed.

(** The committed index that an accepted request leaves is not always the
    minimum of the committed index of the request and the index of the last
    received op, as two requests of the tests show.  Op 2.3 sent again with
    the committed index 4 (TestReplicaBehaviorViaRPC, KUDU-639) is accepted
    by the replica that holds 2.2 to 2.4 and leaves the committed index 3,
    where the minimum is 4.  The request with no ops and no committed index
    (TestLMPMismatchOnRestartedReplica) is accepted and leaves the committed
    index 1, where the minimum is 0. *)
Lemma committed_index_is_not_the_minimum_with_last_received :
  (accepted (snd (UpdateConsensus true false replica_with_three_ops
                                  request_sent_again)) = true
   /\ committed_idx (fst (UpdateConsensus true false replica_with_three_ops
                                          request_sent_again)) = 3
   /\ Z.min (committed_index request_sent_again)
            (index (GetLastReceivedOpId
                      (fst (UpdateConsensus true false replica_with_three_ops
                                            request_sent_again)))) = 4)
  /\ (accepted (snd (UpdateConsensus true false replica_after_setup
                                     request_term_2)) = true
      /\ committed_idx (fst (UpdateConsensus true false replica_after_setup
                                             request_term_2)) = 1
      /\ Z.min (committed_index request_term_2)
               (index (GetLastReceivedOpId
                         (fst (UpdateConsensus true false replica_after_setup
                                               request_term_2)))) = 0).
Proof. vm_compute. repeat split. Qed.

Lemma commit_index_follows_the_last_op_sent_witness :
  in_order replica_with_three_ops = true
  /\ accepted (snd (UpdateConsensus true false replica_with_three_ops
                                    request_sent_again)) = true
  /\ committed_idx (fst (UpdateConsensus true false replica_with_three_ops
                                         request_sent_again)) = 3
  /\ committed_idx (fst (UpdateConsensus true false replica_with_three_ops
                                         request_sent_again))
     <= index (GetLastReceivedOpId
                 (fst (UpdateConsensus true false replica_with_three_ops
                                       request_sent_again))).
Proof.
  split; [reflexivity|]. split; [reflexivity|].
  destruct (commit_index_follows_the_last_op_sent
              true false replica_with_three_ops
              (fst (UpdateConsensus true false replica_with_three_ops
                                    request_sent_again))
              request_sent_again
              (snd (UpdateConsensus true false replica_with_three_ops
                                    request_sent_again))
              eq_refl eq_refl eq_refl) as (_ & Hle & _ & _ & Hcap & _).
  split; [|exact Hle].
  apply Hcap. simpl. lia.
Defined.



(** An op whose index is not that of its predecessor plus one, the
    preceding id being the predecessor of the first op, does not always get
    the request rejected: the first op 2.1 of the second request of
    TestLMPMismatchOnRestartedReplica has the index of its preceding id 1.1,
    and the request is accepted. *)
Lemma op_at_the_committed_index_is_not_rejected :
  ops request_ops_from_2_1 = [MakeOpId 2 1; MakeOpId 2 2; MakeOpId 2 3]
  /\ preceding_id request_ops_from_2_1 = MakeOpId 1 1
  /\ (index (MakeOpId 2 1) =? index (MakeOpId 1 1) + 1) = false
  /\ resp_error (snd (UpdateConsensus true false replica_in_term_2
                                      request_ops_from_2_1)) = None
  /\ accepted (snd (UpdateConsensus true false replica_in_term_2
                                    request_ops_from_2_1)) = true.
Proof. vm_compute. repeat split. Qed.

Lemma first_op_out_of_sequence_is_rejected_witness :
  resp_error (snd (UpdateConsensus true false replica_with_three_ops
                                   request_term_goes_back))
  = Some (Error kInvalidArgument
            "New operation's term is not >= than the previous op's term. Current: 2.6. Previous: 3.5")
  /\ resp_error (snd (UpdateConsensus false false replica_with_three_ops
                                      request_index_gap))
     = Some (Error kInvalidArgument
               "New operation's index does not follow the previous op's index. Current: 2.6. Previous: 2.4").
Proof.
  assert (Hterm : current_term replica_with_three_ops <= 2).
  { change (2 <= 2). lia. }
  split.
  - destruct (first_op_out_of_sequence_is_rejected
                true false replica_with_three_ops request_term_goes_back
                [MakeOpId 3 5] [] (MakeOpId 2 6) (MakeOpId 3 5)
                Hterm eq_refl eq_refl eq_refl eq_refl)
      as (_ & _ & _ & _ & _ & _ & Hmsg & _).
    + right. simpl. lia.
    + apply Hmsg. reflexivity.
  - destruct (first_op_out_of_sequence_is_rejected
                false false replica_with_three_ops request_index_gap
                [] [] (MakeOpId 2 6) (MakeOpId 2 4)
                Hterm eq_refl eq_refl eq_refl eq_refl)
      as (_ & _ & _ & _ & _ & Hmsg & _).
    + left. simpl. lia.
    + apply Hmsg. simpl. lia.
Defined.

(** *** A rollover inside a pass

    When the next segment is already allocated, the [DoAppend] of the first
    batch rolls over, and [RollOver] syncs the segment it closes.  For a
    group of COMMIT batches only, that is the one [Sync] of the pass; the
    appender still issues none for the group. *)
Example rollover_syncs_the_closed_segment :
  let l := set_allocation_state kAllocationFinished example_log in
  let f := {| append_faults := fun _ => no_append_faults;
              group_sync := no_sync_faults |} in
  let bs := [commit_batch (MakeOpId 2 6) 11; commit_batch (MakeOpId 2 7) 12] in
  let l' := snd (RunThread_group f bs l) in
  fst (RunThread_group f bs l) = Ret tt
  /\ group_syncs l l' = 0%nat
  /\ filter (fun e => match e with EvSync | EvFsync _ => true | _ => false end)
            (new_events l l') = [EvSync; EvFsync 100]
  /\ active_segment_sequence_number_ l' = 2.
Proof. vm_compute. repeat split. Qed.

(** * More properties of log.cc *)

(** ** Garbage collection *)

Lemma stops_gc_antitone flags (r r' : RetentionIndexes) remaining seg :
  for_durability r <= for_durability r' ->
  for_peers r <= for_peers r' ->
  stops_gc flags r' remaining seg = true ->
  stops_gc flags r remaining seg = true.
Proof.
  intros Hd Hp. unfold stops_gc. destruct (footer_ seg) as [ft|]; [|auto].
  rewrite !orb_true_iff, !andb_true_iff, !Z.geb_le, !Z.leb_le. intuition lia.
Qed.

Lemma GetPrefixSizeToGC_loop_monotone flags r r' segments :
  for_durability r <= for_durability r' ->
  for_peers r <= for_peers r' ->
  forall rem_segs prefix_size,
    GetPrefixSizeToGC_loop flags r segments rem_segs prefix_size
    <= GetPrefixSizeToGC_loop flags r' segments rem_segs prefix_size.
Proof.
  intros Hd Hp.
  induction segments as [|segment rest IH]; intros rem_segs prefix_size.
  - simpl. lia.
  - rewrite !GetPrefixSizeToGC_loop_step.
    destruct (stops_gc flags r' rem_segs segment) eqn:Hstop'.
    + rewrite (stops_gc_antitone flags r r' _ _ Hd Hp Hstop'). lia.
    + destruct (stops_gc flags r rem_segs segment); [|apply IH].
      destruct (GetPrefixSizeToGC_loop_spec flags r' rest (rem_segs - 1)
                  (prefix_size + 1)) as (k & -> & _).
      lia.
Qed.

(** X1.  Raising the retention indexes never shrinks the prefix: if both
    indexes of [r'] are at least those of [r], every segment GC would delete
    under [r] it also deletes under [r']. *)
Theorem GetPrefixSizeToGC_monotone
        (flags : Flags) (r r' : RetentionIndexes) (segments : SegmentSequence) :
  for_durability r <= for_durability r' ->
  for_peers r <= for_peers r' ->
  GetPrefixSizeToGC flags r segments <= GetPrefixSizeToGC flags r' segments.
Proof.
  intros Hd Hp. unfold GetPrefixSizeToGC.
  now apply GetPrefixSizeToGC_loop_monotone.
Qed.

Lemma GetPrefixSizeToGC_monotone_witness :
  GetPrefixSizeToGC scenario_flags {| for_durability := 100; for_peers := 50 |}
                    scenario_segments
  <= GetPrefixSizeToGC scenario_flags {| for_durability := 160; for_peers := 120 |}
                       scenario_segments.
Proof. apply GetPrefixSizeToGC_monotone; simpl; lia. Defined.

(** X2.  GC is idempotent: on the segments that are left once the prefix is
    gone, the same retention gives an empty prefix. *)
Theorem GetPrefixSizeToGC_nothing_left_to_delete
        (flags : Flags) (retention : RetentionIndexes) (segments : SegmentSequence) :
  GetPrefixSizeToGC flags retention
    (skipn (Z.to_nat (GetPrefixSizeToGC flags retention segments)) segments) = 0.
Proof.
  unfold GetPrefixSizeToGC at 2.
  destruct (GetPrefixSizeToGC_loop_spec flags retention segments
              (Z.of_nat (List.length segments)) 0)
    as (n & Hn & Hlen & _ & Hat).
  rewrite Hn, Z.add_0_l, Nat2Z.id.
  destruct (skipn n segments) as [|seg rest] eqn:Hskip; [reflexivity|].
  unfold GetPrefixSizeToGC. rewrite GetPrefixSizeToGC_loop_step.
  assert (Hnth : nth_error segments n = Some seg).
  { rewrite <- (firstn_skipn n segments) at 1.
    rewrite nth_error_app2 by (rewrite length_firstn; lia).
    rewrite length_firstn, Nat.min_l, Nat.sub_diag, Hskip by lia. reflexivity. }
  assert (Hrem : Z.of_nat (List.length (seg :: rest))
                 = Z.of_nat (List.length segments) - Z.of_nat n).
  { rewrite <- Hskip, length_skipn. lia. }
  rewrite Hrem, (Hat seg Hnth). reflexivity.
Qed.

Lemma GetPrefixSizeToGC_loop_floor flags retention segments :
  forall rem_segs prefix_size,
    GetPrefixSizeToGC_loop flags retention segments rem_segs prefix_size = prefix_size
    \/ FLAGS_log_min_segments_to_retain flags
       <= rem_segs - (GetPrefixSizeToGC_loop flags retention segments rem_segs
                                              prefix_size - prefix_size).
Proof.
  induction segments as [|segment rest IH]; intros rem_segs prefix_size.
  - now left.
  - simpl.
    destruct (rem_segs <=? FLAGS_log_min_segments_to_retain flags) eqn:Hmin;
      [now left|].
    apply Z.leb_gt in Hmin.
    destruct (footer_ segment) as [ft|]; [|now left].
    destruct (max_replicate_index ft >=? for_durability retention); [now left|].
    destruct ((max_replicate_index ft >=? for_peers retention)
              && (rem_segs <=? FLAGS_log_max_segments_to_retain flags));
      [now left|].
    right. destruct (IH (rem_segs - 1) (prefix_size + 1)) as [H|H].
    + rewrite H. lia.
    + lia.
Qed.

(** X3.  GC respects the floor of segments to retain: either it deletes
    nothing, or at least [log_min_segments_to_retain] segments are left.
    With a floor that passes the flag's validator, a log with segments is
    never emptied. *)
Theorem GetPrefixSizeToGC_keeps_the_floor
        (flags : Flags) (retention : RetentionIndexes) (segments : SegmentSequence) :
  let n := GetPrefixSizeToGC flags retention segments in
  (n = 0 \/ FLAGS_log_min_segments_to_retain flags
            <= Z.of_nat (List.length segments) - n)
  /\ (ValidateLogsToRetain (FLAGS_log_min_segments_to_retain flags) = true ->
      segments <> [] -> n < Z.of_nat (List.length segments)).
Proof.
  intros n.
  assert (Hfloor : n = 0 \/ FLAGS_log_min_segments_to_retain flags
                            <= Z.of_nat (List.length segments) - n).
  { unfold n, GetPrefixSizeToGC.
    destruct (GetPrefixSizeToGC_loop_floor flags retention segments
                (Z.of_nat (List.length segments)) 0) as [H|H].
    - left. exact H.
    - right. lia. }
  split; [exact Hfloor|].
  unfold ValidateLogsToRetain. intros Hvalid Hne.
  apply Z.geb_le in Hvalid.
  assert (0 < Z.of_nat (List.length segments)).
  { destruct segments; [congruence | simpl; lia]. }
  destruct Hfloor; lia.
Qed.

Lemma deleted_paths_app evs1 evs2 :
  deleted_paths (evs1 ++ evs2) = deleted_paths evs1 ++ deleted_paths evs2.
Proof. apply flat_map_app. Qed.

(** The deletion loop when every deletion succeeds. *)
Lemma delete_segments_all f segs :
  (forall seg, In seg segs -> DeleteFile f (path seg) = OK) ->
  forall num_gced l,
  exists l',
    delete_segments f segs num_gced l
      = (Ret tt, num_gced + Z.of_nat (List.length segs), l')
    /\ trace_ l' = trace_ l ++ map (fun seg => EvDeleteFile (path seg)) segs
    /\ reader_ l' = reader_ l /\ log_index_ l' = log_index_ l.
Proof.
  induction segs as [|seg rest IH]; intros Hok num_gced l.
  - exists l. simpl. rewrite Z.add_0_r, app_nil_r. auto.
  - simpl delete_segments. rewrite (Hok seg (or_introl eq_refl)).
    edestruct (IH (fun s H => Hok s (or_intror H)) (num_gced + 1)) as (l' & E & T & Hr & Hi).
    exists l'. rewrite E. split; [f_equal; f_equal; simpl List.length; lia|].
    rewrite T. simpl. rewrite <- app_assoc. auto.
Qed.

(** The deletion loop when the deletion of [bad] is the first to fail. *)
Lemma delete_segments_until f done bad rest c m :
  (forall seg, In seg done -> DeleteFile f (path seg) = OK) ->
  DeleteFile f (path bad) = Error c m ->
  forall num_gced l,
  exists l',
    delete_segments f (done ++ bad :: rest) num_gced l
      = (Fail (Error c m), num_gced + Z.of_nat (List.length done), l')
    /\ trace_ l' = trace_ l
                   ++ map (fun seg => EvDeleteFile (path seg)) (done ++ [bad]).
Proof.
  intros Hok Hbad. induction done as [|seg done IH]; intros num_gced l.
  - simpl. rewrite Hbad. eexists. split; [f_equal; f_equal; lia | reflexivity].
  - simpl app. simpl delete_segments. rewrite (Hok seg (or_introl eq_refl)).
    edestruct (IH (fun s H => Hok s (or_intror H)) (num_gced + 1)) as (l' & E & T).
    exists l'. rewrite E. split; [f_equal; f_equal; simpl List.length; lia|].
    rewrite T. simpl. rewrite <- app_assoc. reflexivity.
Qed.

Lemma deleted_paths_of_deletions (segs : SegmentSequence) :
  deleted_paths (map (fun seg => EvDeleteFile (path seg)) segs) = map path segs.
Proof. induction segs as [|seg rest IH]; simpl; [reflexivity | now rewrite IH]. Qed.

(** What [GC] does up to and including the trim of the reader, when its
    checks pass and the prefix is not empty. *)
Lemma GC_until_deletions flags f retention num_gced l :
  0 <= for_durability retention ->
  log_state_ l = kLogWriting ->
  GetSegmentsSnapshot f = OK ->
  TrimSegments_status f = OK ->
  let prefix := firstn (Z.to_nat (GetPrefixSizeToGC flags retention
                                    (segments_ (reader_ l))))
                       (segments_ (reader_ l)) in
  forall last_segment before, rev prefix = last_segment :: before ->
  exists l2,
    trace_ l2 = trace_ l ++ [EvTrimSegments (sequence_number last_segment)]
    /\ GC flags f retention num_gced l =
       match delete_segments f prefix 0 l2 with
       | (Ret _, n, l3) =>
           match GetMinReplicateIndex (segments_ (reader_ l3)) with
           | Some min_remaining_op_idx =>
               if min_remaining_op_idx >? 0
               then (Ret tt, n,
                     set_log_index
                       {| index_entries := index_entries (log_index_ l3);
                          index_gc_bound := Some min_remaining_op_idx |}
                       (set_trace (trace_ l3 ++ [EvIndexGC min_remaining_op_idx]) l3))
               else (Ret tt, n, l3)
           | None => (Ret tt, n, l3)
           end
       | r => r
       end.
Proof.
  intros Hdur Hstate Hsnap Htrim prefix last_segment before Hrev.
  unfold GC.
  replace (for_durability retention >=? 0) with true
    by (symmetry; apply Z.geb_le; lia).
  rewrite Hstate. simpl.
  unfold GetSegmentsToGCUnlocked, bind, RETURN_NOT_OK, gets, ret.
  rewrite Hsnap. simpl. fold prefix. rewrite Hrev.
  unfold TrimSegmentsUpToAndIncluding, bind, RETURN_NOT_OK. rewrite Htrim. simpl.
  eexists. split; [|reflexivity]. reflexivity.
Qed.

Lemma GC_success
        (flags : Flags) (f : GCFaults) (retention : RetentionIndexes)
        (num_gced : Z) (l : Log) :
  0 <= for_durability retention ->
  log_state_ l = kLogWriting ->
  GetSegmentsSnapshot f = OK ->
  TrimSegments_status f = OK ->
  let prefix := firstn (Z.to_nat (GetPrefixSizeToGC flags retention
                                    (segments_ (reader_ l))))
                       (segments_ (reader_ l)) in
  (forall seg, In seg prefix -> DeleteFile f (path seg) = OK) ->
  exists l',
    GC flags f retention num_gced l = (Ret tt, Z.of_nat (List.length prefix), l')
    /\ deleted_paths (new_events l l') = map path prefix
    /\ (prefix <> [] -> forall d,
          In (EvTrimSegments (sequence_number (last prefix d))) (new_events l l')).
Proof.
  intros Hdur Hstate Hsnap Htrim prefix Hok.
  destruct (rev prefix) as [|last_segment before] eqn:Hrev.
  - assert (Hnil : prefix = []).
    { rewrite <- (rev_involutive prefix), Hrev. reflexivity. }
    exists l. rewrite Hnil. simpl.
    assert (Hzero : GetPrefixSizeToGC flags retention (segments_ (reader_ l)) = 0).
    { destruct (GetPrefixSizeToGC_loop_spec flags retention (segments_ (reader_ l))
                  (Z.of_nat (List.length (segments_ (reader_ l)))) 0)
        as (n & Hn & Hlen & _).
      unfold prefix, GetPrefixSizeToGC in Hnil. unfold GetPrefixSizeToGC.
      rewrite Hn, Z.add_0_l, Nat2Z.id in Hnil. rewrite Hn.
      destruct n; [reflexivity|].
      destruct (segments_ (reader_ l)); simpl in *; [lia | discriminate]. }
    rewrite (GC_nothing_to_delete flags f retention num_gced l Hdur Hstate Hsnap Hzero).
    rewrite new_events_refl. split; [reflexivity|]. split; [reflexivity|].
    intros Hne. congruence.
  - destruct (GC_until_deletions flags f retention num_gced l Hdur Hstate Hsnap
                Htrim last_segment before Hrev) as (l2 & T2 & ->).
    fold prefix.
    destruct (delete_segments_all f prefix Hok 0 l2) as (l3 & -> & T3 & _ & _).
    assert (Hlast : forall d, last prefix d = last_segment).
    { intros d. rewrite <- (rev_involutive prefix), Hrev. simpl.
      apply last_last. }
    destruct (GetMinReplicateIndex (segments_ (reader_ l3))) as [m|];
      [destruct (m >? 0)|]; eexists; (split; [reflexivity|]).
    + rewrite (@new_events_app l _
                 ([EvTrimSegments (sequence_number last_segment)]
                    ++ map (fun seg => EvDeleteFile (path seg)) prefix
                    ++ [EvIndexGC m])).
      * rewrite !deleted_paths_app, deleted_paths_of_deletions. simpl.
        rewrite app_nil_r. split; [reflexivity|].
        intros _ d. rewrite Hlast. now left.
      * simpl. rewrite T3, T2, <- !app_assoc. reflexivity.
    + rewrite (@new_events_app l _
                 ([EvTrimSegments (sequence_number last_segment)]
                    ++ map (fun seg => EvDeleteFile (path seg)) prefix)).
      * rewrite !deleted_paths_app, deleted_paths_of_deletions. simpl.
        split; [reflexivity|].
        intros _ d. rewrite Hlast. now left.
      * rewrite T3, T2, <- !app_assoc. reflexivity.
    + rewrite (@new_events_app l _
                 ([EvTrimSegments (sequence_number last_segment)]
                    ++ map (fun seg => EvDeleteFile (path seg)) prefix)).
      * rewrite !deleted_paths_app, deleted_paths_of_deletions. simpl.
        split; [reflexivity|].
        intros _ d. rewrite Hlast. now left.
      * rewrite T3, T2, <- !app_assoc. reflexivity.
Qed.

(** X4.  A [GC] whose deletions all succeed asks the reader to trim up to the
    sequence number of the last segment of the prefix, deletes the files of
    the prefix in their order, no other file, and reports their number in
    [num_gced]. *)
Theorem GC_deletes_the_prefix_in_order
        (flags : Flags) (f : GCFaults) (retention : RetentionIndexes)
        (num_gced : Z) (l : Log) :
  0 <= for_durability retention ->
  log_state_ l = kLogWriting ->
  GetSegmentsSnapshot f = OK ->
  TrimSegments_status f = OK ->
  let prefix := firstn (Z.to_nat (GetPrefixSizeToGC flags retention
                                    (segments_ (reader_ l))))
                       (segments_ (reader_ l)) in
  (forall seg, In seg prefix -> DeleteFile f (path seg) = OK) ->
  exists l',
    GC flags f retention num_gced l = (Ret tt, Z.of_nat (List.length prefix), l')
    /\ deleted_paths (new_events l l') = map path prefix
    /\ (prefix <> [] -> forall d,
          In (EvTrimSegments (sequence_number (last prefix d))) (new_events l l')).
Proof. exact (GC_success flags f retention num_gced l). Qed.

Lemma GC_deletes_the_prefix_in_order_witness :
  exists l',
    GC scenario_flags no_gc_faults {| for_durability := 160; for_peers := 120 |}
       7 scenario_log = (Ret tt, 2, l')
    /\ deleted_paths (new_events scenario_log l')
       = ["wal-000000001"; "wal-000000002"].
Proof.
  destruct (GC_deletes_the_prefix_in_order
              scenario_flags no_gc_faults
              {| for_durability := 160; for_peers := 120 |} 7 scenario_log)
    as (l' & E & P & _); try reflexivity.
  - simpl. lia.
  - exists l'. split; [exact E | exact P].
Defined.

(** X5.  When the deletion of a file fails, [GC] returns that status at
    once: [num_gced] counts the files deleted before it, the files after it
    are not touched and the index is not collected, although the reader was
    already trimmed of the whole prefix. *)
Theorem GC_stops_at_the_first_failed_deletion
        (flags : Flags) (f : GCFaults) (retention : RetentionIndexes)
        (num_gced : Z) (l : Log)
        (done rest : SegmentSequence) (bad : ReadableLogSegment)
        (c : StatusCode) (m : string) :
  0 <= for_durability retention ->
  log_state_ l = kLogWriting ->
  GetSegmentsSnapshot f = OK ->
  TrimSegments_status f = OK ->
  firstn (Z.to_nat (GetPrefixSizeToGC flags retention (segments_ (reader_ l))))
         (segments_ (reader_ l)) = done ++ bad :: rest ->
  (forall seg, In seg done -> DeleteFile f (path seg) = OK) ->
  DeleteFile f (path bad) = Error c m ->
  exists l',
    GC flags f retention num_gced l
      = (Fail (Error c m), Z.of_nat (List.length done), l')
    /\ deleted_paths (new_events l l') = map path (done ++ [bad])
    /\ In (EvTrimSegments (sequence_number (last rest bad))) (new_events l l')
    /\ (forall bound, ~ In (EvIndexGC bound) (new_events l l')).
Proof.
  intros Hdur Hstate Hsnap Htrim Hprefix Hok Hbad.
  destruct (rev (done ++ bad :: rest)) as [|last_segment before] eqn:Hrev.
  { apply (f_equal (@List.length _)) in Hrev.
    rewrite length_rev, length_app in Hrev. simpl in Hrev. lia. }
  assert (Hlast : last_segment = last rest bad).
  { assert (H : last (done ++ bad :: rest) bad = last_segment).
    { rewrite <- (rev_involutive (done ++ bad :: rest)), Hrev. simpl.
      apply last_last. }
    rewrite <- H. rewrite last_app_nonempty by discriminate.
    destruct rest; reflexivity. }
  rewrite <- Hprefix in Hrev.
  destruct (GC_until_deletions flags f retention num_gced l Hdur Hstate Hsnap
              Htrim last_segment before Hrev) as (l2 & T2 & ->).
  rewrite Hprefix.
  destruct (delete_segments_until f done bad rest c m Hok Hbad 0 l2)
    as (l3 & -> & T3).
  exists l3. split; [reflexivity|].
  rewrite (@new_events_app l l3
             ([EvTrimSegments (sequence_number last_segment)]
                ++ map (fun seg => EvDeleteFile (path seg)) (done ++ [bad])))
    by (rewrite T3, T2, <- !app_assoc; reflexivity).
  split; [|split].
  - rewrite deleted_paths_app, deleted_paths_of_deletions. reflexivity.
  - rewrite Hlast. now left.
  - intros bound [H|H]; [discriminate|].
    apply in_map_iff in H. destruct H as (seg & H & _). discriminate.
Qed.

Lemma GC_stops_at_the_first_failed_deletion_witness :
  exists l',
    GC scenario_flags second_delete_fails
       {| for_durability := 160; for_peers := 120 |} 7 scenario_log
      = (Fail (Error kIOError "unlink failed"), 1, l')
    /\ deleted_paths (new_events scenario_log l')
       = ["wal-000000001"; "wal-000000002"].
Proof.
  destruct (GC_stops_at_the_first_failed_deletion
              scenario_flags second_delete_fails
              {| for_durability := 160; for_peers := 120 |} 7 scenario_log
              (firstn 1 scenario_segments) []
              {| sequence_number := 2; path := "wal-000000002"; file_size := 1000;
                 footer_ := footer_upto 51 100 |}
              kIOError "unlink failed")
    as (l' & E & P & _); try reflexivity.
  - simpl. lia.
  - intros seg [<-|[]]. reflexivity.
  - exists l'. split; [exact E | exact P].
Defined.

Lemma fold_left_file_size (segs : SegmentSequence) : forall total,
  fold_left (fun total segment => total + file_size segment) segs total
  = total + total_file_size segs.
Proof.
  induction segs as [|seg rest IH]; intros total; simpl; [lia|].
  rewrite IH. lia.
Qed.

(** X6.  [GetGCableDataSize] gives the sum of the file sizes of the prefix of
    the reader's segments that [GetPrefixSizeToGC] selects, which are exactly
    the segments that a [GC] with the same retention deletes when its
    deletions succeed; it gives 0 when the snapshot of the reader fails. *)
Theorem GetGCableDataSize_is_the_size_of_what_GC_deletes
        (flags : Flags) (f : GCFaults) (retention : RetentionIndexes) (l : Log) :
  0 <= for_durability retention ->
  log_state_ l = kLogWriting ->
  let prefix :=
    firstn (Z.to_nat (GetPrefixSizeToGC flags retention (segments_ (reader_ l))))
           (segments_ (reader_ l)) in
  (GetSegmentsSnapshot f = OK ->
   GetGCableDataSize flags f retention l
   = Ret (total_file_size prefix)
   /\ (TrimSegments_status f = OK ->
       (forall seg, In seg prefix -> DeleteFile f (path seg) = OK) ->
       forall num_gced, exists l',
         GC flags f retention num_gced l
           = (Ret tt, Z.of_nat (List.length prefix), l')
         /\ deleted_paths (new_events l l') = map path prefix))
  /\ (GetSegmentsSnapshot f <> OK ->
      GetGCableDataSize flags f retention l = Ret 0).
Proof.
  intros Hdur Hstate prefix. split.
  - intros Hsnap. split.
    + unfold GetGCableDataSize.
      replace (for_durability retention >=? 0) with true
        by (symmetry; apply Z.geb_le; lia).
      rewrite Hstate. simpl.
      unfold GetSegmentsToGCUnlocked, bind, RETURN_NOT_OK, gets, ret.
      rewrite Hsnap. simpl. now rewrite fold_left_file_size.
    + intros Htrim Hok num_gced.
      destruct (GC_success flags f retention num_gced l Hdur Hstate Hsnap Htrim Hok)
        as (l' & E & P & _).
      exists l'. split; assumption.
  - intros Hbad. unfold GetGCableDataSize.
    replace (for_durability retention >=? 0) with true
      by (symmetry; apply Z.geb_le; lia).
    rewrite Hstate. simpl.
    unfold GetSegmentsToGCUnlocked, bind, RETURN_NOT_OK, gets, ret.
    destruct (GetSegmentsSnapshot f); [congruence | reflexivity].
Qed.

Lemma GetGCableDataSize_is_the_size_of_what_GC_deletes_witness :
  GetGCableDataSize scenario_flags no_gc_faults
                    {| for_durability := 160; for_peers := 120 |} scenario_log
  = Ret 2000
  /\ exists l',
      GC scenario_flags no_gc_faults
         {| for_durability := 160; for_peers := 120 |} 0 scenario_log
      = (Ret tt, 2, l')
      /\ deleted_paths (new_events scenario_log l')
         = ["wal-000000001"; "wal-000000002"].
Proof.
  destruct (GetGCableDataSize_is_the_size_of_what_GC_deletes
              scenario_flags no_gc_faults
              {| for_durability := 160; for_peers := 120 |} scenario_log)
    as [H _]; [simpl; lia | reflexivity |].
  destruct (H eq_refl) as (E & HGC).
  split; [exact E|].
  exact (HGC eq_refl (fun _ _ => eq_refl) 0).
Defined.

(** ** The batches of a pass: freed once, told once *)

Lemma deleted_batches_app evs1 evs2 :
  deleted_batches (evs1 ++ evs2) = deleted_batches evs1 ++ deleted_batches evs2.
Proof. apply flat_map_app. Qed.

Lemma deleted_batches_none evs :
  (forall i, ~ In (EvDeleteBatch i) evs) -> deleted_batches evs = [].
Proof.
  induction evs as [|e evs IH]; intros H; [reflexivity|].
  simpl. rewrite IH by (intros i Hi; apply (H i); now right).
  destruct e; try reflexivity. exfalso. apply (H i). now left.
Qed.

Lemma deleted_batches_appender evs :
  deleted_batches (filter is_appender_event evs) = deleted_batches evs.
Proof.
  induction evs as [|e evs IH]; [reflexivity|].
  simpl. destruct e; simpl; rewrite ?IH; reflexivity.
Qed.

Lemma callback_view_no_delete i b s j : ~ In (EvDeleteBatch j) (callback_view i b s).
Proof.
  intros H. apply callback_view_phase in H. destruct H as (c & H & _). discriminate.
Qed.

Lemma append_view_no_delete bs i ss j : ~ In (EvDeleteBatch j) (append_view i bs ss).
Proof. intros H. apply append_view_phase in H. discriminate. Qed.

Lemma failure_view_no_delete bs : forall i s j,
  ~ In (EvDeleteBatch j) (failure_view i bs s).
Proof.
  induction bs as [|b bs IH]; intros i s j; simpl; [tauto|].
  intros H. apply in_app_or in H. destruct H as [H|H].
  - exact (callback_view_no_delete _ _ _ _ H).
  - exact (IH _ _ _ H).
Qed.

Lemma deleted_batches_success_view bs : forall i,
  deleted_batches (success_view i bs) = seq i (List.length bs).
Proof.
  induction bs as [|b bs IH]; intros i; simpl; [reflexivity|].
  rewrite deleted_batches_app. simpl. rewrite IH.
  rewrite deleted_batches_none; [reflexivity|].
  intros j. destruct (failed_to_append_ b); [tauto|].
  apply callback_view_no_delete.
Qed.

Lemma deleted_batches_delete_view bs : forall i,
  deleted_batches (delete_view i bs) = seq i (List.length bs).
Proof.
  induction bs as [|b bs IH]; intros i; simpl; [reflexivity|]. now rewrite IH.
Qed.

Lemma mark_failed_length bs : forall ss,
  List.length ss = List.length bs ->
  List.length (mark_failed bs ss) = List.length bs.
Proof.
  induction bs as [|b bs IH]; intros [|s ss] H; simpl in *; try discriminate;
    [reflexivity|].
  now rewrite IH by lia.
Qed.

(** Where a list is cut in two ways, the second cut after an element that
    the first part of the first cut does not hold. *)
Lemma app_cut {A} (x : A) : forall (p q before after : list A),
  p ++ q = before ++ x :: after -> ~ In x p ->
  exists q1, before = p ++ q1 /\ q = q1 ++ x :: after.
Proof.
  induction p as [|y p IH]; intros q before after E Hx.
  - exists before. auto.
  - destruct before as [|z before]; simpl in E.
    + injection E as -> _. exfalso. apply Hx. now left.
    + injection E as -> E. destruct (IH _ _ _ E) as (q1 & -> & ->).
      { intros H. apply Hx. now right. }
      exists q1. auto.
Qed.

Lemma success_view_positions bs : forall k e i,
  In e (success_view k bs) -> event_position e = Some i -> (k <= i)%nat.
Proof.
  induction bs as [|b bs IH]; intros k e i; simpl; [tauto|].
  intros H Hp. apply in_app_or in H. destruct H as [H|[<-|H]].
  - destruct (failed_to_append_ b); [destruct H|].
    apply callback_view_phase in H. destruct H as (c & -> & _).
    injection Hp as <-. lia.
  - injection Hp as <-. lia.
  - specialize (IH _ _ _ H Hp). lia.
Qed.

Lemma success_view_after_delete bs : forall k before after i c s,
  success_view k bs = before ++ EvDeleteBatch i :: after ->
  ~ In (EvCallbackRun i c s) after.
Proof.
  induction bs as [|b bs IH]; intros k before after i c s E; simpl in E.
  - destruct before; discriminate.
  - apply app_cut in E.
    2:{ destruct (failed_to_append_ b); [tauto|]. apply callback_view_no_delete. }
    destruct E as (q1 & _ & E).
    destruct q1 as [|e q1]; simpl in E.
    + injection E as <- <-. intros H.
      pose proof (success_view_positions bs (S k) _ k H eq_refl). lia.
    + injection E as _ E. exact (IH _ _ _ _ _ _ E).
Qed.

Lemma delete_view_no_callback bs : forall k i c s,
  ~ In (EvCallbackRun i c s) (delete_view k bs).
Proof.
  induction bs as [|b bs IH]; intros k i c s; simpl; [tauto|].
  intros [H|H]; [discriminate | exact (IH _ _ _ _ H)].
Qed.

(** X7.  A pass that the appender completes frees every batch of the drained
    group exactly once, in the order of the group, whether the group sync
    failed or not; and once a batch is freed its callback is not run again. *)
Theorem every_batch_is_freed_once
        (f : DrainFaults) (bs : list LogEntryBatch) (l l' : Log) :
  RunThread_group f bs l = (Ret tt, l') ->
  deleted_batches (new_events l l') = seq 0 (List.length bs)
  /\ (forall before after i c s,
        appender_events l l' = before ++ EvDeleteBatch i :: after ->
        ~ In (EvCallbackRun i c s) after).
Proof.
  intros E.
  destruct (RunThread_group_view _ _ _ _ E) as (ss & sy & Hlen & Hview).
  split.
  - rewrite <- deleted_batches_appender. fold (appender_events l l').
    rewrite Hview. unfold group_view.
    rewrite !deleted_batches_app.
    rewrite (deleted_batches_none (append_view 0 bs ss))
      by (intros i; apply append_view_no_delete).
    rewrite (deleted_batches_none (if forallb is_commit_batch bs then _ else _))
      by (intros i; destruct (forallb is_commit_batch bs); simpl;
          intuition discriminate).
    simpl.
    destruct (forallb is_commit_batch bs || ok sy).
    + now rewrite deleted_batches_success_view, mark_failed_length.
    + rewrite deleted_batches_app, deleted_batches_delete_view, mark_failed_length
        by assumption.
      rewrite deleted_batches_none; [reflexivity|].
      intros i. apply failure_view_no_delete.
  - intros before after i c s Hcut. rewrite Hview in Hcut. unfold group_view in Hcut.
    rewrite app_assoc in Hcut.
    apply app_cut in Hcut.
    2:{ intros H. apply in_app_or in H. destruct H as [H|H].
        - exact (append_view_no_delete _ _ _ _ H).
        - destruct (forallb is_commit_batch bs); simpl in H;
            intuition discriminate. }
    destruct Hcut as (q1 & _ & Hcut).
    destruct (forallb is_commit_batch bs || ok sy).
    + exact (success_view_after_delete _ _ _ _ _ _ _ Hcut).
    + apply app_cut in Hcut; [|apply failure_view_no_delete].
      destruct Hcut as (q2 & _ & Hcut). intros H.
      apply (delete_view_no_callback (mark_failed bs ss) 0 i c s).
      rewrite Hcut. apply in_or_app. right. now right.
Qed.

Lemma every_batch_is_freed_once_witness :
  deleted_batches (new_events example_log example_log_after) = [0; 1; 2]%nat.
Proof.
  exact (proj1 (every_batch_is_freed_once example_drain_faults example_group
                  example_log example_log_after example_group_completes)).
Defined.

Lemma ok_is_OK s : ok s = true -> s = OK.
Proof. destruct s; [reflexivity | discriminate]. Qed.

Lemma mark_failed_nth_inv bs : forall ss i b',
  nth_error (mark_failed bs ss) i = Some b' ->
  exists b s, nth_error bs i = Some b /\ nth_error ss i = Some s
              /\ b' = (if ok s then b else set_failed_to_append b).
Proof.
  induction bs as [|b0 bs IH]; intros [|s0 ss] [|i] b' H; simpl in H;
    try discriminate.
  - injection H as <-. exists b0, s0. auto.
  - apply IH in H. exact H.
Qed.

Lemma append_view_returns bs ss i b s :
  nth_error bs i = Some b -> nth_error ss i = Some s ->
  In (EvAppendReturned i s) (append_view 0 bs ss).
Proof.
  intros Hb Hs. rewrite (append_view_split bs 0 ss i b s Hb Hs).
  apply in_or_app. right. right. now left.
Qed.

Lemma callback_runs_success_view bs : forall k i b,
  (k <= i)%nat -> nth_error bs (i - k) = Some b ->
  callback_runs i (success_view k bs) =
  if failed_to_append_ b then []
  else match callback_ b with Some _ => [OK] | None => [] end.
Proof.
  induction bs as [|b0 bs IH]; intros k i b Hk Hb;
    try (destruct (i - k)%nat; discriminate).
  simpl. rewrite callback_runs_app. simpl.
  destruct (Nat.eq_dec i k) as [->|Hne].
  - rewrite Nat.sub_diag in Hb. simpl in Hb. injection Hb as ->.
    assert (Hrest : forall bs' m, (k < m)%nat ->
              callback_runs k (success_view m bs') = []).
    { clear. induction bs' as [|b' bs' IH']; intros m Hm; simpl; [reflexivity|].
      rewrite callback_runs_app. simpl. rewrite IH' by lia.
      destruct (failed_to_append_ b'); [reflexivity|].
      rewrite callback_runs_callback_view.
      replace (Nat.eqb m k) with false by (symmetry; apply Nat.eqb_neq; lia).
      reflexivity. }
    rewrite Hrest by lia. rewrite app_nil_r.
    destruct (failed_to_append_ b); [reflexivity|].
    rewrite callback_runs_callback_view, Nat.eqb_refl. reflexivity.
  - replace (i - k)%nat with (S (i - S k)) in Hb by lia. simpl in Hb.
    rewrite (IH (S k) i b) by (auto; lia).
    destruct (failed_to_append_ b0); [reflexivity|].
    rewrite callback_runs_callback_view.
    replace (Nat.eqb k i) with false by (symmetry; apply Nat.eqb_neq; lia).
    reflexivity.
Qed.

Lemma nth_error_same_length {A B} (l1 : list A) (l2 : list B) i a :
  List.length l2 = List.length l1 -> nth_error l1 i = Some a ->
  exists b, nth_error l2 i = Some b.
Proof.
  intros Hlen Ha.
  destruct (nth_error l2 i) as [b|] eqn:Hb; [eauto|].
  apply nth_error_None in Hb.
  assert (i < List.length l1)%nat by (apply nth_error_Some; congruence). lia.
Qed.

(** X8.  In a pass that the appender completes and whose group sync did not
    fail, the callback of every batch is run exactly once, and the status it
    is run with is the one the [DoAppend] of that batch came back with: the
    error, for a batch that failed to append, and OK otherwise. *)
Theorem synced_pass_runs_each_callback_once
        (f : DrainFaults) (bs : list LogEntryBatch) (l l' : Log)
        (i : nat) (b : LogEntryBatch) (c : nat) :
  RunThread_group f bs l = (Ret tt, l') ->
  (forall sy, In (EvGroupSyncReturned sy) (appender_events l l') -> ok sy = true) ->
  nth_error bs i = Some b ->
  callback_ b = Some c ->
  failed_to_append_ b = false ->
  exists s, In (EvAppendReturned i s) (appender_events l l')
            /\ callback_runs i (appender_events l l') = [s].
Proof.
  intros E Hsync Hb Hc Hfresh.
  destruct (RunThread_group_view _ _ _ _ E) as (ss & sy & Hlen & Hview).
  rewrite Hview in *. clear Hview E.
  destruct (nth_error_same_length bs ss i b Hlen Hb) as (s & Hs).
  exists s. unfold group_view. split.
  { apply in_or_app. left. exact (append_view_returns bs ss i b s Hb Hs). }
  assert (Hok : forallb is_commit_batch bs || ok sy = true).
  { destruct (forallb is_commit_batch bs) eqn:Hall; [reflexivity|]. simpl.
    apply Hsync. unfold group_view. rewrite Hall.
    apply in_or_app. right. apply in_or_app. left. right. now left. }
  rewrite Hok, !callback_runs_app.
  rewrite (callback_runs_append_view bs 0 ss i b s)
    by (rewrite ?Nat.sub_0_r; auto; lia).
  rewrite (callback_runs_success_view (mark_failed bs ss) 0 i
             (if ok s then b else set_failed_to_append b))
    by (rewrite ?Nat.sub_0_r; first [lia | apply mark_failed_nth_eq; assumption]).
  assert (Hmid : callback_runs i (if forallb is_commit_batch bs then []
                                  else [EvGroupSync; EvGroupSyncReturned sy]) = []).
  { destruct (forallb is_commit_batch bs); reflexivity. }
  rewrite Hmid. destruct (ok s) eqn:Hoks.
  - rewrite Hfresh, Hc. simpl. now rewrite (ok_is_OK s Hoks).
  - rewrite Hc. reflexivity.
Qed.

(** X9.  In a pass that the appender completes, a callback is run with OK
    only after [DoAppend] was called on every batch of the group and came
    back, after the [DoAppend] of its own batch came back with OK, and, when
    some batch of the group is not a COMMIT batch, after the group sync came
    back with OK. *)
Theorem no_OK_callback_before_the_group_is_synced
        (f : DrainFaults) (bs : list LogEntryBatch) (l l' : Log)
        (before after : list Event) (i c : nat) (s : Status) :
  RunThread_group f bs l = (Ret tt, l') ->
  appender_events l l' = before ++ EvCallbackRun i c s :: after ->
  ok s = true ->
  (forall j, (j < List.length bs)%nat -> exists sj, In (EvAppendReturned j sj) before)
  /\ In (EvAppendReturned i OK) before
  /\ ((exists b, In b bs /\ type_ b <> COMMIT) ->
      exists sy, In (EvGroupSyncReturned sy) before /\ ok sy = true).
Proof.
  intros E Hcut Hs.
  destruct (RunThread_group_view _ _ _ _ E) as (ss & sy & Hlen & Hview).
  rewrite Hview in Hcut. clear Hview E. unfold group_view in Hcut.
  apply app_cut in Hcut.
  2:{ intros H. apply append_view_callback in H. congruence. }
  destruct Hcut as (q1 & -> & Hcut).
  apply app_cut in Hcut.
  2:{ destruct (forallb is_commit_batch bs); simpl; intuition discriminate. }
  destruct Hcut as (q2 & -> & Hcut).
  assert (Hin : In (EvCallbackRun i c s)
                   (if forallb is_commit_batch bs || ok sy
                    then success_view 0 (mark_failed bs ss)
                    else failure_view 0 (mark_failed bs ss) sy
                         ++ delete_view 0 (mark_failed bs ss))).
  { rewrite Hcut. apply in_or_app. right. now left. }
  destruct (forallb is_commit_batch bs || ok sy) eqn:Hok.
  2:{ exfalso. apply orb_false_iff in Hok. destruct Hok as [_ Hsy].
      apply in_app_or in Hin. destruct Hin as [H|H].
      - apply failure_view_callback in H. congruence.
      - exact (delete_view_no_callback _ _ _ _ _ H). }
  split; [|split].
  - intros j Hj.
    destruct (nth_error bs j) as [bj|] eqn:Hbj.
    2:{ apply nth_error_None in Hbj. lia. }
    destruct (nth_error_same_length bs ss j bj Hlen Hbj) as (sj & Hsj).
    exists sj. apply in_or_app. left.
    exact (append_view_returns bs ss j bj sj Hbj Hsj).
  - apply success_view_callback in Hin.
    destruct Hin as (_ & b' & Hb' & Hf & _ & _). rewrite Nat.sub_0_r in Hb'.
    apply mark_failed_nth_inv in Hb'. destruct Hb' as (b & si & Hb & Hsi & ->).
    destruct (ok si) eqn:Hoksi; [|discriminate].
    apply ok_is_OK in Hoksi. subst si.
    apply in_or_app. left. exact (append_view_returns bs ss i b OK Hb Hsi).
  - intros (b & Hb & Hne).
    assert (Hall : forallb is_commit_batch bs = false).
    { destruct (forallb is_commit_batch bs) eqn:Hall; [|reflexivity].
      rewrite forallb_forall in Hall. apply Hall in Hb.
      apply LogEntryTypePB_eqb_spec in Hb. contradiction. }
    rewrite Hall in *. simpl in Hok.
    exists sy. split; [|exact Hok].
    apply in_or_app. right. apply in_or_app. left. right. now left.
Qed.

Lemma example_group_is_synced :
  RunThread_group synced_drain_faults example_group example_log
  = (Ret tt, example_log_synced).
Proof. vm_compute. reflexivity. Defined.

Example synced_group_events :
  appender_events example_log example_log_synced =
  [ EvAppendAttempt 0; EvAppendReturned 0 injected_status;
    EvSetFailedToAppend 0; EvCallbackRun 0 10 injected_status;
    EvAppendAttempt 1; EvAppendReturned 1 OK;
    EvAppendAttempt 2; EvAppendReturned 2 OK;
    EvGroupSync; EvGroupSyncReturned OK;
    EvDeleteBatch 0;
    EvCallbackRun 1 11 OK; EvDeleteBatch 1;
    EvCallbackRun 2 12 OK; EvDeleteBatch 2 ].
Proof. vm_compute. reflexivity. Qed.

Lemma synced_pass_runs_each_callback_once_witness :
  exists s, In (EvAppendReturned 0 s) (appender_events example_log example_log_synced)
            /\ callback_runs 0 (appender_events example_log example_log_synced) = [s].
Proof.
  apply (synced_pass_runs_each_callback_once
           synced_drain_faults example_group example_log example_log_synced
           0 (replicate_batch (MakeOpId 2 7) 10) 10).
  - exact example_group_is_synced.
  - intros sy H. rewrite synced_group_events in H. simpl in H.
    repeat (destruct H as [H|H]; [try discriminate; now injection H as <-|]).
    destruct H.
  - reflexivity.
  - reflexivity.
  - reflexivity.
Defined.

Lemma no_OK_callback_before_the_group_is_synced_witness :
  In (EvAppendReturned 1 OK)
     [ EvAppendAttempt 0; EvAppendReturned 0 injected_status;
       EvSetFailedToAppend 0; EvCallbackRun 0 10 injected_status;
       EvAppendAttempt 1; EvAppendReturned 1 OK;
       EvAppendAttempt 2; EvAppendReturned 2 OK;
       EvGroupSync; EvGroupSyncReturned OK; EvDeleteBatch 0 ]
  /\ exists sy,
       In (EvGroupSyncReturned sy)
          [ EvAppendAttempt 0; EvAppendReturned 0 injected_status;
            EvSetFailedToAppend 0; EvCallbackRun 0 10 injected_status;
            EvAppendAttempt 1; EvAppendReturned 1 OK;
            EvAppendAttempt 2; EvAppendReturned 2 OK;
            EvGroupSync; EvGroupSyncReturned OK; EvDeleteBatch 0 ]
       /\ ok sy = true.
Proof.
  destruct (no_OK_callback_before_the_group_is_synced
              synced_drain_faults example_group example_log example_log_synced
              [ EvAppendAttempt 0; EvAppendReturned 0 injected_status;
                EvSetFailedToAppend 0; EvCallbackRun 0 10 injected_status;
                EvAppendAttempt 1; EvAppendReturned 1 OK;
                EvAppendAttempt 2; EvAppendReturned 2 OK;
                EvGroupSync; EvGroupSyncReturned OK; EvDeleteBatch 0 ]
              [ EvDeleteBatch 1; EvCallbackRun 2 12 OK; EvDeleteBatch 2 ]
              1 11 OK example_group_is_synced)
    as (_ & Hown & Hsync).
  - rewrite synced_group_events. reflexivity.
  - reflexivity.
  - split; [exact Hown|]. apply Hsync.
    exists (replicate_batch (MakeOpId 2 7) 10). split.
    + simpl. now left.
    + simpl. discriminate.
Defined.

(** ** What the steps of the log leave as it was *)

Lemma stable_status_of (R : Log -> Log -> Prop) (c : M unit) :
  stable_for R c -> stable_for R (status_of c).
Proof.
  intros Hc l r l' E. unfold status_of in E.
  destruct (c l) as [o l1] eqn:Ec. specialize (Hc _ _ _ Ec).
  destruct o; inversion E; subst; exact Hc.
Qed.

Lemma unchanged_refl {A} (proj : Log -> A) l : unchanged proj l l.
Proof. reflexivity. Qed.

Lemma unchanged_trans {A} (proj : Log -> A) l1 l2 l3 :
  unchanged proj l1 l2 -> unchanged proj l2 l3 -> unchanged proj l1 l3.
Proof. unfold unchanged. congruence. Qed.

Lemma set_trace_same l : set_trace (trace_ l) l = l.
Proof. now destruct l. Qed.

Lemma only_adds_events_refl l : only_adds_events l l.
Proof. exists []. now rewrite app_nil_r, set_trace_same. Qed.

Lemma only_adds_events_trans l1 l2 l3 :
  only_adds_events l1 l2 -> only_adds_events l2 l3 -> only_adds_events l1 l3.
Proof.
  intros (e1 & ->) (e2 & ->). exists (e1 ++ e2).
  unfold set_trace. simpl. now rewrite app_assoc.
Qed.

Lemma adds_no_refl p l : adds_no p l l.
Proof. exists []. now rewrite app_nil_r. Qed.

Lemma adds_no_trans p l1 l2 l3 :
  adds_no p l1 l2 -> adds_no p l2 l3 -> adds_no p l1 l3.
Proof.
  intros (e1 & T1 & F1) (e2 & T2 & F2). exists (e1 ++ e2).
  now rewrite T2, T1, app_assoc, filter_app, F1, F2.
Qed.

Lemma adds_no_In p l l' e :
  adds_no p l l' -> p e = true -> ~ In e (new_events l l').
Proof.
  intros (evs & T & F) He Hin. rewrite (new_events_app _ _ _ T) in Hin.
  assert (H : In e (filter p evs)) by (apply filter_In; auto).
  rewrite F in H. exact H.
Qed.

(** The steps that only add events. *)
Ltac events_only_steps :=
  pose proof only_adds_events_refl as Hrefl_;
  pose proof only_adds_events_trans as Htrans_;
  repeat first
    [ progress (stable_steps ltac:(eexists; reflexivity)) ].

Lemma run_callback_only_adds_events i b s :
  stable_for only_adds_events (run_callback i b s).
Proof. unfold run_callback. events_only_steps. Qed.

Lemma notify_sync_failure_only_adds_events bs : forall i s,
  stable_for only_adds_events (notify_sync_failure i bs s).
Proof.
  induction bs as [|b bs IH]; intros i s; simpl.
  - apply stable_ret. apply only_adds_events_refl.
  - apply stable_bind; [apply only_adds_events_trans | | intros ?; apply IH].
    apply run_callback_only_adds_events.
Qed.

Lemma notify_success_only_adds_events bs : forall i,
  stable_for only_adds_events (notify_success i bs).
Proof.
  induction bs as [|b bs IH]; intros i; simpl.
  - apply stable_ret. apply only_adds_events_refl.
  - events_only_steps;
      first [ apply run_callback_only_adds_events | apply IH ].
Qed.

Lemma delete_batches_only_adds_events bs : forall i,
  stable_for only_adds_events (delete_batches i bs).
Proof.
  induction bs as [|b bs IH]; intros i; simpl.
  - apply stable_ret. apply only_adds_events_refl.
  - events_only_steps; apply IH.
Qed.

Section Unchanged.

Context {A : Type} (proj : Log -> A).
Hypothesis proj_trace : forall v l, proj (set_trace v l) = proj l.
Hypothesis proj_active_segment : forall v l, proj (set_active_segment v l) = proj l.
Hypothesis proj_allocation_state : forall v l, proj (set_allocation_state v l) = proj l.
Hypothesis proj_sequence_number :
  forall v l, proj (set_active_segment_sequence_number v l) = proj l.
Hypothesis proj_footer_builder : forall v l, proj (set_footer_builder v l) = proj l.
Hypothesis proj_reader : forall v l, proj (set_reader v l) = proj l.

Local Ltac unchanged_steps :=
  pose proof (unchanged_refl proj) as Hrefl_;
  pose proof (unchanged_trans proj) as Htrans_;
  repeat first
    [ progress (stable_steps
        ltac:(unfold unchanged, mark_synced, advance_written; cbv beta;
              first [ apply proj_trace | apply proj_active_segment
                    | apply proj_allocation_state | apply proj_sequence_number
                    | apply proj_footer_builder | apply proj_reader ])) ].

Lemma Sync_unchanged f : stable_for (unchanged proj) (Sync f).
Proof. unfold Sync. unchanged_steps. Qed.

Lemma RollOver_unchanged f : stable_for (unchanged proj) (RollOver f).
Proof.
  unfold RollOver, SegmentAllocationTask, CloseCurrentSegment,
    SwitchToAllocatedSegment, ReplaceSegmentInReaderUnlocked.
  unchanged_steps; try apply Sync_unchanged.
Qed.

(** For a batch that is not a REPLICATE, [DoAppend] touches nothing but the
    trace, the active segment, the allocation state, the sequence number,
    the footer builder and the reader. *)
Lemma DoAppend_unchanged_other f b :
  type_ b <> REPLICATE -> stable_for (unchanged proj) (DoAppend f b).
Proof.
  intros Htype.
  assert (Hne : LogEntryTypePB_eqb (type_ b) REPLICATE = false).
  { destruct (LogEntryTypePB_eqb (type_ b) REPLICATE) eqn:H; [|reflexivity].
    apply LogEntryTypePB_eqb_spec in H. contradiction. }
  unfold DoAppend, AsyncAllocateSegment, UpdateIndexForBatch, UpdateFooterForBatch.
  rewrite Hne. cbn [negb].
  unchanged_steps; try apply RollOver_unchanged.
Qed.

Hypothesis proj_last_entry_op_id : forall v l, proj (set_last_entry_op_id v l) = proj l.
Hypothesis proj_log_index : forall v l, proj (set_log_index v l) = proj l.

Local Ltac unchanged_steps' :=
  pose proof (unchanged_refl proj) as Hrefl_;
  pose proof (unchanged_trans proj) as Htrans_;
  repeat first
    [ progress (stable_steps
        ltac:(unfold unchanged, mark_synced, advance_written; cbv beta;
              first [ apply proj_trace | apply proj_active_segment
                    | apply proj_allocation_state | apply proj_sequence_number
                    | apply proj_footer_builder | apply proj_reader
                    | apply proj_last_entry_op_id | apply proj_log_index ])) ].

Lemma add_index_entries_unchanged f entries start_offset :
  stable_for (unchanged proj) (add_index_entries f entries start_offset).
Proof.
  induction entries as [|e rest IH]; simpl.
  - apply stable_ret. apply unchanged_refl.
  - unchanged_steps'; try exact IH.
Qed.

Lemma DoAppend_unchanged f b : stable_for (unchanged proj) (DoAppend f b).
Proof.
  unfold DoAppend, AsyncAllocateSegment, UpdateIndexForBatch, UpdateFooterForBatch.
  unchanged_steps';
    try first [ apply RollOver_unchanged | apply add_index_entries_unchanged ].
Qed.

Lemma append_all_unchanged f bs : forall i all,
  stable_for (unchanged proj) (append_all f i bs all).
Proof.
  induction bs as [|b bs IH]; intros i all; simpl.
  - apply stable_ret. apply unchanged_refl.
  - unfold run_callback.
    unchanged_steps';
      try first [ apply stable_status_of; apply DoAppend_unchanged | apply IH ].
Qed.

End Unchanged.

(** ** What a pass leaves synced *)

Lemma Sync_covers_what_is_written f l sy l' :
  status_of (Sync f) l = (Ret sy, l') ->
  ok sy = true ->
  fsync_enabled l = true ->
  synced_offset (active_segment_ l') = written_offset (active_segment_ l').
Proof.
  unfold fsync_enabled. intros E Hsy Hen.
  unfold status_of, Sync, bind, emit, modify, gets, ret,
    RETURN_NOT_OK_PREPEND, RETURN_NOT_OK in E.
  simpl in E. rewrite Hen in E.
  destruct (segment_Sync f); simpl in E.
  2:{ inversion E; subst. discriminate. }
  destruct (PostSyncIfFsyncEnabled f); simpl in E.
  2:{ inversion E; subst. discriminate. }
  destruct (PostSync f); simpl in E; inversion E; subst; [reflexivity | discriminate].
Qed.

Lemma group_view_sync_returned bs ss sy sy' :
  In (EvGroupSyncReturned sy') (group_view bs ss sy) ->
  sy' = sy /\ forallb is_commit_batch bs = false.
Proof.
  unfold group_view. intros H.
  apply in_app_or in H. destruct H as [H|H].
  { apply append_view_phase in H. discriminate. }
  apply in_app_or in H. destruct H as [H|H].
  - destruct (forallb is_commit_batch bs); simpl in H; [tauto|].
    destruct H as [H|[H|[]]]; [discriminate|]. injection H as ->. auto.
  - apply notify_part_phase in H. discriminate.
Qed.

(** The steps of a completed pass in which some batch is not a COMMIT: the
    appends, the group sync with the status it came back with, and a rest
    that only adds events. *)
Lemma RunThread_group_steps f bs l l' :
  RunThread_group f bs l = (Ret tt, l') ->
  forallb is_commit_batch bs = false ->
  exists r l1 sy lb,
    append_all f 0 bs true l = (Ret r, l1)
    /\ status_of (Sync (group_sync f)) (set_trace (trace_ l1 ++ [EvGroupSync]) l1)
       = (Ret sy, lb)
    /\ only_adds_events lb l'
    /\ forall sy', In (EvGroupSyncReturned sy') (appender_events l l') -> sy' = sy.
Proof.
  intros E Hall.
  destruct (RunThread_group_view _ _ _ _ E) as (ss & syv & Hlen & Hview).
  unfold RunThread_group in E.
  apply bind_Ret_inv in E. destruct E as (r & l1 & E1 & E).
  destruct (append_all_view _ _ _ _ _ _ _ E1)
    as (ss1 & evs1 & _ & T1 & _ & _ & Hsnd).
  simpl in Hsnd. rewrite Hsnd, Hall in E. simpl in E.
  apply bind_Ret_inv in E. destruct E as (s & l2 & E2 & E).
  apply bind_Ret_inv in E2. destruct E2 as (u & la & Ea & E2).
  rewrite emit_run in Ea. inversion Ea; subst u la; clear Ea.
  apply bind_Ret_inv in E2. destruct E2 as (sy & lb & Eb & E2).
  apply bind_Ret_inv in E2. destruct E2 as (u & lc & Ec & E2).
  rewrite emit_run in Ec. inversion Ec; subst u lc; clear Ec.
  unfold ret in E2. inversion E2; subst s l2; clear E2.
  assert (Hrest : only_adds_events
                    (set_trace (trace_ lb ++ [EvGroupSyncReturned sy]) lb) l').
  { destruct (ok sy); simpl in E.
    - exact (notify_success_only_adds_events _ _ _ _ _ E).
    - revert E. apply stable_bind.
      + apply only_adds_events_trans.
      + apply notify_sync_failure_only_adds_events.
      + intros ?. apply delete_batches_only_adds_events. }
  assert (Hlb : only_adds_events lb l').
  { eapply only_adds_events_trans; [|exact Hrest]. eexists; reflexivity. }
  exists r, l1, sy, lb. repeat (split; [assumption|]).
  assert (Hin : In (EvGroupSyncReturned sy) (appender_events l l')).
  { destruct (quiet_status_of _ (quiet_Sync (group_sync f)) _ _ _ Eb)
      as (evsb & Tb & _).
    destruct Hrest as (evsr & ->). unfold appender_events.
    rewrite (@new_events_app l _
               (evs1 ++ [EvGroupSync] ++ evsb ++ [EvGroupSyncReturned sy] ++ evsr)).
    2:{ simpl. rewrite Tb. simpl. rewrite T1.
        repeat (rewrite <- app_assoc; simpl). reflexivity. }
    apply filter_In. split; [|reflexivity].
    apply in_or_app. right. apply in_or_app. right. apply in_or_app. right.
    now left. }
  rewrite Hview in *.
  apply group_view_sync_returned in Hin. destruct Hin as [-> _].
  intros sy' H. apply group_view_sync_returned in H. tauto.
Qed.

(** X10.  With fsync enabled ([force_sync_all_] set and sync not disabled),
    a completed pass whose group sync came back with OK leaves nothing of
    the active segment unsynced: all that was written to it is covered by
    the fsync. *)
Theorem synced_pass_leaves_nothing_unsynced
        (f : DrainFaults) (bs : list LogEntryBatch) (l l' : Log) (sy : Status) :
  RunThread_group f bs l = (Ret tt, l') ->
  In (EvGroupSyncReturned sy) (appender_events l l') ->
  ok sy = true ->
  fsync_enabled l = true ->
  synced_offset (active_segment_ l') = written_offset (active_segment_ l').
Proof.
  intros E Hin Hsy Hen.
  assert (Hall : forallb is_commit_batch bs = false).
  { destruct (RunThread_group_view _ _ _ _ E) as (ss & syv & _ & Hview).
    rewrite Hview in Hin. apply group_view_sync_returned in Hin. tauto. }
  destruct (RunThread_group_steps _ _ _ _ E Hall)
    as (r & l1 & sy0 & lb & E1 & Eb & (evs & ->) & Huniq).
  apply Huniq in Hin. subst sy0. simpl.
  apply (Sync_covers_what_is_written _ _ _ _ Eb Hsy).
  unfold fsync_enabled. simpl.
  assert (Hopt : unchanged options_ l l1).
  { apply (append_all_unchanged options_) in E1; auto. }
  unfold unchanged in Hopt. rewrite Hopt. exact Hen.
Qed.

Lemma synced_pass_leaves_nothing_unsynced_witness :
  synced_offset (active_segment_ example_log_synced)
  = written_offset (active_segment_ example_log_synced)
  /\ written_offset (active_segment_ example_log_synced) = 180.
Proof.
  split; [|vm_compute; reflexivity].
  apply (synced_pass_leaves_nothing_unsynced
           synced_drain_faults example_group example_log example_log_synced OK
           example_group_is_synced).
  - rewrite synced_group_events. simpl. do 9 right. now left.
  - reflexivity.
  - reflexivity.
Defined.

(** ** The flush marker of WaitUntilAllFlushed *)

(** Every status that the first loop records is the status of a call of
    [DoAppend] on the batch at that position, with the faults of that
    position. *)
Lemma append_all_returned f bs : forall k all l r l' evs j s,
  append_all f k bs all l = (Ret r, l') ->
  trace_ l' = trace_ l ++ evs ->
  In (EvAppendReturned j s) evs ->
  (k <= j)%nat
  /\ exists b lj lj', nth_error bs (j - k) = Some b
       /\ status_of (DoAppend (append_faults f j) b) lj = (Ret s, lj').
Proof.
  induction bs as [|b bs IH]; intros k all l r l' evs j s E T Hin.
  - simpl in E. unfold ret in E. inversion E; subst.
    rewrite <- (app_nil_r (trace_ l')) in T at 1.
    apply app_inv_head in T. subst evs. destruct Hin.
  - simpl in E.
    apply bind_Ret_inv in E. destruct E as (u1 & l1 & E1 & E).
    rewrite emit_run in E1. inversion E1; subst u1 l1; clear E1.
    apply bind_Ret_inv in E. destruct E as (s0 & l2 & E2 & E).
    destruct (quiet_status_of _ (quiet_DoAppend (append_faults f k) b) _ _ _ E2)
      as (evs2 & T2 & Q2).
    apply bind_Ret_inv in E. destruct E as (u3 & l3 & E3 & E).
    rewrite emit_run in E3. inversion E3; subst u3 l3; clear E3.
    apply bind_Ret_inv in E. destruct E as (b' & l4 & E4 & E).
    apply bind_Ret_inv in E. destruct E as (r' & l5 & E5 & E).
    unfold ret in E. inversion E; subst r l'; clear E.
    destruct (append_all_view _ _ _ _ _ _ _ E5) as (ss & evs5 & _ & T5 & _).
    assert (T4 : exists evs4, trace_ l4 = trace_ l2 ++ EvAppendReturned k s0 :: evs4
                   /\ forall i' s', ~ In (EvAppendReturned i' s') evs4).
    { destruct (ok s0); simpl in E4.
      - unfold ret in E4. inversion E4; subst. exists []. simpl. split; [reflexivity|].
        intros i' s' [].
      - apply bind_Ret_inv in E4. destruct E4 as (u & la & Ea & E4).
        apply bind_Ret_inv in E4. destruct E4 as (u' & lb & Eb & E4).
        destruct (run_callback_run k b s0 la) as (lc & Ec & Tc).
        rewrite Ec in Eb. inversion Eb; subst u' lb; clear Eb.
        rewrite emit_run in Ea. inversion Ea; subst u la; clear Ea.
        unfold ret in E4. inversion E4; subst.
        exists (EvSetFailedToAppend k :: callback_view k b s0). split.
        + rewrite Tc. simpl. now rewrite <- !app_assoc.
        + intros i' s' [H|H]; [discriminate|].
          apply callback_view_phase in H. destruct H as (c & H & _). discriminate. }
    destruct T4 as (evs4 & T4 & Hno4).
    assert (Hevs : evs = [EvAppendAttempt k] ++ evs2
                         ++ EvAppendReturned k s0 :: evs4 ++ evs5).
    { apply (app_inv_head (trace_ l)). rewrite <- T, T5, T4, T2. simpl.
      repeat (rewrite <- app_assoc; simpl). reflexivity. }
    rewrite Hevs in Hin. simpl in Hin.
    destruct Hin as [Hin|Hin]; [discriminate|].
    apply in_app_or in Hin. destruct Hin as [Hin|Hin].
    { simpl in T2.
      assert (Hq : is_appender_event (EvAppendReturned j s) = false).
      { destruct (quiet_status_of _ (quiet_DoAppend (append_faults f k) b) _ _ _ E2)
          as (evs' & T' & Q').
        simpl in T'. rewrite T2 in T'. apply app_inv_head in T'. subst evs'.
        assert (H : ~ In (EvAppendReturned j s) (filter is_appender_event evs2))
          by (rewrite Q2; tauto).
        exfalso. apply H. apply filter_In. auto. }
      discriminate. }
    destruct Hin as [Hin|Hin].
    { injection Hin as <- <-. split; [lia|].
      rewrite Nat.sub_diag. exists b. eauto. }
    apply in_app_or in Hin. destruct Hin as [Hin|Hin].
    { exfalso. exact (Hno4 _ _ Hin). }
    destruct (IH _ _ _ _ _ _ _ _ E5 T5 Hin) as (Hk & b0 & lj & lj' & Hb0 & Hrun).
    split; [lia|]. exists b0, lj, lj'. split; [|exact Hrun].
    replace (j - k)%nat with (S (j - S k)) by lia. exact Hb0.
Qed.

Lemma adds_no_returned_callback i b s :
  stable_for (adds_no is_append_returned) (run_callback i b s).
Proof.
  intros l r l' E. destruct (run_callback_run i b s l) as (l1 & E1 & T1).
  rewrite E1 in E. inversion E; subst. exists (callback_view i b s).
  split; [assumption|]. apply filter_none. intros e He.
  apply callback_view_phase in He. destruct He as (c & -> & _). reflexivity.
Qed.

Ltac adds_no_steps p :=
  pose proof (adds_no_refl p) as Hrefl_;
  pose proof (adds_no_trans p) as Htrans_;
  repeat first
    [ progress (stable_steps
        ltac:(first [ eexists; split; reflexivity
                    | exists []; split; [simpl; now rewrite app_nil_r | reflexivity] ])) ].

Lemma Sync_adds_no_returned f : stable_for (adds_no is_append_returned) (Sync f).
Proof. unfold Sync. adds_no_steps is_append_returned. Qed.

Lemma notify_sync_failure_adds_no_returned bs : forall i s,
  stable_for (adds_no is_append_returned) (notify_sync_failure i bs s).
Proof.
  induction bs as [|b bs IH]; intros i s; simpl.
  - apply stable_ret. apply adds_no_refl.
  - adds_no_steps is_append_returned;
      first [ apply adds_no_returned_callback | apply IH ].
Qed.

Lemma notify_success_adds_no_returned bs : forall i,
  stable_for (adds_no is_append_returned) (notify_success i bs).
Proof.
  induction bs as [|b bs IH]; intros i; simpl.
  - apply stable_ret. apply adds_no_refl.
  - adds_no_steps is_append_returned;
      first [ apply adds_no_returned_callback | apply IH ].
Qed.

Lemma delete_batches_adds_no_returned bs : forall i,
  stable_for (adds_no is_append_returned) (delete_batches i bs).
Proof.
  induction bs as [|b bs IH]; intros i; simpl.
  - apply stable_ret. apply adds_no_refl.
  - adds_no_steps is_append_returned; apply IH.
Qed.

Lemma RunThread_group_rest_adds_no_returned f batches is_all_commits :
  stable_for (adds_no is_append_returned)
    (s <- (if negb is_all_commits
           then emit EvGroupSync;;
                s <- status_of (Sync (group_sync f));;
                emit (EvGroupSyncReturned s);;
                ret s
           else ret OK);;
     if negb (ok s)
     then notify_sync_failure 0%nat batches s;;
          delete_batches 0%nat batches
     else notify_success 0%nat batches).
Proof.
  adds_no_steps is_append_returned;
    first [ apply stable_status_of; apply Sync_adds_no_returned
          | apply notify_sync_failure_adds_no_returned
          | apply delete_batches_adds_no_returned
          | apply notify_success_adds_no_returned ].
Qed.

(** Every status of an append that a completed pass records is the status
    of a call of [DoAppend] on the batch at that position. *)
Lemma RunThread_group_returned f bs l l' j s :
  RunThread_group f bs l = (Ret tt, l') ->
  In (EvAppendReturned j s) (appender_events l l') ->
  exists b lj lj', nth_error bs j = Some b
    /\ status_of (DoAppend (append_faults f j) b) lj = (Ret s, lj').
Proof.
  intros E Hin. unfold RunThread_group in E.
  apply bind_Ret_inv in E. destruct E as (r & l1 & E1 & E).
  destruct (append_all_view _ _ _ _ _ _ _ E1) as (ss & evs1 & _ & T1 & _).
  assert (Htail : adds_no is_append_returned l1 l').
  { exact (RunThread_group_rest_adds_no_returned f (fst r) (snd r) _ _ _ E). }
  destruct Htail as (evst & Tt & Ft).
  unfold appender_events in Hin. apply filter_In in Hin. destruct Hin as [Hin _].
  rewrite (@new_events_app l l' (evs1 ++ evst)) in Hin
    by (now rewrite Tt, T1, app_assoc).
  apply in_app_or in Hin. destruct Hin as [Hin|Hin].
  - destruct (append_all_returned _ _ _ _ _ _ _ _ _ _ E1 T1 Hin)
      as (_ & b & lj & lj' & Hb & Hrun).
    rewrite Nat.sub_0_r in Hb. eauto.
  - exfalso.
    assert (H : ~ In (EvAppendReturned j s) (filter is_append_returned evst))
      by (rewrite Ft; tauto).
    apply H. apply filter_In. auto.
Qed.

(** ** What no step of the log adds to the trace

    Every step appends to the trace, and none of them appends the writing of
    a batch without bytes: [DoAppend] returns before it writes such a batch.
    The section takes any property [p] of events that holds of such writes
    only. *)

Section AddsNo.

Variable p : Event -> bool.
Hypothesis p_only :
  forall e, p e = true -> exists b, e = EvWriteEntryBatch b /\ total_size_bytes_ b = 0.

Lemma p_of_an_event e :
  (forall b, e = EvWriteEntryBatch b -> total_size_bytes_ b <> 0) ->
  filter p [e] = [].
Proof.
  intros H. simpl. destruct (p e) eqn:Hp; [|reflexivity].
  apply p_only in Hp. destruct Hp as (b & Hb & Hz). exfalso. exact (H b Hb Hz).
Qed.

Ltac adds_no_such_steps :=
  pose proof (adds_no_refl p) as Hrefl_;
  pose proof (adds_no_trans p) as Htrans_;
  repeat first
    [ progress (stable_steps
        ltac:(first
                [ exists []; split; [simpl; now rewrite app_nil_r | reflexivity]
                | eexists; split;
                  [ reflexivity
                  | apply p_of_an_event; intros ? Hb_;
                    first [ discriminate Hb_
                          | injection Hb_ as <-; assumption ] ] ])) ].

Lemma Sync_adds_no_such f : stable_for (adds_no p) (Sync f).
Proof. unfold Sync. adds_no_such_steps. Qed.

Lemma CloseCurrentSegment_adds_no_such f :
  stable_for (adds_no p) (CloseCurrentSegment f).
Proof. unfold CloseCurrentSegment. adds_no_such_steps. Qed.

Lemma ReplaceSegmentInReaderUnlocked_adds_no_such f :
  stable_for (adds_no p) (ReplaceSegmentInReaderUnlocked f).
Proof. unfold ReplaceSegmentInReaderUnlocked. adds_no_such_steps. Qed.

Lemma RollOver_adds_no_such f : stable_for (adds_no p) (RollOver f).
Proof.
  unfold RollOver, SegmentAllocationTask, SwitchToAllocatedSegment.
  adds_no_such_steps;
    first [ apply Sync_adds_no_such | apply CloseCurrentSegment_adds_no_such
          | apply ReplaceSegmentInReaderUnlocked_adds_no_such ].
Qed.

Lemma add_index_entries_adds_no_such f entries start_offset :
  stable_for (adds_no p) (add_index_entries f entries start_offset).
Proof.
  induction entries as [|e rest IH]; simpl.
  - apply stable_ret. apply adds_no_refl.
  - adds_no_such_steps; try exact IH.
Qed.

Lemma DoAppend_adds_no_such f b : stable_for (adds_no p) (DoAppend f b).
Proof.
  unfold DoAppend.
  destruct (inject_io_error f); [apply stable_fail; apply adds_no_refl|].
  destruct (total_size_bytes_ b =? 0) eqn:Hb;
    [apply stable_ret; apply adds_no_refl|].
  apply Z.eqb_neq in Hb.
  unfold AsyncAllocateSegment, UpdateIndexForBatch, UpdateFooterForBatch.
  adds_no_such_steps;
    try first [ apply RollOver_adds_no_such | apply add_index_entries_adds_no_such ].
Qed.

Lemma run_callback_adds_no_such i b s : stable_for (adds_no p) (run_callback i b s).
Proof. unfold run_callback. adds_no_such_steps. Qed.

Lemma append_all_adds_no_such f bs : forall i all,
  stable_for (adds_no p) (append_all f i bs all).
Proof.
  induction bs as [|b bs IH]; intros i all; simpl.
  - apply stable_ret. apply adds_no_refl.
  - adds_no_such_steps;
      try first [ apply stable_status_of; apply DoAppend_adds_no_such
                | apply run_callback_adds_no_such | apply IH ].
Qed.

Lemma notify_sync_failure_adds_no_such bs : forall i s,
  stable_for (adds_no p) (notify_sync_failure i bs s).
Proof.
  induction bs as [|b bs IH]; intros i s; simpl.
  - apply stable_ret. apply adds_no_refl.
  - adds_no_such_steps; first [ apply run_callback_adds_no_such | apply IH ].
Qed.

Lemma notify_success_adds_no_such bs : forall i,
  stable_for (adds_no p) (notify_success i bs).
Proof.
  induction bs as [|b bs IH]; intros i; simpl.
  - apply stable_ret. apply adds_no_refl.
  - adds_no_such_steps; first [ apply run_callback_adds_no_such | apply IH ].
Qed.

Lemma delete_batches_adds_no_such bs : forall i,
  stable_for (adds_no p) (delete_batches i bs).
Proof.
  induction bs as [|b bs IH]; intros i; simpl.
  - apply stable_ret. apply adds_no_refl.
  - adds_no_such_steps; apply IH.
Qed.

Lemma RunThread_group_adds_no_such f bs :
  stable_for (adds_no p) (RunThread_group f bs).
Proof.
  unfold RunThread_group.
  adds_no_such_steps;
    first [ apply append_all_adds_no_such
          | apply stable_status_of; apply Sync_adds_no_such
          | apply notify_sync_failure_adds_no_such
          | apply delete_batches_adds_no_such
          | apply notify_success_adds_no_such ].
Qed.

Lemma BlockingDrainTo_adds_no_such : stable_for (adds_no p) BlockingDrainTo.
Proof.
  intros l r l' E. exists []. split; [|reflexivity]. rewrite app_nil_r.
  unfold BlockingDrainTo, bind, gets, modify, ret, block in E.
  destruct (list_ (entry_batch_queue_ l));
    [destruct (shutdown_ (entry_batch_queue_ l))|]; inversion E; reflexivity.
Qed.

Lemma RunThread_adds_no_such faults : forall fuel pass,
  stable_for (adds_no p) (RunThread fuel faults pass).
Proof.
  induction fuel as [|fuel IH]; intros pass; cbn [RunThread].
  - apply stable_ret. apply adds_no_refl.
  - apply stable_bind;
      [apply adds_no_trans | apply BlockingDrainTo_adds_no_such | intros d].
    apply stable_bind;
      [apply adds_no_trans | apply RunThread_group_adds_no_such | intros u].
    destruct (negb (snd d)); [apply stable_ret; apply adds_no_refl | apply IH].
Qed.

End AddsNo.

Lemma writes_empty_batch_only e :
  writes_empty_batch e = true ->
  exists b, e = EvWriteEntryBatch b /\ total_size_bytes_ b = 0.
Proof.
  destruct e; simpl; try discriminate. intros H. apply Z.eqb_eq in H. eauto.
Qed.

Lemma WaitUntilAllFlushed_enqueue_batch byte_size c l0 b l0' :
  WaitUntilAllFlushed_enqueue byte_size c l0 = (Ret b, l0') ->
  b = MarkReady (set_callback (Some c)
        (Serialize (MarkReserved
           (new_LogEntryBatch FLUSH_MARKER
              {| entry := [flush_marker_entry]; ByteSize := byte_size |} 1)))).
Proof.
  intros E. unfold WaitUntilAllFlushed_enqueue in E.
  apply bind_Ret_inv in E. destruct E as (rb & l1 & E1 & E).
  unfold Reserve in E1.
  apply bind_Ret_inv in E1. destruct E1 as (st & la & _ & E1).
  apply bind_Ret_inv in E1. destruct E1 as (u & lb & _ & E1).
  apply bind_Ret_inv in E1. destruct E1 as (put & lc & _ & E1).
  destruct (negb put); [discriminate|].
  unfold ret in E1. inversion E1; subst rb l1; clear E1.
  unfold AsyncAppend in E.
  apply bind_Ret_inv in E. destruct E as (st' & ld & _ & E).
  apply bind_Ret_inv in E. destruct E as (u' & le & _ & E).
  unfold ret in E. inversion E. reflexivity.
Qed.

(** X11.  The batch that [WaitUntilAllFlushed] enqueues, wherever it stands
    in the group that the appender drains: its [DoAppend] writes nothing (it
    returns OK and leaves the log as it is, no error being injected, and the
    pass records no write of the batch) and comes back with OK, the pass
    does call [Sync] for the group, and the callback of the batch is run
    exactly once, with the status of that [Sync].  So the wait returns what
    the sync of everything queued before it returned. *)
Theorem flush_marker_is_told_the_group_sync
        (f : DrainFaults) (bs : list LogEntryBatch) (l l' l0 l0' : Log)
        (i : nat) (b : LogEntryBatch) (c : nat) (byte_size : Z) :
  WaitUntilAllFlushed_enqueue byte_size c l0 = (Ret b, l0') ->
  RunThread_group f bs l = (Ret tt, l') ->
  nth_error bs i = Some b ->
  inject_io_error (append_faults f i) = false ->
  (forall lj, DoAppend (append_faults f i) b lj = (Ret tt, lj))
  /\ ~ In (EvWriteEntryBatch b) (new_events l l')
  /\ exists sy,
      In (EvAppendReturned i OK) (appender_events l l')
      /\ In (EvGroupSyncReturned sy) (appender_events l l')
      /\ callback_runs i (appender_events l l') = [sy].
Proof.
  intros Henq E Hb Hinj.
  apply WaitUntilAllFlushed_enqueue_batch in Henq.
  assert (Hbytes : total_size_bytes_ b = 0) by (subst b; reflexivity).
  assert (Htype : type_ b = FLUSH_MARKER) by (subst b; reflexivity).
  assert (Hcb : callback_ b = Some c) by (subst b; reflexivity).
  assert (Hfresh : failed_to_append_ b = false) by (subst b; reflexivity).
  clear Henq.
  split.
  { intros lj. unfold DoAppend. rewrite Hinj, Hbytes. reflexivity. }
  split.
  { apply (adds_no_In writes_empty_batch l l' (EvWriteEntryBatch b)).
    - exact (RunThread_group_adds_no_such writes_empty_batch
               writes_empty_batch_only f bs _ _ _ E).
    - simpl. now rewrite Hbytes. }
  destruct (RunThread_group_view _ _ _ _ E) as (ss & sy & Hlen & Hview).
  destruct (nth_error_same_length bs ss i b Hlen Hb) as (s & Hs).
  assert (Hret : In (EvAppendReturned i s) (appender_events l l')).
  { rewrite Hview. unfold group_view. apply in_or_app. left.
    exact (append_view_returns bs ss i b s Hb Hs). }
  assert (HsOK : s = OK).
  { destruct (RunThread_group_returned _ _ _ _ _ _ E Hret)
      as (b0 & lj & lj' & Hb0 & Hrun).
    rewrite Hb in Hb0. injection Hb0 as <-.
    unfold status_of, DoAppend in Hrun. rewrite Hinj, Hbytes in Hrun.
    simpl in Hrun. unfold ret in Hrun. now inversion Hrun. }
  subst s.
  assert (Hall : forallb is_commit_batch bs = false).
  { destruct (forallb is_commit_batch bs) eqn:Hall; [|reflexivity].
    rewrite forallb_forall in Hall.
    assert (Hc : is_commit_batch b = true)
      by (apply Hall; eapply nth_error_In; eauto).
    unfold is_commit_batch in Hc. rewrite Htype in Hc. discriminate. }
  exists sy. split; [exact Hret|]. rewrite Hview. unfold group_view.
  rewrite Hall. simpl. split.
  { apply in_or_app. right. right. now left. }
  rewrite callback_runs_app.
  rewrite (callback_runs_append_view bs 0 ss i b OK)
    by (rewrite ?Nat.sub_0_r; auto; lia).
  simpl.
  pose proof (mark_failed_nth_eq bs ss i b OK Hb Hs) as Hmf. simpl in Hmf.
  destruct (ok sy) eqn:Hsy.
  - rewrite (callback_runs_success_view (mark_failed bs ss) 0 i b)
      by (rewrite ?Nat.sub_0_r; first [lia | assumption]).
    rewrite Hfresh, Hcb. now rewrite (ok_is_OK sy Hsy).
  - rewrite callback_runs_app.
    rewrite (callback_runs_failure_view (mark_failed bs ss) 0 i b sy)
      by (rewrite ?Nat.sub_0_r; first [lia | assumption]).
    rewrite callback_runs_delete_view, Hcb. reflexivity.
Qed.

Lemma flush_group_completes :
  RunThread_group no_drain_faults flush_group example_log
  = (Ret tt, example_log_flushed).
Proof. vm_compute. reflexivity. Defined.

Lemma flush_marker_is_told_the_group_sync_witness :
  (forall lj, DoAppend (append_faults no_drain_faults 1) flush_marker_batch lj
              = (Ret tt, lj))
  /\ ~ In (EvWriteEntryBatch flush_marker_batch)
          (new_events example_log example_log_flushed)
  /\ exists sy,
      In (EvAppendReturned 1 OK) (appender_events example_log example_log_flushed)
      /\ In (EvGroupSyncReturned sy) (appender_events example_log example_log_flushed)
      /\ callback_runs 1 (appender_events example_log example_log_flushed) = [sy].
Proof.
  apply (flush_marker_is_told_the_group_sync
           no_drain_faults flush_group example_log example_log_flushed
           example_log
           (snd (WaitUntilAllFlushed_enqueue 2 7 example_log))
           1 flush_marker_batch 7 2).
  - vm_compute. reflexivity.
  - exact flush_group_completes.
  - reflexivity.
  - reflexivity.
Defined.

(** ** What DoAppend leaves in the index *)

Ltac bind_step E a l1 E1 :=
  apply bind_Ret_inv in E; destruct E as (a & l1 & E1 & E).

Lemma RETURN_NOT_OK_Ret s l u l' :
  RETURN_NOT_OK s l = (Ret u, l') -> ok s = true /\ l' = l.
Proof.
  unfold RETURN_NOT_OK. destruct (ok s); unfold ret, fail; intros E;
    inversion E; auto.
Qed.

Lemma add_index_entries_Ret f entries start_offset : forall l l',
  add_index_entries f entries start_offset l = (Ret tt, l') ->
  index_entries (log_index_ l') =
    index_entries (log_index_ l)
    ++ map (index_entry_of (active_segment_sequence_number_ l) start_offset) entries.
Proof.
  induction entries as [|e rest IH]; intros l l' E; simpl in E.
  - unfold ret in E. inversion E; subst. now rewrite app_nil_r.
  - bind_step E seqno l1 E1. unfold gets in E1. inversion E1; subst; clear E1.
    bind_step E u l2 E2. apply RETURN_NOT_OK_Ret in E2. destruct E2 as [_ ->].
    bind_step E u' l3 E3. rewrite emit_run in E3. inversion E3; subst; clear E3.
    bind_step E u'' l4 E4. unfold modify in E4. inversion E4; subst; clear E4.
    apply IH in E. rewrite E. simpl. rewrite <- app_assoc. reflexivity.
Qed.

(** X12.  A [DoAppend] of a REPLICATE batch that returns OK has added to the
    log index one entry for each op of the batch, in the order of the batch,
    all at the offset where the batch starts and in the segment that is
    active once the call is over (a new one, when the call rolled over);
    and it has told the reader that the active segment can be read up to
    the end of the batch. *)
Theorem DoAppend_indexes_the_batch_where_it_starts
        (f : AppendFaults) (b : LogEntryBatch) (l l' : Log) :
  DoAppend f b l = (Ret tt, l') ->
  type_ b = REPLICATE ->
  total_size_bytes_ b <> 0 ->
  index_entries (log_index_ l') =
    index_entries (log_index_ l)
    ++ map (index_entry_of (active_segment_sequence_number_ l')
                           (written_offset (active_segment_ l') - frame_size f))
           (entry (entry_batch_pb_ b))
  /\ last_segment_offset (reader_ l') = written_offset (active_segment_ l').
Proof.
  intros E Htype Hbytes. unfold DoAppend in E.
  destruct (inject_io_error f); [discriminate|].
  destruct (total_size_bytes_ b =? 0) eqn:Hb0.
  { apply Z.eqb_eq in Hb0. contradiction. }
  rewrite Htype in E. cbn [LogEntryTypePB_eqb] in E.
  bind_step E u0 l0 E0.
  assert (H0 : unchanged log_index_ l l0).
  { revert E0. apply stable_bind; [apply unchanged_trans | |intros ?];
      apply stable_modify; reflexivity. }
  clear E0.
  bind_step E st l1 E1. unfold gets in E1. inversion E1; subst st l1; clear E1.
  bind_step E u1 lm Em.
  assert (Hm : unchanged log_index_ l0 lm).
  { match type of Em with
    | ?c _ = _ => assert (Hst : stable_for (unchanged log_index_) c)
    end.
    { unfold AsyncAllocateSegment.
      pose proof (unchanged_refl log_index_) as Hrefl_.
      pose proof (unchanged_trans log_index_) as Htrans_.
      repeat first
        [ progress (stable_steps ltac:(reflexivity))
        | apply RollOver_unchanged; reflexivity ]. }
    exact (Hst _ _ _ Em). }
  clear Em.
  bind_step E start_offset l2 E2. unfold gets in E2. inversion E2; subst; clear E2.
  bind_step E u2 l3 E3. rewrite emit_run in E3. inversion E3; subst; clear E3.
  bind_step E u3 l4 E4. apply RETURN_NOT_OK_Ret in E4. destruct E4 as [_ ->].
  bind_step E u4 l5 E5. unfold modify in E5. inversion E5; subst; clear E5.
  bind_step E off l6 E6. unfold gets in E6. inversion E6; subst; clear E6.
  bind_step E u5 l7 E7. unfold modify in E7. inversion E7; subst; clear E7.
  bind_step E u6 l8 E8. rewrite emit_run in E8. inversion E8; subst; clear E8.
  bind_step E u7 l9 E9. apply RETURN_NOT_OK_Ret in E9. destruct E9 as [_ ->].
  bind_step E u8 li Ei.
  unfold UpdateFooterForBatch, modify in E. inversion E; subst l'; clear E.
  unfold CHECK_OK in Ei.
  match type of Ei with
  | match ?c ?x with _ => _ end = _ => destruct (c x) as [[[]|s|w|] lx] eqn:Eidx
  end; inversion Ei; subst lx; clear Ei.
  unfold UpdateIndexForBatch in Eidx. rewrite Htype in Eidx.
  cbn [LogEntryTypePB_eqb negb] in Eidx.
  pose proof (add_index_entries_Ret _ _ _ _ _ Eidx) as Hidx.
  match type of Eidx with
  | add_index_entries _ _ _ ?lw = _ =>
      assert (Hkeep : unchanged (fun l => (active_segment_ l,
                                            active_segment_sequence_number_ l,
                                            reader_ l)) lw li)
  end.
  { revert Eidx. apply add_index_entries_unchanged; reflexivity. }
  unfold unchanged in Hkeep, H0, Hm. simpl in Hkeep, Hidx.
  injection Hkeep as Hseg Hseq Hrd.
  simpl. rewrite Hseg, Hseq, Hrd. simpl.
  rewrite Hidx, Hm, H0. split; [|reflexivity].
  f_equal. f_equal. f_equal. lia.
Qed.

Lemma DoAppend_indexes_the_batch_where_it_starts_witness :
  index_entries (log_index_ example_log_appended)
  = [ index_entry_of 1 100 {| entry_type := REPLICATE;
                              replicate_id := MakeOpId 2 7 |} ]
  /\ last_segment_offset (reader_ example_log_appended) = 140.
Proof.
  destruct (DoAppend_indexes_the_batch_where_it_starts
              no_append_faults (replicate_batch (MakeOpId 2 7) 1)
              example_log example_log_appended)
    as [Hidx Hoff].
  - vm_compute. reflexivity.
  - reflexivity.
  - simpl. lia.
  - split.
    + rewrite Hidx. vm_compute. reflexivity.
    + rewrite Hoff. vm_compute. reflexivity.
Defined.

(** X13.  A [DoAppend] of a batch that is not a REPLICATE (a COMMIT or a
    flush marker), whatever it returns and whether or not it rolls over,
    leaves the log index and the last entry OpId as they were. *)
Theorem DoAppend_of_other_batches_keeps_index_and_last_id
        (f : AppendFaults) (b : LogEntryBatch) (l l' : Log) (r : Outcome unit) :
  type_ b <> REPLICATE ->
  DoAppend f b l = (r, l') ->
  log_index_ l' = log_index_ l
  /\ GetLatestEntryOpId l' = GetLatestEntryOpId l.
Proof.
  intros Htype E.
  assert (H : unchanged (fun l => (log_index_ l, last_entry_op_id_ l)) l l').
  { revert E. apply DoAppend_unchanged_other; first [exact Htype | reflexivity]. }
  unfold unchanged in H. injection H as Hidx Hlast.
  split; [exact Hidx|]. unfold GetLatestEntryOpId. now rewrite Hlast.
Qed.

Lemma DoAppend_of_other_batches_keeps_index_and_last_id_witness :
  log_index_ (snd (DoAppend no_append_faults (commit_batch (MakeOpId 2 7) 1)
                            example_log_appended))
  = log_index_ example_log_appended
  /\ GetLatestEntryOpId
       (snd (DoAppend no_append_faults (commit_batch (MakeOpId 2 7) 1)
                      example_log_appended))
     = GetLatestEntryOpId example_log_appended.
Proof.
  apply (DoAppend_of_other_batches_keeps_index_and_last_id
           no_append_faults (commit_batch (MakeOpId 2 7) 1) example_log_appended
           _ (fst (DoAppend no_append_faults (commit_batch (MakeOpId 2 7) 1)
                            example_log_appended))).
  - simpl. intros H. apply (f_equal (fun t => LogEntryTypePB_eqb t REPLICATE)) in H.
    simpl in H. lia.
  - apply surjective_pairing.
Defined.

(** ** When DoAppend asks for a new segment *)

Lemma bind_trace {A B} (c : M A) (k : A -> M B) l r l' :
  bind c k l = (r, l') ->
  exists o lm, c l = (o, lm)
    /\ ((exists a, o = Ret a /\ k a lm = (r, l'))
        \/ ((forall a, o <> Ret a) /\ lm = l')).
Proof.
  unfold bind. destruct (c l) as [[a|s|w|] lm]; intros E;
    eexists; exists lm; (split; [reflexivity|]).
  - left. eauto.
  - right. inversion E. split; [discriminate | reflexivity].
  - right. inversion E. split; [discriminate | reflexivity].
  - right. inversion E. split; [discriminate | reflexivity].
Qed.

Lemma Sync_adds_no_allocation f : stable_for (adds_no is_async_allocate) (Sync f).
Proof. unfold Sync. adds_no_steps is_async_allocate. Qed.

Lemma RollOver_adds_no_allocation f :
  stable_for (adds_no is_async_allocate) (RollOver f).
Proof.
  unfold RollOver, SegmentAllocationTask, CloseCurrentSegment,
    SwitchToAllocatedSegment, ReplaceSegmentInReaderUnlocked.
  adds_no_steps is_async_allocate; try apply Sync_adds_no_allocation.
Qed.

Lemma add_index_entries_adds_no_allocation f entries start_offset :
  stable_for (adds_no is_async_allocate)
             (add_index_entries f entries start_offset).
Proof.
  induction entries as [|e rest IH]; simpl.
  - apply stable_ret. apply adds_no_refl.
  - adds_no_steps is_async_allocate; try exact IH.
Qed.

Lemma AsyncAllocateSegment_run f l :
  allocation_state_ l = kAllocationNotStarted ->
  AsyncAllocateSegment f l =
  (if ok (SubmitClosure f) then Ret tt else Fail (SubmitClosure f),
   set_trace (trace_ l ++ [EvAsyncAllocateSegment])
             (set_allocation_state kAllocationInProgress l)).
Proof.
  intros Hst. unfold AsyncAllocateSegment, bind, gets, CHECK, modify, emit,
    RETURN_NOT_OK, ret, fail.
  rewrite Hst. simpl. destruct (ok (SubmitClosure f)); reflexivity.
Qed.

(** X14.  A [DoAppend] that gets as far as looking at the segment (no error
    is injected and the batch has bytes) asks for a new segment to be
    allocated exactly when no allocation is under way and the batch does
    not fit: the size of the active segment plus the bytes of the batch plus
    4 exceeds [max_segment_size_].  This holds whatever the call returns. *)
Theorem DoAppend_starts_an_allocation_when_the_batch_overflows
        (f : AppendFaults) (b : LogEntryBatch) (l l' : Log) (r : Outcome unit) :
  DoAppend f b l = (r, l') ->
  inject_io_error f = false ->
  total_size_bytes_ b <> 0 ->
  (In EvAsyncAllocateSegment (new_events l l')
   <-> allocation_state_ l = kAllocationNotStarted
       /\ Size (active_segment_ l) + total_size_bytes_ b + 4
          > max_segment_size_ (options_ l)).
Proof.
  intros E Hinj Hbytes. unfold DoAppend in E. rewrite Hinj in E.
  destruct (total_size_bytes_ b =? 0) eqn:Hb0.
  { apply Z.eqb_eq in Hb0. contradiction. }
  apply bind_trace in E. destruct E as (o0 & l0 & E0 & E).
  assert (H0 : o0 = Ret tt
               /\ unchanged (fun l => (allocation_state_ l, active_segment_ l,
                                       options_ l)) l l0
               /\ adds_no is_async_allocate l l0).
  { destruct (LogEntryTypePB_eqb (type_ b) REPLICATE).
    - inversion E0; subst. split; [reflexivity|]. split; [reflexivity|].
      eexists. split; reflexivity.
    - inversion E0; subst. split; [reflexivity|]. split; [reflexivity|].
      apply adds_no_refl. }
  destruct H0 as (-> & Hsame & Hno0). clear E0.
  unfold unchanged in Hsame. injection Hsame as Hst0 Hseg0 Hopt0.
  destruct E as [(u & _ & E)|[E _]].
  2:{ exfalso. exact (E tt eq_refl). }
  rewrite (bind_run (gets allocation_state_) _ l0 _ l0 eq_refl) in E.
  apply bind_trace in E. destruct E as (om & lm & Em & E).
  assert (Hrest : adds_no is_async_allocate lm l').
  { destruct E as [(a & _ & E)|[_ <-]]; [|apply adds_no_refl].
    revert E. generalize l'. generalize r. generalize lm.
    change (stable_for (adds_no is_async_allocate)
              ((fun _ : unit =>
                start_offset <- gets (fun l => written_offset (active_segment_ l));;
                emit (EvWriteEntryBatch b);;
                RETURN_NOT_OK (WriteEntryBatch f);;
                modify (advance_written (frame_size f));;
                off <- gets (fun l => written_offset (active_segment_ l));;
                modify (fun l =>
                  set_reader {| segments_ := segments_ (reader_ l);
                                last_segment_offset := off |} l);;
                emit (EvUpdateLastSegmentOffset off);;
                RETURN_NOT_OK_PREPEND (PostAppend f) "PostAppend hook failed";;
                CHECK_OK (UpdateIndexForBatch f b start_offset)
                         "CHECK_OK(UpdateIndexForBatch(*entry_batch, start_offset))";;
                UpdateFooterForBatch b) a)).
    cbv beta. unfold UpdateIndexForBatch, UpdateFooterForBatch.
    adds_no_steps is_async_allocate;
      try apply add_index_entries_adds_no_allocation. }
  clear E.
  assert (Hmid :
    (allocation_state_ l = kAllocationNotStarted
     /\ Size (active_segment_ l) + total_size_bytes_ b + 4
        > max_segment_size_ (options_ l)
     /\ exists evs, trace_ lm = trace_ l0 ++ EvAsyncAllocateSegment :: evs)
    \/ (~ (allocation_state_ l = kAllocationNotStarted
           /\ Size (active_segment_ l) + total_size_bytes_ b + 4
              > max_segment_size_ (options_ l))
        /\ adds_no is_async_allocate l0 lm)).
  { rewrite Hst0 in Em. destruct (allocation_state_ l) eqn:Hst.
    - rewrite (bind_run (gets active_segment_) _ l0 _ l0 eq_refl) in Em.
      rewrite (bind_run (gets options_) _ l0 _ l0 eq_refl) in Em.
      rewrite Hseg0, Hopt0 in Em.
      destruct (Size (active_segment_ l) + total_size_bytes_ b + 4
                >? max_segment_size_ (options_ l)) eqn:Hover.
      + left. split; [reflexivity|]. split.
        { rewrite Z.gtb_ltb in Hover. apply Z.ltb_lt in Hover. lia. }
        apply bind_trace in Em. destruct Em as (oa & la & Ea & Em).
        rewrite AsyncAllocateSegment_run in Ea by congruence.
        inversion Ea; subst oa la; clear Ea.
        destruct Em as [(a & _ & Em)|[_ <-]].
        * assert (Hq : quiet (if negb (async_preallocate_segments (options_ l))
                              then RollOver (roll f) else ret tt)).
          { destruct (negb _); [apply quiet_RollOver | apply quiet_ret]. }
          destruct (Hq _ _ _ Em) as (evs & T & _). exists evs.
          rewrite T. simpl. now rewrite <- app_assoc.
        * exists []. reflexivity.
      + right. split.
        { intros [_ H]. rewrite Z.gtb_ltb in Hover. apply Z.ltb_ge in Hover. lia. }
        unfold ret in Em. inversion Em; subst. apply adds_no_refl.
    - right. split; [intros [H _]; discriminate|].
      unfold ret in Em. inversion Em; subst. apply adds_no_refl.
    - right. split; [intros [H _]; discriminate|].
      exact (RollOver_adds_no_allocation _ _ _ _ Em). }
  destruct Hmid as [(Hst & Hover & evs & T)|(Hnot & Hnom)].
  - split; [auto|]. intros _.
    destruct Hno0 as (evs0 & T0 & _). destruct Hrest as (evs1 & T1 & _).
    rewrite (@new_events_app l l' (evs0 ++ EvAsyncAllocateSegment :: evs ++ evs1)).
    + apply in_or_app. right. now left.
    + rewrite T1, T, T0. repeat (rewrite <- app_assoc; simpl). reflexivity.
  - split; [|tauto]. intros Hin. exfalso.
    refine (adds_no_In is_async_allocate l l' EvAsyncAllocateSegment _ eq_refl Hin).
    eapply adds_no_trans; [exact Hno0|].
    eapply adds_no_trans; [exact Hnom | exact Hrest].
Qed.

Lemma DoAppend_starts_an_allocation_when_the_batch_overflows_witness :
  In EvAsyncAllocateSegment
     (new_events nearly_full_log
        (snd (DoAppend no_append_faults (replicate_batch (MakeOpId 2 7) 1)
                       nearly_full_log))).
Proof.
  apply (DoAppend_starts_an_allocation_when_the_batch_overflows
           no_append_faults (replicate_batch (MakeOpId 2 7) 1) nearly_full_log
           _ (fst (DoAppend no_append_faults (replicate_batch (MakeOpId 2 7) 1)
                            nearly_full_log))).
  - apply surjective_pairing.
  - reflexivity.
  - simpl. lia.
  - split; [reflexivity | simpl; lia].
Defined.

(** ** Rolling over *)

Lemma Sync_Ret f l l' :
  Sync f l = (Ret tt, l') ->
  exists evs,
    l' = set_trace (trace_ l ++ evs) (if fsync_enabled l then mark_synced l else l).
Proof.
  unfold fsync_enabled. intros E.
  unfold Sync, bind, emit, modify, gets, ret,
    RETURN_NOT_OK_PREPEND, RETURN_NOT_OK in E.
  simpl in E.
  destruct (force_sync_all_ (options_ l) && negb (sync_disabled_ (options_ l))).
  - destruct (segment_Sync f); simpl in E; [|discriminate].
    destruct (PostSyncIfFsyncEnabled f); simpl in E; [|discriminate].
    destruct (PostSync f); simpl in E; [|discriminate].
    inversion E. eexists.
    unfold set_trace, mark_synced, set_active_segment. simpl.
    rewrite <- !app_assoc. reflexivity.
  - destruct (PostSync f); simpl in E; [|discriminate].
    inversion E. eexists. reflexivity.
Qed.

Lemma CHECK_Ret b w l u l' : CHECK b w l = (Ret u, l') -> b = true /\ l' = l.
Proof.
  unfold CHECK. destruct b; unfold ret, crash; intros E; inversion E; auto.
Qed.

Lemma in_step_snoc closed last_segment seqno seg :
  in_step (closed ++ [last_segment]) seqno seg =
  negb (HasFooter last_segment)
  && forallb HasFooter closed
  && (sequence_number last_segment =? seqno)
  && String.eqb (path last_segment) (ws_path seg)
  && (ws_sequence_number seg =? seqno).
Proof.
  unfold in_step. rewrite rev_app_distr, removelast_last. reflexivity.
Qed.

Lemma in_step_inv segs seqno seg :
  in_step segs seqno seg = true ->
  exists closed last_segment,
    segs = closed ++ [last_segment]
    /\ footer_ last_segment = None
    /\ forallb HasFooter closed = true
    /\ sequence_number last_segment = seqno
    /\ path last_segment = ws_path seg
    /\ ws_sequence_number seg = seqno.
Proof.
  intros H. destruct (rev segs) as [|x xs] eqn:Hrev.
  { unfold in_step in H. rewrite Hrev in H. discriminate. }
  assert (Hsegs : segs = rev xs ++ [x]).
  { rewrite <- (rev_involutive segs), Hrev. reflexivity. }
  rewrite Hsegs in H. rewrite in_step_snoc in H.
  repeat (apply andb_prop in H; destruct H as [H ?]).
  exists (rev xs), x. split; [assumption|].
  split. { unfold HasFooter in H. destruct (footer_ x); [discriminate|reflexivity]. }
  split; [assumption|].
  split; [now apply Z.eqb_eq|].
  split; [now apply String.eqb_eq | now apply Z.eqb_eq].
Qed.

Lemma RollOver_Ret f l l' :
  RollOver f l = (Ret tt, l') ->
  active_segment_sequence_number_ l' = active_segment_sequence_number_ l + 1
  /\ segments_ (reader_ l') =
       removelast (segments_ (reader_ l))
       ++ [ closed_twin (active_segment_ l) (footer_builder_ l);
            fresh_twin f (active_segment_sequence_number_ l + 1) ]
  /\ ws_path (active_segment_ l') = new_segment_path f
  /\ ws_sequence_number (active_segment_ l') = active_segment_sequence_number_ l + 1
  /\ written_offset (active_segment_ l') = first_entry_offset f
  /\ allocation_state_ l' = kAllocationNotStarted
  /\ num_entries (footer_builder_ l') = 0
  /\ has_min_replicate_index (footer_builder_ l') = false
  /\ has_max_replicate_index (footer_builder_ l') = false.
Proof.
  intros E. unfold RollOver in E.
  bind_step E u0 l0 E0. unfold SegmentAllocationTask, modify in E0.
  inversion E0; subst u0 l0; clear E0.
  bind_step E u1 l1 E1. apply RETURN_NOT_OK_Ret in E1. destruct E1 as [_ ->].
  bind_step E u2 l2 E2. destruct u2. apply Sync_Ret in E2. destruct E2 as (evs & ->).
  bind_step E u3 l3 E3. unfold CloseCurrentSegment in E3.
  bind_step E3 v0 m0 F0. rewrite emit_run in F0. inversion F0; subst v0 m0; clear F0.
  bind_step E3 v1 m1 F1. apply RETURN_NOT_OK_Ret in F1. destruct F1 as [_ ->].
  unfold modify in E3. inversion E3; subst u3 l3; clear E3.
  unfold SwitchToAllocatedSegment in E.
  bind_step E st m2 F2. unfold gets in F2. inversion F2; subst st m2; clear F2.
  bind_step E v3 m3 F3. apply CHECK_Ret in F3. destruct F3 as [_ ->].
  bind_step E old m4 F4. unfold gets in F4. inversion F4; subst old m4; clear F4.
  bind_step E v5 m5 F5. unfold modify in F5. inversion F5; subst v5 m5; clear F5.
  bind_step E v6 m6 F6. rewrite emit_run in F6. inversion F6; subst v6 m6; clear F6.
  bind_step E v7 m7 F7. apply RETURN_NOT_OK_Ret in F7. destruct F7 as [_ ->].
  bind_step E opts m8 F8. unfold gets in F8. inversion F8; subst opts m8; clear F8.
  bind_step E v9 m9 F9. unfold modify in F9. inversion F9; subst v9 m9; clear F9.
  bind_step E v10 m10 F10. apply RETURN_NOT_OK_Ret in F10. destruct F10 as [_ ->].
  bind_step E v11 m11 F11.
  unfold CHECK_OK in F11.
  match type of F11 with
  | match ?c ?x with _ => _ end = _ => destruct (c x) as [[[]|s|w|] lx] eqn:Erep
  end; inversion F11; subst lx; clear F11.
  unfold ReplaceSegmentInReaderUnlocked in Erep.
  bind_step Erep seg n0 G0. unfold gets in G0. inversion G0; subst seg n0; clear G0.
  bind_step Erep w1 n1 G1. apply CHECK_Ret in G1. destruct G1 as [_ ->].
  bind_step Erep w2 n2 G2. apply RETURN_NOT_OK_Ret in G2. destruct G2 as [_ ->].
  unfold modify in Erep. inversion Erep; subst m11; clear Erep.
  bind_step E v12 m12 F12. apply RETURN_NOT_OK_Ret in F12. destruct F12 as [_ ->].
  bind_step E v13 m13 F13. unfold modify in F13. inversion F13; subst v13 m13; clear F13.
  bind_step E v14 m14 F14. unfold modify in F14. inversion F14; subst v14 m14; clear F14.
  unfold modify in E. inversion E; subst l'; clear E.
  unfold closed_twin, fresh_twin, replace_last.
  destruct (fsync_enabled (set_allocation_state kAllocationFinished l));
    simpl; rewrite <- app_assoc; simpl; repeat split; reflexivity.
Qed.

Lemma RollOver_in_step f l l' :
  RollOver f l = (Ret tt, l') ->
  reader_in_step l = true -> reader_in_step l' = true.
Proof.
  intros E Hstep.
  destruct (RollOver_Ret _ _ _ E)
    as (Hseq & Hsegs & Hpath & Hws & _ & Halloc & Hnum & _).
  unfold reader_in_step in *. apply in_step_inv in Hstep.
  destruct Hstep as (closed & last_segment & Hl & _ & Hclosed & _).
  rewrite Hsegs, Hl, removelast_last.
  change (closed ++ [closed_twin (active_segment_ l) (footer_builder_ l);
                     fresh_twin f (active_segment_sequence_number_ l + 1)])
    with (closed ++ [closed_twin (active_segment_ l) (footer_builder_ l)]
                 ++ [fresh_twin f (active_segment_sequence_number_ l + 1)]).
  rewrite app_assoc, in_step_snoc, forallb_app, Hclosed, Hpath, Hws, Hseq.
  simpl. now rewrite String.eqb_refl, Z.eqb_refl.
Qed.

(** X15.  A [RollOver] that returns OK on a log whose reader follows it
    leaves a log whose reader follows it: the sequence number of the log is
    one more, the last segment of the reader was replaced by a twin of the
    segment that was closed, carrying the footer that was being built, a
    fresh segment without a footer was appended for the new active segment,
    the footer builder starts empty, and the next allocation can start. *)
Theorem RollOver_keeps_the_reader_in_step (f : RollFaults) (l l' : Log) :
  RollOver f l = (Ret tt, l') ->
  reader_in_step l = true ->
  reader_in_step l' = true
  /\ active_segment_sequence_number_ l' = active_segment_sequence_number_ l + 1
  /\ segments_ (reader_ l') =
       removelast (segments_ (reader_ l))
       ++ [ closed_twin (active_segment_ l) (footer_builder_ l);
            fresh_twin f (active_segment_sequence_number_ l + 1) ]
  /\ num_entries (footer_builder_ l') = 0
  /\ allocation_state_ l' = kAllocationNotStarted.
Proof.
  intros E Hstep.
  destruct (RollOver_Ret _ _ _ E)
    as (Hseq & Hsegs & _ & _ & _ & Halloc & Hnum & _).
  split; [exact (RollOver_in_step _ _ _ E Hstep)|].
  repeat (split; try assumption).
Qed.

Lemma RollOver_keeps_the_reader_in_step_witness :
  reader_in_step (snd (RollOver no_roll_faults example_log_allocated)) = true
  /\ active_segment_sequence_number_
       (snd (RollOver no_roll_faults example_log_allocated)) = 2.
Proof.
  destruct (RollOver_keeps_the_reader_in_step
              no_roll_faults example_log_allocated
              (snd (RollOver no_roll_faults example_log_allocated)))
    as (H1 & H2 & _).
  - vm_compute. reflexivity.
  - vm_compute. reflexivity.
  - split; [exact H1|]. rewrite H2. reflexivity.
Defined.

Lemma reader_in_step_unchanged l l' :
  unchanged (fun l => (segments_ (reader_ l), active_segment_sequence_number_ l,
                       ws_path (active_segment_ l),
                       ws_sequence_number (active_segment_ l))) l l' ->
  reader_in_step l' = reader_in_step l.
Proof.
  unfold unchanged. intros H. injection H as Hsegs Hseq Hpath Hws.
  unfold reader_in_step, in_step. now rewrite Hsegs, Hseq, Hpath, Hws.
Qed.

(** X16.  A [DoAppend] that returns OK on a log whose reader follows it
    leaves a log whose reader follows it, whether or not the call rolled
    over: the last segment of the reader is still the twin, without footer,
    of the segment being written, and every segment before it has its
    footer. *)
Theorem DoAppend_keeps_the_reader_in_step
        (f : AppendFaults) (b : LogEntryBatch) (l l' : Log) :
  DoAppend f b l = (Ret tt, l') ->
  reader_in_step l = true ->
  reader_in_step l' = true.
Proof.
  intros E Hstep. unfold DoAppend in E.
  destruct (inject_io_error f); [discriminate|].
  destruct (total_size_bytes_ b =? 0).
  { unfold ret in E. inversion E; subst. exact Hstep. }
  bind_step E u0 l0 E0.
  assert (H0 : reader_in_step l0 = true).
  { rewrite <- Hstep. apply reader_in_step_unchanged.
    destruct (LogEntryTypePB_eqb (type_ b) REPLICATE); inversion E0; reflexivity. }
  clear E0 Hstep.
  bind_step E st l1 E1. unfold gets in E1. inversion E1; subst st l1; clear E1.
  bind_step E u1 lm Em.
  assert (Hm : reader_in_step lm = true).
  { destruct (allocation_state_ l0) eqn:Hst.
    - rewrite (bind_run (gets active_segment_) _ l0 _ l0 eq_refl) in Em.
      rewrite (bind_run (gets options_) _ l0 _ l0 eq_refl) in Em.
      destruct (Size (active_segment_ l0) + total_size_bytes_ b + 4
                >? max_segment_size_ (options_ l0)).
      + bind_step Em ua la Ea. rewrite AsyncAllocateSegment_run in Ea by assumption.
        inversion Ea; subst la; clear Ea.
        destruct (negb (async_preallocate_segments (options_ l0))).
        * destruct u1. exact (RollOver_in_step _ _ _ Em H0).
        * unfold ret in Em. inversion Em; subst. exact H0.
      + unfold ret in Em. inversion Em; subst. exact H0.
    - unfold ret in Em. inversion Em; subst. exact H0.
    - destruct u1. exact (RollOver_in_step _ _ _ Em H0). }
  clear Em H0.
  bind_step E start_offset l2 E2. unfold gets in E2. inversion E2; subst; clear E2.
  bind_step E u2 l3 E3. rewrite emit_run in E3. inversion E3; subst; clear E3.
  bind_step E u3 l4 E4. apply RETURN_NOT_OK_Ret in E4. destruct E4 as [_ ->].
  bind_step E u4 l5 E5. unfold modify in E5. inversion E5; subst; clear E5.
  bind_step E off l6 E6. unfold gets in E6. inversion E6; subst; clear E6.
  bind_step E u5 l7 E7. unfold modify in E7. inversion E7; subst; clear E7.
  bind_step E u6 l8 E8. rewrite emit_run in E8. inversion E8; subst; clear E8.
  bind_step E u7 l9 E9. apply RETURN_NOT_OK_Ret in E9. destruct E9 as [_ ->].
  bind_step E u8 li Ei.
  unfold UpdateFooterForBatch, modify in E. inversion E; subst l'; clear E.
  match type of Ei with
  | CHECK_OK _ _ ?lw = _ =>
      assert (Hi : unchanged (fun l => (segments_ (reader_ l),
                                        active_segment_sequence_number_ l,
                                        ws_path (active_segment_ l),
                                        ws_sequence_number (active_segment_ l)))
                             lw li)
  end.
  { revert Ei. apply stable_CHECK_OK. unfold UpdateIndexForBatch.
    destruct (negb (LogEntryTypePB_eqb (type_ b) REPLICATE)).
    - apply stable_ret. apply unchanged_refl.
    - apply add_index_entries_unchanged; reflexivity. }
  rewrite <- Hm. apply reader_in_step_unchanged.
  unfold unchanged in *. simpl in *. exact Hi.
Qed.

Lemma DoAppend_keeps_the_reader_in_step_witness :
  reader_in_step example_log_appended = true
  /\ reader_in_step
       (snd (DoAppend no_append_faults (replicate_batch (MakeOpId 2 7) 1)
               (set_allocation_state kAllocationFinished nearly_full_log))) = true.
Proof.
  split.
  - apply (DoAppend_keeps_the_reader_in_step
             no_append_faults (replicate_batch (MakeOpId 2 7) 1) example_log).
    + vm_compute. reflexivity.
    + vm_compute. reflexivity.
  - apply (DoAppend_keeps_the_reader_in_step
             no_append_faults (replicate_batch (MakeOpId 2 7) 1)
             (set_allocation_state kAllocationFinished nearly_full_log)).
    + vm_compute. reflexivity.
    + vm_compute. reflexivity.
Defined.

(** ** The synchronous Append *)

(** X17.  With fsync enabled, an [Append] that returns OK leaves nothing of
    the active segment unsynced; and for a REPLICATE entry with bytes, the
    OpId that [GetLatestEntryOpId] gives afterwards is that of the entry,
    so that on this path the last entry OpId names synced data. *)
Theorem Append_returns_OK_only_when_synced
        (f : AppendFaults) (sf : SyncFaults) (e : LogEntryPB) (byte_size : Z)
        (l l' : Log) :
  Append f sf e byte_size l = (Ret tt, l') ->
  fsync_enabled l = true ->
  synced_offset (active_segment_ l') = written_offset (active_segment_ l')
  /\ (entry_type e = REPLICATE -> byte_size <> 0 ->
      GetLatestEntryOpId l' = replicate_id e).
Proof.
  intros E Hen. unfold Append in E.
  bind_step E u l1 E1. destruct u.
  assert (Hopt : unchanged options_ l l1).
  { revert E1. apply DoAppend_unchanged; reflexivity. }
  assert (Hen1 : fsync_enabled l1 = true).
  { unfold fsync_enabled in *. unfold unchanged in Hopt. now rewrite Hopt. }
  apply Sync_Ret in E. destruct E as (evs & ->). rewrite Hen1.
  split; [reflexivity|].
  intros Htype Hbytes.
  unfold GetLatestEntryOpId. simpl.
  unfold DoAppend in E1.
  destruct (inject_io_error f); [discriminate|].
  assert (Hfl : first_entry_is_flush_marker
                  {| entry := [e]; ByteSize := byte_size |} = false).
  { unfold first_entry_is_flush_marker. simpl. now rewrite Htype. }
  simpl in E1. rewrite Hfl, Htype in E1. simpl in E1.
  destruct (byte_size =? 0) eqn:Hb0.
  { apply Z.eqb_eq in Hb0. contradiction. }
  bind_step E1 u0 l0 E0.
  unfold bind, modify, emit in E0. simpl in E0. inversion E0; subst u0 l0; clear E0.
  match type of E1 with
  | ?c _ = _ => assert (Hst : stable_for (unchanged last_entry_op_id_) c)
  end.
  { unfold AsyncAllocateSegment, UpdateIndexForBatch, UpdateFooterForBatch.
    pose proof (unchanged_refl last_entry_op_id_) as Hrefl_.
    pose proof (unchanged_trans last_entry_op_id_) as Htrans_.
    repeat first
      [ progress (stable_steps ltac:(reflexivity))
      | apply RollOver_unchanged; reflexivity
      | apply add_index_entries_unchanged; reflexivity ]. }
  apply Hst in E1. unfold unchanged in E1. simpl in E1. rewrite E1.
  reflexivity.
Qed.

Lemma Append_returns_OK_only_when_synced_witness :
  synced_offset
    (active_segment_
       (snd (Append no_append_faults no_sync_faults
                    {| entry_type := REPLICATE; replicate_id := MakeOpId 2 7 |} 32
                    example_log)))
  = 140
  /\ GetLatestEntryOpId
       (snd (Append no_append_faults no_sync_faults
                    {| entry_type := REPLICATE; replicate_id := MakeOpId 2 7 |} 32
                    example_log))
     = MakeOpId 2 7.
Proof.
  destruct (Append_returns_OK_only_when_synced
              no_append_faults no_sync_faults
              {| entry_type := REPLICATE; replicate_id := MakeOpId 2 7 |} 32
              example_log
              (snd (Append no_append_faults no_sync_faults
                           {| entry_type := REPLICATE;
                              replicate_id := MakeOpId 2 7 |} 32 example_log)))
    as [Hsync Hlast].
  - vm_compute. reflexivity.
  - reflexivity.
  - split.
    + rewrite Hsync. vm_compute. reflexivity.
    + apply Hlast; [reflexivity | lia].
Defined.

(** ** PreAllocateNewSegment *)

Lemma PreAllocateNewSegment_run (f : PreAllocateFaults) (l : Log) :
  allocation_state_ l = kAllocationInProgress ->
  status_of (PreAllocateNewSegment f) l
  = (Ret (preallocate_status f),
     set_allocation_state kAllocationFinished
       (if ok (NewTempWritableFile f) then with_placeholder f l else l)).
Proof.
  intros Hst.
  unfold status_of, PreAllocateNewSegment, CreatePlaceholderSegment,
    preallocate_status, with_placeholder, MakeScopedCleanup, bind, gets, CHECK,
    modify, RETURN_NOT_OK, ret, fail.
  rewrite Hst. simpl.
  destruct (NewTempWritableFile f) as [|c m]; simpl; [|reflexivity].
  destruct (inject_io_error_on_preallocate f); simpl; [reflexivity|].
  destruct (preallocate_segments f); simpl; [|reflexivity].
  destruct (VerifySufficientDiskSpace f) as [|c m]; simpl; [|reflexivity].
  destruct (PreAllocate f) as [|c m]; reflexivity.
Qed.

(** X18.  [PreAllocateNewSegment], run while an allocation is in progress,
    marks the allocation finished whatever it returns, and returns the first
    bad status of its calls, in their order (OK when there is none).  When
    the placeholder file could be made, [next_segment_path_] and
    [next_segment_file_] are that file from then on, also when a later call
    fails; when it could not, they are as they were.  Nothing else of the
    log changes: but for the placeholder, the log is left as
    [SegmentAllocationTask] leaves it for the rollover. *)
Theorem PreAllocateNewSegment_always_marks_the_allocation_finished
        (f : PreAllocateFaults) (l : Log) :
  allocation_state_ l = kAllocationInProgress ->
  status_of (PreAllocateNewSegment f) l
  = (Ret (preallocate_status f),
     set_allocation_state kAllocationFinished
       (if ok (NewTempWritableFile f) then with_placeholder f l else l))
  /\ set_next_segment_file (next_segment_file_ l)
       (set_next_segment_path (next_segment_path_ l)
          (snd (PreAllocateNewSegment f l)))
     = snd (SegmentAllocationTask l).
Proof.
  intros Hst.
  pose proof (PreAllocateNewSegment_run f l Hst) as H.
  split; [exact H|].
  unfold status_of in H.
  destruct (PreAllocateNewSegment f l) as [o l1]. simpl.
  assert (Hl1 : l1 = set_allocation_state kAllocationFinished
                       (if ok (NewTempWritableFile f) then with_placeholder f l
                        else l)).
  { destruct o; inversion H; reflexivity. }
  rewrite Hl1. unfold SegmentAllocationTask, modify, with_placeholder. simpl.
  destruct l. destruct (ok (NewTempWritableFile f)); reflexivity.
Qed.

Lemma PreAllocateNewSegment_always_marks_the_allocation_finished_witness :
  status_of (PreAllocateNewSegment disk_full)
            (set_allocation_state kAllocationInProgress example_log)
  = (Ret (Error kIOError "Insufficient disk space"),
     set_allocation_state kAllocationFinished
       (set_next_segment_file (Some ".tmp.newsegment000002")
          (set_next_segment_path ".tmp.newsegment000002"
             (set_allocation_state kAllocationInProgress example_log)))).
Proof.
  exact (proj1 (PreAllocateNewSegment_always_marks_the_allocation_finished
                  disk_full (set_allocation_state kAllocationInProgress example_log)
                  eq_refl)).
Defined.

Example PreAllocateNewSegment_outside_an_allocation :
  fst (PreAllocateNewSegment disk_full example_log)
  = Crash "CHECK_EQ(allocation_state(), kAllocationInProgress)".
Proof. reflexivity. Qed.

(** ** GetReplaySizeMap *)

Lemma map_find_assign k v m j :
  map_find j (map_assign k v m) = if j =? k then Some v else map_find j m.
Proof.
  induction m as [|[k' v'] rest IH]; simpl.
  - reflexivity.
  - destruct (k <? k') eqn:Hlt; simpl.
    + reflexivity.
    + destruct (k =? k') eqn:Heq; simpl.
      * apply Z.eqb_eq in Heq. subst k'. destruct (j =? k); reflexivity.
      * rewrite IH. destruct (j =? k') eqn:Hj; [|reflexivity].
        apply Z.eqb_eq in Hj. subst j. rewrite Z.eqb_sym, Heq. reflexivity.
Qed.

Lemma increasing_cons k v m :
  increasing ((k, v) :: m) = true <->
  increasing m = true /\ (forall k' v', In (k', v') m -> k < k').
Proof.
  revert k v. induction m as [|[k2 v2] rest IH]; intros k v.
  - simpl. split; [intros _; split; [reflexivity | intros ? ? []] | reflexivity].
  - change (increasing ((k, v) :: (k2, v2) :: rest))
      with ((k <? k2) && increasing ((k2, v2) :: rest)).
    rewrite andb_true_iff, Z.ltb_lt. split.
    + intros [Hlt Hinc]. split; [exact Hinc|].
      intros k' v' [H|H].
      * injection H as <- _. exact Hlt.
      * apply IH in Hinc. destruct Hinc as [_ Hall].
        specialize (Hall _ _ H). lia.
    + intros [Hinc Hall]. split; [|exact Hinc].
      apply (Hall k2 v2). now left.
Qed.

Lemma map_assign_In k v m k' v' :
  In (k', v') (map_assign k v m) -> (k', v') = (k, v) \/ In (k', v') m.
Proof.
  induction m as [|[k2 v2] rest IH]; simpl.
  - intros [H|[]]. now left.
  - destruct (k <? k2).
    + simpl. intros [H|H]; [now left | now right].
    + destruct (k =? k2); simpl.
      * intros [H|H]; [now left | right; now right].
      * intros [H|H]; [right; now left|].
        apply IH in H. destruct H; [now left | right; now right].
Qed.

Lemma map_assign_increasing k v m :
  increasing m = true -> increasing (map_assign k v m) = true.
Proof.
  induction m as [|[k2 v2] rest IH]; intros Hinc.
  - reflexivity.
  - simpl. destruct (k <? k2) eqn:Hlt.
    + apply increasing_cons. split; [exact Hinc|].
      apply Z.ltb_lt in Hlt. intros k' v' [H|H].
      * now injection H as <- _.
      * apply increasing_cons in Hinc. destruct Hinc as [_ Hall].
        specialize (Hall _ _ H). lia.
    + destruct (k =? k2) eqn:Heq.
      * apply Z.eqb_eq in Heq. subst k2.
        apply increasing_cons in Hinc. apply increasing_cons. exact Hinc.
      * apply increasing_cons in Hinc. destruct Hinc as [Hinc Hall].
        apply increasing_cons. split; [auto|].
        intros k' v' H. apply map_assign_In in H. destruct H as [H|H].
        -- injection H as -> _. apply Z.ltb_ge in Hlt. apply Z.eqb_neq in Heq. lia.
        -- eauto.
Qed.

Lemma GetReplaySizeMap_loop_app xs : forall ys c m,
  GetReplaySizeMap_loop (xs ++ ys) c m =
  GetReplaySizeMap_loop ys (fst (GetReplaySizeMap_loop xs c m))
                           (snd (GetReplaySizeMap_loop xs c m)).
Proof.
  induction xs as [|x xs IH]; intros ys c m; simpl; [reflexivity|].
  destruct (footer_ x); apply IH.
Qed.

Lemma GetReplaySizeMap_loop_spec segs :
  fst (GetReplaySizeMap_loop (rev segs) 0 []) = footered_size segs
  /\ increasing (snd (GetReplaySizeMap_loop (rev segs) 0 [])) = true
  /\ forall k, map_find k (snd (GetReplaySizeMap_loop (rev segs) 0 []))
               = bytes_to_replay_from k segs.
Proof.
  induction segs as [|s rest (IHc & IHi & IHf)].
  - simpl. auto.
  - simpl rev. rewrite GetReplaySizeMap_loop_app. simpl.
    unfold HasFooter. destruct (footer_ s) as [footer|]; simpl.
    + rewrite IHc. split; [lia|]. split.
      * apply map_assign_increasing. exact IHi.
      * intros k. rewrite map_find_assign, IHf.
        destruct (k =? max_replicate_index footer); [|reflexivity].
        f_equal. lia.
    + rewrite IHc. split; [lia|]. split; [exact IHi | exact IHf].
Qed.

(** X19.  On a log that is being written and whose reader gives its
    snapshot, [GetReplaySizeMap] leaves the log as it is and fills the map
    so that a key is found exactly when it is the largest replicate index
    of a segment with a footer, and the value found is the total size of
    the segments with a footer from the first such segment to the end of
    the log (the segment being written, which has no footer, is not
    counted); the keys of the map go up strictly. *)
Theorem GetReplaySizeMap_gives_the_bytes_to_replay (f : GCFaults) (l : Log) :
  log_state_ l = kLogWriting ->
  GetSegmentsSnapshot f = OK ->
  exists replay_size,
    GetReplaySizeMap f l = (Ret replay_size, l)
    /\ increasing replay_size = true
    /\ forall k, map_find k replay_size
                 = bytes_to_replay_from k (segments_ (reader_ l)).
Proof.
  intros Hst Hsnap.
  exists (snd (GetReplaySizeMap_loop (rev (segments_ (reader_ l))) 0 [])).
  split.
  - unfold GetReplaySizeMap, bind, gets, CHECK, CHECK_OK, RETURN_NOT_OK, ret.
    rewrite Hst, Hsnap. reflexivity.
  - destruct (GetReplaySizeMap_loop_spec (segments_ (reader_ l))) as (_ & Hi & Hf).
    split; assumption.
Qed.

Lemma GetReplaySizeMap_gives_the_bytes_to_replay_witness :
  exists replay_size,
    GetReplaySizeMap no_gc_faults scenario_log = (Ret replay_size, scenario_log)
    /\ map_find 100 replay_size = Some 3000
    /\ map_find 120 replay_size = None.
Proof.
  destruct (GetReplaySizeMap_gives_the_bytes_to_replay no_gc_faults scenario_log
              eq_refl eq_refl) as (replay_size & E & _ & Hf).
  exists replay_size. split; [exact E|].
  rewrite !Hf. split; reflexivity.
Defined.

Example GetReplaySizeMap_of_the_scenario :
  fst (GetReplaySizeMap no_gc_faults scenario_log)
  = Ret [(50, 4000); (100, 3000); (150, 2000); (200, 1000)].
Proof. reflexivity. Qed.

(** ** Close *)

Section PassUnchanged.

Context {A : Type} (proj : Log -> A).
Hypothesis proj_trace : forall v l, proj (set_trace v l) = proj l.
Hypothesis proj_active_segment : forall v l, proj (set_active_segment v l) = proj l.
Hypothesis proj_allocation_state : forall v l, proj (set_allocation_state v l) = proj l.
Hypothesis proj_sequence_number :
  forall v l, proj (set_active_segment_sequence_number v l) = proj l.
Hypothesis proj_footer_builder : forall v l, proj (set_footer_builder v l) = proj l.
Hypothesis proj_reader : forall v l, proj (set_reader v l) = proj l.
Hypothesis proj_last_entry_op_id : forall v l, proj (set_last_entry_op_id v l) = proj l.
Hypothesis proj_log_index : forall v l, proj (set_log_index v l) = proj l.

Lemma only_adds_events_unchanged l l' :
  only_adds_events l l' -> unchanged proj l l'.
Proof. intros (evs & ->). apply proj_trace. Qed.

Lemma RunThread_group_unchanged f bs :
  stable_for (unchanged proj) (RunThread_group f bs).
Proof.
  unfold RunThread_group.
  apply stable_bind; [apply unchanged_trans | |intros r].
  { apply append_all_unchanged; assumption. }
  apply stable_bind; [apply unchanged_trans | |intros s].
  { destruct (negb (snd r)).
    - apply stable_bind; [apply unchanged_trans | |intros ?].
      { apply stable_modify. intros l. apply proj_trace. }
      apply stable_bind; [apply unchanged_trans | |intros ?].
      { apply stable_status_of. apply Sync_unchanged; assumption. }
      apply stable_bind; [apply unchanged_trans | |intros ?].
      { apply stable_modify. intros l. apply proj_trace. }
      apply stable_ret. apply unchanged_refl.
    - apply stable_ret. apply unchanged_refl. }
  intros l o l' E. apply only_adds_events_unchanged. revert l o l' E.
  destruct (negb (ok s)).
  - apply stable_bind; [apply only_adds_events_trans | |intros ?].
    + apply notify_sync_failure_only_adds_events.
    + apply delete_batches_only_adds_events.
  - apply notify_success_only_adds_events.
Qed.

End PassUnchanged.

Lemma Shutdown_again l :
  shutdown_ (entry_batch_queue_ l) = true -> Shutdown l = (Ret tt, l).
Proof.
  intros H. unfold Shutdown, modify. f_equal.
  destruct l as [o st seg sq fb rd li le al q fs tr]. simpl in *.
  destruct q as [ls sh sz mx]. simpl in *. subst sh. reflexivity.
Qed.

(** What the appender is handed by a queue that was shut down. *)
Lemma BlockingDrainTo_after_shutdown l :
  shutdown_ (entry_batch_queue_ l) = true ->
  exists ld,
    BlockingDrainTo l = (Ret (list_ (entry_batch_queue_ l), false), ld)
    /\ list_ (entry_batch_queue_ ld) = []
    /\ shutdown_ (entry_batch_queue_ ld) = true
    /\ unchanged (fun l => (log_state_ l, trace_ l)) l ld
    /\ (list_ (entry_batch_queue_ l) = [] -> ld = l).
Proof.
  intros Hsh. unfold BlockingDrainTo, bind, gets, modify, ret.
  destruct (list_ (entry_batch_queue_ l)) as [|b bs] eqn:Hl; rewrite Hsh.
  - exists l. repeat split; auto.
  - eexists. split; [reflexivity|]. simpl. repeat split; auto. discriminate.
Qed.

Lemma RunThread_group_of_nothing f l : RunThread_group f [] l = (Ret tt, l).
Proof. reflexivity. Qed.

Lemma AppendThread_Shutdown_Ret f l u la :
  AppendThread_Shutdown f l = (Ret u, la) ->
  log_state_ la = log_state_ l
  /\ shutdown_ (entry_batch_queue_ la) = true
  /\ (thread_ f = true -> list_ (entry_batch_queue_ la) = []).
Proof.
  intros E. unfold AppendThread_Shutdown in E.
  bind_step E u0 ls Es. unfold Shutdown, modify in Es.
  inversion Es; subst u0 ls; clear Es.
  destruct (thread_ f).
  2:{ unfold ret in E. inversion E; subst. simpl. repeat split. discriminate. }
  unfold CHECK_OK in E.
  match type of E with
  | match ?c ?x with _ => _ end = _ => destruct (c x) as [[[]|s|w|] lx] eqn:Ejoin
  end; inversion E; subst lx; clear E.
  bind_step Ejoin exited lr Er. unfold ret in Ejoin. inversion Ejoin; subst lr.
  clear Ejoin. simpl in Er.
  bind_step Er d ld Ed.
  match type of Ed with
  | BlockingDrainTo ?ls = _ =>
      destruct (BlockingDrainTo_after_shutdown ls eq_refl)
        as (ld' & Ed' & Hlist & Hsh & Hst & _)
  end.
  rewrite Ed' in Ed. inversion Ed; subst d ld'; clear Ed Ed'.
  bind_step Er ug lg Eg. simpl in Eg.
  assert (Hg : unchanged (fun l => (log_state_ l, entry_batch_queue_ l)) ld lg).
  { revert Eg. apply RunThread_group_unchanged; reflexivity. }
  unfold unchanged in Hg, Hst. injection Hg as Hg1 Hg2. injection Hst as Hst _.
  simpl in Er. unfold ret in Er. inversion Er; subst.
  rewrite Hg1, Hg2, Hst. auto.
Qed.

Lemma AppendThread_Shutdown_again f l :
  shutdown_ (entry_batch_queue_ l) = true ->
  list_ (entry_batch_queue_ l) = [] ->
  AppendThread_Shutdown f l = (Ret tt, l).
Proof.
  intros Hsh Hlist. unfold AppendThread_Shutdown.
  rewrite (bind_run _ _ l tt l (Shutdown_again l Hsh)).
  destruct (thread_ f); [|reflexivity].
  assert (Hr : RunThread 1 (fun _ => last_pass f) 0 l = (Ret true, l)).
  { cbn [RunThread].
    destruct (BlockingDrainTo_after_shutdown l Hsh) as (ld & Ed & _ & _ & _ & Hsame).
    rewrite (Hsame Hlist), Hlist in Ed.
    rewrite (bind_run _ _ l ([], false) l Ed). cbn [fst snd negb].
    rewrite (bind_run _ _ l tt l (RunThread_group_of_nothing _ l)).
    reflexivity. }
  unfold CHECK_OK. rewrite (bind_run _ _ l true l Hr). reflexivity.
Qed.

Lemma Close_of_a_closed_log f l :
  log_state_ l = kLogClosed ->
  shutdown_ (entry_batch_queue_ l) = true ->
  list_ (entry_batch_queue_ l) = [] ->
  Close f l = (Ret tt, pool_shut_down l).
Proof.
  intros Hst Hsh Hlist. unfold Close.
  rewrite (bind_run _ _ l tt (pool_shut_down l) (emit_run _ l)).
  rewrite (bind_run _ _ _ tt _
             (AppendThread_Shutdown_again f (pool_shut_down l) Hsh Hlist)).
  unfold bind, gets. simpl. rewrite Hst. reflexivity.
Qed.

Lemma no_event_only e :
  (fun _ : Event => false) e = true ->
  exists b, e = EvWriteEntryBatch b /\ total_size_bytes_ b = 0.
Proof. discriminate. Qed.

(** [Close] starts by shutting the allocation pool down, and like every
    step it only appends to the trace. *)
Lemma Close_trace f l o l1 :
  Close f l = (o, l1) ->
  exists evs, trace_ l1 = trace_ l ++ EvAllocationPoolShutdown :: evs.
Proof.
  intros E. unfold Close in E.
  rewrite (bind_run _ _ l tt (pool_shut_down l) (emit_run _ l)) in E.
  match type of E with
  | ?c _ = _ =>
      assert (Hc : stable_for (adds_no (fun _ => false)) c)
  end.
  { pose proof (adds_no_refl (fun _ : Event => false)) as Hrefl_.
    pose proof (adds_no_trans (fun _ : Event => false)) as Htrans_.
    apply stable_bind; [assumption | | intros u].
    { unfold AppendThread_Shutdown.
      apply stable_bind; [assumption | | intros u].
      { apply stable_modify. intros l0. exists []. split; [|reflexivity].
        simpl. now rewrite app_nil_r. }
      destruct (thread_ f); [|apply stable_ret; apply Hrefl_].
      apply stable_CHECK_OK.
      apply stable_bind; [assumption | | intros ?; apply stable_ret; apply Hrefl_].
      apply (RunThread_adds_no_such _ no_event_only). }
    apply stable_bind; [assumption | apply stable_gets; assumption | intros st].
    destruct st;
      [apply stable_fail; apply Hrefl_ | | apply stable_ret; apply Hrefl_].
    repeat first
      [ apply (Sync_adds_no_such _ no_event_only)
      | apply (CloseCurrentSegment_adds_no_such _ no_event_only)
      | apply (ReplaceSegmentInReaderUnlocked_adds_no_such _ no_event_only)
      | progress (stable_steps
          ltac:(first
                  [ exists []; split; [simpl; now rewrite app_nil_r | reflexivity]
                  | eexists; split; reflexivity ])) ]. }
  destruct (Hc _ _ _ E) as (evs & T & _). exists evs.
  rewrite T. simpl. now rewrite <- app_assoc.
Qed.

(** X20.  A [Close] that returns OK on a log that is being written (its
    append thread existing) leaves the log closed: the allocation pool was
    shut down first, the state is [kLogClosed], the queue is shut down and
    empty, the segment that was active is closed with the footer that was
    being built, and the pointers to the index and to the reader are reset.
    A [Close] of the log it leaves, whatever happens to fail during it,
    returns OK and does nothing but shut the allocation pool down again. *)
Theorem Close_closes_the_log_once (f : CloseFaults) (l l1 : Log) :
  Close f l = (Ret tt, l1) ->
  log_state_ l = kLogWriting ->
  thread_ f = true ->
  (exists evs, new_events l l1 = EvAllocationPoolShutdown :: evs)
  /\ log_state_ l1 = kLogClosed
  /\ shutdown_ (entry_batch_queue_ l1) = true
  /\ list_ (entry_batch_queue_ l1) = []
  /\ IsClosed (active_segment_ l1) = true
  /\ ws_footer (active_segment_ l1) = Some (footer_builder_ l1)
  /\ log_index_held l1 = false
  /\ reader_held l1 = false
  /\ forall f', Close f' l1 = (Ret tt, pool_shut_down l1).
Proof.
  intros E Hst Hthread.
  split.
  { destruct (Close_trace _ _ _ _ E) as (evs & T). exists evs.
    exact (new_events_app _ _ _ T). }
  unfold Close in E.
  rewrite (bind_run _ _ l tt (pool_shut_down l) (emit_run _ l)) in E.
  bind_step E u la Ea.
  destruct (AppendThread_Shutdown_Ret _ _ _ _ Ea) as (Hsta & Hsh & Hlist).
  simpl in Hsta. specialize (Hlist Hthread). clear Ea.
  bind_step E st l0 E0. unfold gets in E0. inversion E0; subst st l0; clear E0.
  rewrite Hsta, Hst in E.
  bind_step E u1 l2 E2. apply RETURN_NOT_OK_Ret in E2. destruct E2 as [_ ->].
  bind_step E u3 l3 E3. destruct u3. apply Sync_Ret in E3. destruct E3 as (evs & ->).
  bind_step E u4 l4 E4. unfold CloseCurrentSegment in E4.
  bind_step E4 v0 m0 F0. rewrite emit_run in F0. inversion F0; subst v0 m0; clear F0.
  bind_step E4 v1 m1 F1. apply RETURN_NOT_OK_Ret in F1. destruct F1 as [_ ->].
  unfold modify in E4. inversion E4; subst u4 l4; clear E4.
  bind_step E u5 l5 E5. unfold ReplaceSegmentInReaderUnlocked in E5.
  bind_step E5 seg n0 G0. unfold gets in G0. inversion G0; subst seg n0; clear G0.
  bind_step E5 w1 n1 G1. apply CHECK_Ret in G1. destruct G1 as [_ ->].
  bind_step E5 w2 n2 G2. apply RETURN_NOT_OK_Ret in G2. destruct G2 as [_ ->].
  unfold modify in E5. inversion E5; subst u5 l5; clear E5.
  bind_step E u6 l6 E6. unfold modify in E6. inversion E6; subst u6 l6; clear E6.
  bind_step E u7 l7 E7. unfold modify in E7. inversion E7; subst u7 l7; clear E7.
  bind_step E u8 l8 E8. unfold modify in E8. inversion E8; subst u8 l8; clear E8.
  apply RETURN_NOT_OK_Ret in E. destruct E as [_ ->].
  assert (Hfacts :
    forall lx, lx = (if fsync_enabled la then mark_synced la else la) ->
      entry_batch_queue_ lx = entry_batch_queue_ la).
  { intros lx ->. destruct (fsync_enabled la); reflexivity. }
  match goal with
  | |- log_state_ ?l1 = _ /\ _ =>
      assert (Hq : entry_batch_queue_ l1 = entry_batch_queue_ la)
        by (simpl; apply Hfacts; reflexivity)
  end.
  split; [reflexivity|].
  split; [rewrite Hq; exact Hsh|].
  split; [rewrite Hq; exact Hlist|].
  split; [reflexivity|].
  split; [reflexivity|].
  split; [reflexivity|].
  split; [reflexivity|].
  intros f'. apply Close_of_a_closed_log.
  - reflexivity.
  - rewrite Hq. exact Hsh.
  - rewrite Hq. exact Hlist.
Qed.

Lemma Close_closes_the_log_once_witness :
  log_state_ (snd (Close no_close_faults example_log_queued)) = kLogClosed
  /\ reader_held (snd (Close no_close_faults example_log_queued)) = false
  /\ Close close_sync_fails (snd (Close no_close_faults example_log_queued))
     = (Ret tt, pool_shut_down (snd (Close no_close_faults example_log_queued))).
Proof.
  destruct (Close_closes_the_log_once no_close_faults example_log_queued
              (snd (Close no_close_faults example_log_queued)))
    as (_ & H1 & _ & _ & _ & _ & _ & H7 & H8).
  - vm_compute. reflexivity.
  - reflexivity.
  - reflexivity.
  - split; [exact H1 | split; [exact H7 | exact (H8 close_sync_fails)]].
Defined.

Lemma RunThread_last_pass_keeps f l o la :
  RunThread 1 (fun _ => f) 0 l = (o, la) ->
  shutdown_ (entry_batch_queue_ l) = true ->
  log_state_ la = log_state_ l /\ shutdown_ (entry_batch_queue_ la) = true.
Proof.
  intros E Hsh. cbn [RunThread] in E.
  destruct (BlockingDrainTo_after_shutdown l Hsh) as (ld & Ed & _ & Hshd & Hst & _).
  rewrite (bind_run _ _ l _ ld Ed) in E. cbn [fst snd negb] in E.
  unfold unchanged in Hst. injection Hst as Hst _.
  apply bind_trace in E. destruct E as (og & lg & Eg & E).
  assert (Hg : unchanged (fun l => (log_state_ l, entry_batch_queue_ l)) ld lg).
  { revert Eg. apply RunThread_group_unchanged; reflexivity. }
  unfold unchanged in Hg. injection Hg as Hg1 Hg2.
  assert (Hla : la = lg).
  { destruct E as [(a & _ & E)|[_ E]]; [|now subst].
    unfold ret in E. now inversion E. }
  subst la. rewrite Hg1, Hg2, Hst. auto.
Qed.

Lemma AppendThread_Shutdown_keeps f l o la :
  AppendThread_Shutdown f l = (o, la) ->
  log_state_ la = log_state_ l /\ shutdown_ (entry_batch_queue_ la) = true.
Proof.
  intros E. unfold AppendThread_Shutdown in E.
  rewrite (bind_run _ _ l tt (snd (Shutdown l)) eq_refl) in E.
  destruct (thread_ f).
  2:{ unfold ret in E. inversion E; subst. simpl. auto. }
  unfold CHECK_OK in E.
  match type of E with
  | match ?c ?x with _ => _ end = _ => destruct (c x) as [oj lj] eqn:Ejoin
  end.
  assert (Hla : la = lj) by (destruct oj; now inversion E). subst lj. clear E.
  apply bind_trace in Ejoin. destruct Ejoin as (orun & lr & Er & E).
  assert (Hlr : la = lr).
  { destruct E as [(a & _ & E)|[_ E]]; [|now subst].
    unfold ret in E. now inversion E. }
  subst lr. clear E.
  destruct (RunThread_last_pass_keeps _ _ _ _ Er eq_refl) as [H1 H2].
  rewrite H1. auto.
Qed.

Lemma Reserve_on_a_shut_queue type pb l :
  log_state_ l = kLogWriting ->
  shutdown_ (entry_batch_queue_ l) = true ->
  Reserve type pb l = (Fail kLogShutdownStatus, l).
Proof.
  intros Hst Hsh. unfold Reserve, BlockingPut, bind, gets, CHECK, ret, fail.
  rewrite Hst. simpl. rewrite Hsh. reflexivity.
Qed.

Lemma CloseCurrentSegment_unchanged {A} (proj : Log -> A) f :
  (forall v l, proj (set_trace v l) = proj l) ->
  (forall v l, proj (set_active_segment v l) = proj l) ->
  stable_for (unchanged proj) (CloseCurrentSegment f).
Proof.
  intros Ht Hs. unfold CloseCurrentSegment.
  pose proof (unchanged_refl proj) as Hrefl_.
  pose proof (unchanged_trans proj) as Htrans_.
  repeat first
    [ progress (stable_steps ltac:(unfold unchanged; first [apply Ht | apply Hs])) ].
Qed.

Lemma ReplaceSegmentInReaderUnlocked_unchanged {A} (proj : Log -> A) f :
  (forall v l, proj (set_reader v l) = proj l) ->
  stable_for (unchanged proj) (ReplaceSegmentInReaderUnlocked f).
Proof.
  intros Hr. unfold ReplaceSegmentInReaderUnlocked.
  pose proof (unchanged_refl proj) as Hrefl_.
  pose proof (unchanged_trans proj) as Htrans_.
  repeat first
    [ progress (stable_steps ltac:(unfold unchanged; apply Hr)) ].
Qed.

(** X21.  A [Close] of a log that is being written which returns a bad
    status other than that of the PostClose hook has not closed the log: the
    state is still [kLogWriting], but the queue is shut down, so that every
    [Reserve] from then on returns ServiceUnavailable, WAL is shutting down,
    and changes nothing. *)
Theorem failed_Close_leaves_a_log_that_refuses_entries
        (f : CloseFaults) (l l1 : Log) (s : Status) :
  Close f l = (Fail s, l1) ->
  log_state_ l = kLogWriting ->
  ok (PostClose f) = true ->
  log_state_ l1 = kLogWriting
  /\ shutdown_ (entry_batch_queue_ l1) = true
  /\ forall type pb, Reserve type pb l1 = (Fail kLogShutdownStatus, l1).
Proof.
  intros E Hst Hpost.
  assert (Hkey : log_state_ l1 = kLogWriting
                 /\ shutdown_ (entry_batch_queue_ l1) = true).
  { unfold Close in E.
    rewrite (bind_run _ _ l tt (pool_shut_down l) (emit_run _ l)) in E.
    apply bind_trace in E. destruct E as (oa & la & Ea & E).
    destruct (AppendThread_Shutdown_keeps _ _ _ _ Ea) as [Hsta Hsha].
    simpl in Hsta. rewrite Hst in Hsta. clear Ea.
    destruct E as [(u & _ & E)|[_ <-]]; [|auto].
    rewrite (bind_run (gets log_state_) _ la _ la eq_refl) in E.
    rewrite Hsta in E.
    assert (Hstep : forall (c : M unit) (k : unit -> M unit) lx,
              stable_for (unchanged (fun l => (log_state_ l, entry_batch_queue_ l))) c ->
              log_state_ lx = kLogWriting ->
              shutdown_ (entry_batch_queue_ lx) = true ->
              bind c k lx = (Fail s, l1) ->
              (log_state_ l1 = kLogWriting
               /\ shutdown_ (entry_batch_queue_ l1) = true)
              \/ exists ly, log_state_ ly = kLogWriting
                            /\ shutdown_ (entry_batch_queue_ ly) = true
                            /\ k tt ly = (Fail s, l1)).
    { intros c k lx Hc Hx1 Hx2 Ex.
      apply bind_trace in Ex. destruct Ex as (o & ly & Ec & Ex).
      apply Hc in Ec. unfold unchanged in Ec. injection Ec as Hy1 Hy2.
      rewrite Hx1 in Hy1. rewrite <- Hy2 in Hx2.
      destruct Ex as [([] & _ & Ex)|[_ <-]]; [right; eauto | left; auto]. }
    apply Hstep in E; [|apply stable_RETURN_NOT_OK_PREPEND; apply unchanged_refl
                       | assumption | assumption].
    destruct E as [E|(l2 & H21 & H22 & E)]; [exact E|].
    apply Hstep in E; [|apply Sync_unchanged; reflexivity | assumption | assumption].
    destruct E as [E|(l3 & H31 & H32 & E)]; [exact E|].
    apply Hstep in E; [|apply CloseCurrentSegment_unchanged; reflexivity
                       | assumption | assumption].
    destruct E as [E|(l4 & H41 & H42 & E)]; [exact E|].
    apply Hstep in E; [|apply ReplaceSegmentInReaderUnlocked_unchanged; reflexivity
                       | assumption | assumption].
    destruct E as [E|(l5 & H51 & H52 & E)]; [exact E|].
    exfalso. apply ok_is_OK in Hpost.
    unfold bind, modify, RETURN_NOT_OK_PREPEND, RETURN_NOT_OK in E.
    rewrite Hpost in E. simpl in E. discriminate. }
  destruct Hkey as [H1 H2]. split; [exact H1|]. split; [exact H2|].
  intros type pb. exact (Reserve_on_a_shut_queue type pb l1 H1 H2).
Qed.

Lemma failed_Close_leaves_a_log_that_refuses_entries_witness :
  fst (Close close_sync_fails example_log_queued) = Fail fsync_status
  /\ Reserve COMMIT {| entry := [{| entry_type := COMMIT;
                                    replicate_id := MakeOpId 2 7 |}];
                       ByteSize := 16 |}
             (snd (Close close_sync_fails example_log_queued))
     = (Fail (Error kServiceUnavailable "WAL is shutting down"),
        snd (Close close_sync_fails example_log_queued)).
Proof.
  split; [vm_compute; reflexivity|].
  destruct (failed_Close_leaves_a_log_that_refuses_entries
              close_sync_fails example_log_queued
              (snd (Close close_sync_fails example_log_queued)) fsync_status)
    as (_ & _ & H).
  - vm_compute. reflexivity.
  - reflexivity.
  - reflexivity.
  - apply H.
Defined.

Lemma AppendThread_Shutdown_of_an_empty_queue f l :
  list_ (entry_batch_queue_ l) = [] ->
  AppendThread_Shutdown f l = (Ret tt, snd (Shutdown l)).
Proof.
  intros Hlist. unfold AppendThread_Shutdown.
  rewrite (bind_run _ _ l tt (snd (Shutdown l)) eq_refl).
  destruct (thread_ f); [|reflexivity].
  assert (Hr : RunThread 1 (fun _ => last_pass f) 0 (snd (Shutdown l))
               = (Ret true, snd (Shutdown l))).
  { cbn [RunThread].
    destruct (BlockingDrainTo_after_shutdown (snd (Shutdown l)) eq_refl)
      as (ld & Ed & _ & _ & _ & Hsame).
    simpl in Hsame. rewrite (Hsame Hlist) in Ed.
    change (list_ (entry_batch_queue_ (snd (Shutdown l))))
      with (list_ (entry_batch_queue_ l)) in Ed.
    rewrite Hlist in Ed.
    rewrite (bind_run _ _ _ ([], false) _ Ed). cbn [fst snd negb].
    rewrite (bind_run _ _ _ tt _ (RunThread_group_of_nothing _ _)).
    unfold ret, Shutdown, modify. simpl. rewrite Hlist. reflexivity. }
  unfold CHECK_OK. rewrite (bind_run _ _ _ true _ Hr). reflexivity.
Qed.

(** X22.  A [Close] of a log that was never initialized (nothing is in its
    queue and no allocation was started) returns IllegalState; all it has
    done is shut the allocation pool and then the queue down. *)
Theorem Close_of_an_uninitialized_log (f : CloseFaults) (l : Log) :
  log_state_ l = kLogInitialized ->
  allocation_state_ l = kAllocationNotStarted ->
  list_ (entry_batch_queue_ l) = [] ->
  exists m,
    Close f l = (Fail (Error kIllegalState m), snd (Shutdown (pool_shut_down l)))
    /\ new_events l (snd (Shutdown (pool_shut_down l))) = [EvAllocationPoolShutdown]
    /\ shutdown_ (entry_batch_queue_ (snd (Shutdown (pool_shut_down l)))) = true
    /\ log_state_ (snd (Shutdown (pool_shut_down l))) = kLogInitialized
    /\ set_entry_batch_queue (entry_batch_queue_ l)
         (set_trace (trace_ l) (snd (Shutdown (pool_shut_down l)))) = l.
Proof.
  intros Hst _ Hlist. eexists.
  split; [|split; [|split; [reflexivity | split; [exact Hst|]]]].
  - unfold Close.
    rewrite (bind_run _ _ l tt (pool_shut_down l) (emit_run _ l)).
    rewrite (bind_run _ _ _ tt _
               (AppendThread_Shutdown_of_an_empty_queue f (pool_shut_down l) Hlist)).
    unfold bind, gets, fail. simpl. rewrite Hst. reflexivity.
  - apply new_events_app. reflexivity.
  - destruct l. reflexivity.
Qed.

Lemma Close_of_an_uninitialized_log_witness :
  exists m,
    Close no_close_faults (set_log_state kLogInitialized example_log)
    = (Fail (Error kIllegalState m),
       snd (Shutdown (pool_shut_down (set_log_state kLogInitialized example_log))))
    /\ new_events (set_log_state kLogInitialized example_log)
         (snd (Shutdown (pool_shut_down (set_log_state kLogInitialized example_log))))
       = [EvAllocationPoolShutdown].
Proof.
  destruct (Close_of_an_uninitialized_log no_close_faults
              (set_log_state kLogInitialized example_log))
    as (m & E & T & _); try reflexivity.
  exists m. split; [exact E | exact T].
Defined.

(** ** A rollover that fails half way *)

(** X23.  A [RollOver] that returns a bad status after the segment was
    closed (the allocation, the [Sync] and the writing of the footer having
    gone through, so that the status comes from
    [SwitchToAllocatedSegment]) leaves the log half way: the sequence number
    of the log is already one more, the active segment is still the old one
    and is closed, and the allocation still counts as finished, so that the
    next [DoAppend] rolls over again.  A reader that followed the log no
    longer does. *)
Theorem failed_switch_leaves_the_log_out_of_step
        (f : RollFaults) (l l' : Log) (s : Status) :
  RollOver f l = (Fail s, l') ->
  allocation_status f = OK ->
  roll_sync f = no_sync_faults ->
  WriteFooterAndClose f = OK ->
  active_segment_sequence_number_ l' = active_segment_sequence_number_ l + 1
  /\ ws_sequence_number (active_segment_ l') = ws_sequence_number (active_segment_ l)
  /\ IsClosed (active_segment_ l') = true
  /\ allocation_state_ l' = kAllocationFinished
  /\ (reader_in_step l = true -> reader_in_step l' = false).
Proof.
  intros E Halloc Hsync Hfooter.
  assert (Hfacts :
    active_segment_sequence_number_ l' = active_segment_sequence_number_ l + 1
    /\ ws_sequence_number (active_segment_ l') = ws_sequence_number (active_segment_ l)
    /\ IsClosed (active_segment_ l') = true
    /\ allocation_state_ l' = kAllocationFinished).
  { unfold RollOver, SegmentAllocationTask, Sync, CloseCurrentSegment,
      SwitchToAllocatedSegment, ReplaceSegmentInReaderUnlocked,
      CHECK_OK, CHECK, bind, emit, modify, gets, ret, fail,
      RETURN_NOT_OK_PREPEND, RETURN_NOT_OK in E.
    rewrite Halloc, Hsync, Hfooter in E. simpl in E.
    destruct (force_sync_all_ (options_ l) && negb (sync_disabled_ (options_ l)));
      simpl in E;
      (destruct (RenameFile_SyncDir f); simpl in E;
       [|inversion E; subst; simpl; auto]);
      (destruct (WriteHeaderAndOpen f); simpl in E;
       [|inversion E; subst; simpl; auto]);
      (destruct (ReplaceLastSegment f); simpl in E; [|discriminate]);
      (destruct (AppendEmptySegment f); simpl in E;
       [discriminate | inversion E; subst; simpl; auto]). }
  destruct Hfacts as (Hseq & Hws & Hclosed & Halloc').
  repeat (split; [assumption|]).
  intros Hstep. unfold reader_in_step in *. apply in_step_inv in Hstep.
  destruct Hstep as (closed & last_segment & _ & _ & _ & _ & _ & Hwsl).
  unfold in_step. destruct (rev (segments_ (reader_ l'))); [reflexivity|].
  rewrite Hws, Hwsl, Hseq.
  replace (active_segment_sequence_number_ l =? active_segment_sequence_number_ l + 1)
    with false by (symmetry; apply Z.eqb_neq; lia).
  now rewrite andb_false_r.
Qed.

Lemma failed_switch_leaves_the_log_out_of_step_witness :
  active_segment_sequence_number_ (snd (RollOver rename_fails example_log_allocated))
  = 2
  /\ ws_sequence_number
       (active_segment_ (snd (RollOver rename_fails example_log_allocated))) = 1
  /\ reader_in_step (snd (RollOver rename_fails example_log_allocated)) = false.
Proof.
  destruct (failed_switch_leaves_the_log_out_of_step
              rename_fails example_log_allocated
              (snd (RollOver rename_fails example_log_allocated))
              (Error kIOError "rename failed"))
    as (H1 & H2 & _ & _ & H5).
  - vm_compute. reflexivity.
  - reflexivity.
  - reflexivity.
  - reflexivity.
  - rewrite H1, H2. split; [reflexivity|]. split; [reflexivity|].
    apply H5. vm_compute. reflexivity.
Defined.

(** ** When the appender leaves its loop *)



